(** * Gambit: extensive-form Liapunov solver, rectangular arrays and
      complex numbers

    A shallow embedding of

    - [libgambit/grarray.h]: the rectangular array base class
      [gbtRectArray<T>] with its accessors, rotations, row and column
      exchanges, copies and transposition (module [RectArray]);
    - [eliap.cc]: the Liapunov objective [EFLiapFunc::Value], the random
      restart sampler [PickRandomProfile], the driver [Liap] and the
      solve-by-subgame wrapper [EFLiapBySubgame] (module [EFLiap]);
    - [tools/enumpoly/complex.cc]: the arithmetic of [gComplex] and the
      power function [pow] (module [Complex]).  [fabs] takes a square
      root and the conversions from and to text only leave the program:
      they are not modelled.

    Conventions.  C++ [int] values that may be negative (array bounds,
    [nTries], [stopAfter]) are integers of [Z]; counts and 1-based
    positions in player, infoset and action lists are [nat]; the [long]
    evaluation counter and the [long] exponent of [pow] are integers of
    [Z].  Counters are mathematical integers: a loop bound of [INT_MAX]
    or [LONG_MAX] evaluations, where an increment would overflow, and
    the negation of the least [long] are outside the model.  A [double]
    is modelled by an exact rational of [Q]: every finite double is a
    rational, the operations are the exact field operations, and
    rounding, overflow, NaN and infinities are outside the model.
    Equality of doubles is therefore [Qeq] ([==]). *)

From Stdlib Require Import ZArith List Lia QArith Qminmax Lqa Bool.
From stdpp Require Import base list.

Unset Default Proof Using.

(** ** Outcomes of a call

    A C++ call either returns, throws, or (for the rejection loop of the
    sampler) may fail to return.  [BadAccess] stands for an access outside
    the storage of a container that does not check its index: undefined
    behaviour in C++, a distinguished failure here. *)

Inductive exception : Type :=
| gbtIndexException
| gbtDimensionException
| bad_alloc
| AssertionFailure
| BadAccess.

Inductive outcome (A : Type) : Type :=
| Ok (a : A)
| Raise (e : exception)
| OutOfFuel.

Arguments Ok {A} a.
Arguments Raise {A} e.
Arguments OutOfFuel {A}.

(** The error monad of outcomes, with stdpp's [x ← m; k] notation. *)
#[global] Instance outcome_ret : MRet outcome := fun A a => Ok a.
#[global] Instance outcome_fmap : FMap outcome := fun A B f m =>
  match m with
  | Ok a => Ok (f a)
  | Raise e => Raise e
  | OutOfFuel => OutOfFuel
  end.
#[global] Instance outcome_bind : MBind outcome := fun A B k m =>
  match m with
  | Ok a => k a
  | Raise e => Raise e
  | OutOfFuel => OutOfFuel
  end.

Definition or_raise {A : Type} (e : exception) (o : option A) : outcome A :=
  match o with
  | Some a => Ok a
  | None => Raise e
  end.

(** A counted loop runs its body on each index in turn and threads the
    state; an exception leaves the loop. *)

Fixpoint for_seq {I S : Type} (idx : list I) (body : I -> S -> outcome S)
    (s : S) : outcome S :=
  match idx with
  | [] => Ok s
  | i :: idx' => s' ← body i s; for_seq idx' body s'
  end.

(** [for (int i = lo; i <= hi; i++) body] on C++ [int] bounds. *)
Definition for_range {S : Type} (lo hi : Z) (body : Z -> S -> outcome S)
    (s : S) : outcome S :=
  for_seq (seqZ lo (hi - lo + 1)) body s.

(** [for (int k = 1; k <= n; k++) body] on a count. *)
Definition for_upto {S : Type} (n : nat) (body : nat -> S -> outcome S)
    (s : S) : outcome S :=
  for_seq (seq 1 n) body s.

(** [for (int k = hi; k > lo; k--) body]: the indices [hi], [hi - 1], ...,
    [lo + 1]. *)
Definition for_down {S : Type} (hi lo : Z) (body : Z -> S -> outcome S)
    (s : S) : outcome S :=
  for_seq (map (fun n => (hi - Z.of_nat n)%Z) (seq 0 (Z.to_nat (hi - lo)))) body s.

(** [returns m P]: the call [m] returns normally, with a result in [P]. *)
Definition returns {A : Type} (m : outcome A) (P : A -> Prop) : Prop :=
  exists a, m = Ok a /\ P a.

(** [guarded div exc m P]: when the call [m] returns, its result is in
    [P]; when it raises, the exception is in [exc]; running out of fuel is
    allowed when [div] holds.  [ends div m P]: the same, and [m] raises
    nothing. *)
Definition guarded {A : Type} (div : Prop) (exc : exception -> Prop)
    (m : outcome A) (P : A -> Prop) : Prop :=
  match m with
  | Ok a => P a
  | Raise e => exc e
  | OutOfFuel => div
  end.

Definition ends {A : Type} (div : Prop) (m : outcome A) (P : A -> Prop) : Prop :=
  guarded div (fun _ => False) m P.

(** * Rectangular arrays ([libgambit/grarray.h]) *)

Module RectArray.

Section Defs.

Context {T : Type}.

(** [T **data] is a block of row pointers, each to a block of elements,
    both shifted so that [data[r][c]] is addressed with the declared
    bounds.  The rows are kept as a list of lists: row [r] is at position
    [r - minrow], column [c] at position [c - mincol]. *)

Record gbtRectArray : Type := mkRectArray {
  minrow : Z;
  maxrow : Z;
  mincol : Z;
  maxcol : Z;
  data : list (list T)
}.

(** The representation invariant every constructor establishes. *)
Definition wf (a : gbtRectArray) : Prop :=
  length (data a) = Z.to_nat (maxrow a - minrow a + 1) /\
  Forall (fun row => length row = Z.to_nat (maxcol a - mincol a + 1)) (data a).

Definition CheckRow (a : gbtRectArray) (row : Z) : bool :=
  (minrow a <=? row)%Z && (row <=? maxrow a)%Z.

Definition CheckColumn (a : gbtRectArray) (col : Z) : bool :=
  (mincol a <=? col)%Z && (col <=? maxcol a)%Z.

Definition Check (a : gbtRectArray) (row col : Z) : bool :=
  CheckRow a row && CheckColumn a col.

Definition NumRows (a : gbtRectArray) : Z := maxrow a - minrow a + 1.
Definition NumColumns (a : gbtRectArray) : Z := maxcol a - mincol a + 1.

(** The cell [data[r][c]], when it lies inside the allocated blocks. *)
Definition cell (a : gbtRectArray) (r c : Z) : option T :=
  if ((minrow a <=? r) && (mincol a <=? c))%Z
  then match data a !! Z.to_nat (r - minrow a) with
       | Some row => row !! Z.to_nat (c - mincol a)
       | None => None
       end
  else None.

Definition set_cell (a : gbtRectArray) (r c : Z) (x : T) : option gbtRectArray :=
  match cell a r c with
  | Some _ =>
      Some (mkRectArray (minrow a) (maxrow a) (mincol a) (maxcol a)
              (alter (fun row => <[Z.to_nat (c - mincol a) := x]> row)
                     (Z.to_nat (r - minrow a)) (data a)))
  | None => None
  end.

(** [const T &operator()(int r, int c) const] *)
Definition get (a : gbtRectArray) (r c : Z) : outcome T :=
  if negb (Check a r c) then Raise gbtIndexException
  else or_raise BadAccess (cell a r c).

(** [T &operator()(int r, int c)] used as the target of an assignment. *)
Definition put (a : gbtRectArray) (r c : Z) (x : T) : outcome gbtRectArray :=
  if negb (Check a r c) then Raise gbtIndexException
  else or_raise BadAccess (set_cell a r c x).

(** [gbtRectArray(int minr, int maxr, int minc, int maxc)].  The elements
    are not initialised by the constructor; [fresh] is the value a new
    cell holds.  The row blocks are requested with [maxcol - mincol + 1]
    elements whenever that number is not zero, so a negative count
    reaches [new] when there is at least one row. *)
Definition new_gbtRectArray (fresh : T) (minr maxr minc maxc : Z) : outcome gbtRectArray :=
  if ((minr <=? maxr) && (maxc - minc + 1 <? 0))%Z then Raise bad_alloc
  else Ok (mkRectArray minr maxr minc maxc
             (replicate (Z.to_nat (maxr - minr + 1))
                (replicate (Z.to_nat (maxc - minc + 1)) fresh))).

(** [gbtRectArray<T> Transpose() const]:
<<
  gbtRectArray<T> tmp(mincol, maxcol, minrow, maxrow);
  for (int i = minrow; i <= maxrow; i++)
    for (int j = mincol; j <= maxrow; j++)
      tmp(j,i) = this->operator()(i,j);
  return tmp;
>>
    Both sides of the assignment raise the same exception, so the order
    in which they are evaluated does not show. *)
Definition Transpose (fresh : T) (a : gbtRectArray) : outcome gbtRectArray :=
  tmp ← new_gbtRectArray fresh (mincol a) (maxcol a) (minrow a) (maxrow a);
  for_range (minrow a) (maxrow a) (fun i tmp =>
    for_range (mincol a) (maxrow a) (fun j tmp =>
      x ← get a i j;
      put tmp j i x) tmp) tmp.

(** *** Access without a check

    Inside the member functions the storage is addressed directly:
    [data[r]] is a row pointer and [data[r][c]] an element.  Outside the
    allocated blocks this is undefined behaviour in C++ and the failure
    [BadAccess] here.  A row pointer is modelled by the row it points to;
    the rotations and [SwitchRows] move row pointers and write no element
    while two of them are equal, so the sharing does not show. *)
Definition row_at (a : gbtRectArray) (r : Z) : option (list T) :=
  if (minrow a <=? r)%Z then data a !! Z.to_nat (r - minrow a) else None.

(** [data[r]], read. *)
Definition row_ptr (a : gbtRectArray) (r : Z) : outcome (list T) :=
  or_raise BadAccess (row_at a r).

(** [data[r] = p]. *)
Definition set_row_ptr (a : gbtRectArray) (r : Z) (p : list T) : outcome gbtRectArray :=
  match row_at a r with
  | Some _ =>
      Ok (mkRectArray (minrow a) (maxrow a) (mincol a) (maxcol a)
            (<[Z.to_nat (r - minrow a) := p]> (data a)))
  | None => Raise BadAccess
  end.

(** [data[r][c]], read and written. *)
Definition rd (a : gbtRectArray) (r c : Z) : outcome T :=
  or_raise BadAccess (cell a r c).

Definition wr (a : gbtRectArray) (r c : Z) (x : T) : outcome gbtRectArray :=
  or_raise BadAccess (set_cell a r c x).

(** *** Rotation of rows and columns *)

(** [void RotateUp(int lo, int hi)]:
<<
  if (lo < minrow || hi < lo || maxrow < hi)  throw gbtIndexException();
  T *temp = data[lo];
  for (int k = lo; k < hi; k++)  data[k] = data[k + 1];
  data[hi] = temp;
>> *)
Definition RotateUp (a : gbtRectArray) (lo hi : Z) : outcome gbtRectArray :=
  if ((lo <? minrow a) || (hi <? lo) || (maxrow a <? hi))%Z
  then Raise gbtIndexException
  else
    temp ← row_ptr a lo;
    a ← for_range lo (hi - 1) (fun k a =>
      p ← row_ptr a (k + 1);
      set_row_ptr a k p) a;
    set_row_ptr a hi temp.

(** [void RotateDown(int lo, int hi)]:
<<
  if (lo < minrow || hi < lo || maxrow < hi)  throw gbtIndexException();
  T *temp = data[hi];
  for (int k = hi; k > lo; k--)  data[k] = data[k - 1];
  data[lo] = temp;
>> *)
Definition RotateDown (a : gbtRectArray) (lo hi : Z) : outcome gbtRectArray :=
  if ((lo <? minrow a) || (hi <? lo) || (maxrow a <? hi))%Z
  then Raise gbtIndexException
  else
    temp ← row_ptr a hi;
    a ← for_down hi lo (fun k a =>
      p ← row_ptr a (k - 1);
      set_row_ptr a k p) a;
    set_row_ptr a lo temp.

(** [void RotateLeft(int lo, int hi)]:
<<
  if (lo < mincol || hi < lo || maxcol < hi)   throw gbtIndexException();
  T temp;
  for (int i = minrow; i <= maxrow; i++)  {
    T *row = data[i];
    temp = row[lo];
    for (int j = lo; j < hi; j++)  row[j] = row[j + 1];
    row[hi] = temp;
  }
>> *)
Definition RotateLeft (a : gbtRectArray) (lo hi : Z) : outcome gbtRectArray :=
  if ((lo <? mincol a) || (hi <? lo) || (maxcol a <? hi))%Z
  then Raise gbtIndexException
  else
    for_range (minrow a) (maxrow a) (fun i a =>
      temp ← rd a i lo;
      a ← for_range lo (hi - 1) (fun j a =>
        x ← rd a i (j + 1);
        wr a i j x) a;
      wr a i hi temp) a.

(** [void RotateRight(int lo, int hi)]: the same test, then in every row
<<
    T temp = row[hi];
    for (int j = hi; j > lo; j--)  row[j] = row[j - 1];
    row[lo] = temp;
>> *)
Definition RotateRight (a : gbtRectArray) (lo hi : Z) : outcome gbtRectArray :=
  if ((lo <? mincol a) || (hi <? lo) || (maxcol a <? hi))%Z
  then Raise gbtIndexException
  else
    for_range (minrow a) (maxrow a) (fun i a =>
      temp ← rd a i hi;
      a ← for_down hi lo (fun j a =>
        x ← rd a i (j - 1);
        wr a i j x) a;
      wr a i lo temp) a.

(** [void SwitchRows(int i, int j)]:
<<
  if (!CheckRow(i) || !CheckRow(j))   throw gbtIndexException();
  T *temp = data[j];
  data[j] = data[i];
  data[i] = temp;
>> *)
Definition SwitchRows (a : gbtRectArray) (i j : Z) : outcome gbtRectArray :=
  if negb (CheckRow a i) || negb (CheckRow a j) then Raise gbtIndexException
  else
    temp ← row_ptr a j;
    p ← row_ptr a i;
    a ← set_row_ptr a j p;
    set_row_ptr a i temp.

(** [void SwitchColumns(int a, int b)]:
<<
  if (!CheckColumn(a) || !CheckColumn(b))   throw gbtIndexException();
  for (int i = minrow; i <= maxrow; i++)   {
    T tmp = data[i][a];
    data[i][a] = data[i][b];
    data[i][b] = tmp;
  }
>> *)
Definition SwitchColumns (m : gbtRectArray) (a b : Z) : outcome gbtRectArray :=
  if negb (CheckColumn m a) || negb (CheckColumn m b) then Raise gbtIndexException
  else
    for_range (minrow m) (maxrow m) (fun i m =>
      tmp ← rd m i a;
      x ← rd m i b;
      m ← wr m i a x;
      wr m i b tmp) m.

(** *** Rows and columns exchanged with a [gbtArray]

    Modelled from the spec: the class [gbtArray<T>] is declared here and
    defined outside the sources; the row and column functions use its
    bounds [First()] and [Last()] and its [operator[]].  It is a block of
    elements addressed from [First()] to [Last()], and, as the spec has it
    for the containers, an access fails on an index out of range (with the
    index exception). *)
Record gbtArray : Type := mkArray {
  mindex : Z;
  maxdex : Z;
  items : list T
}.

Definition First (v : gbtArray) : Z := mindex v.
Definition Last (v : gbtArray) : Z := maxdex v.

Definition wf_array (v : gbtArray) : Prop :=
  length (items v) = Z.to_nat (maxdex v - mindex v + 1).

Definition elem (v : gbtArray) (i : Z) : option T :=
  if (mindex v <=? i)%Z then items v !! Z.to_nat (i - mindex v) else None.

(** [v[i]], read and written. *)
Definition arr_get (v : gbtArray) (i : Z) : outcome T :=
  if negb ((mindex v <=? i) && (i <=? maxdex v))%Z then Raise gbtIndexException
  else or_raise BadAccess (elem v i).

Definition arr_put (v : gbtArray) (i : Z) (x : T) : outcome gbtArray :=
  if negb ((mindex v <=? i) && (i <=? maxdex v))%Z then Raise gbtIndexException
  else match elem v i with
       | Some _ => Ok (mkArray (mindex v) (maxdex v)
                         (<[Z.to_nat (i - mindex v) := x]> (items v)))
       | None => Raise BadAccess
       end.

(** [bool CheckRow(const gbtArray<T> &) const]: the vector has the column
    bounds of the array. *)
Definition CheckRowArray (a : gbtRectArray) (v : gbtArray) : bool :=
  (First v =? mincol a)%Z && (Last v =? maxcol a)%Z.

(** [bool CheckColumn(const gbtArray<T> &) const] *)
Definition CheckColumnArray (a : gbtRectArray) (v : gbtArray) : bool :=
  (First v =? minrow a)%Z && (Last v =? maxrow a)%Z.

(** [bool CheckBounds(const gbtRectArray<T> &) const] *)
Definition CheckBounds (a m : gbtRectArray) : bool :=
  (minrow a =? minrow m)%Z && (maxrow a =? maxrow m)%Z &&
  (mincol a =? mincol m)%Z && (maxcol a =? maxcol m)%Z.

(** [void GetRow(int row, gbtArray<T> &v) const]:
<<
  if (!CheckRow(row))   throw gbtIndexException();
  if (!CheckRow(v))     throw gbtDimensionException();
  T *rowptr = data[row];
  for (int i = mincol; i <= maxcol; i++)  v[i] = rowptr[i];
>> *)
Definition GetRow (a : gbtRectArray) (row : Z) (v : gbtArray) : outcome gbtArray :=
  if negb (CheckRow a row) then Raise gbtIndexException
  else if negb (CheckRowArray a v) then Raise gbtDimensionException
  else
    for_range (mincol a) (maxcol a) (fun i v =>
      x ← rd a row i;
      arr_put v i x) v.

(** [void SetRow(int row, const gbtArray<T> &v)]: the same tests, then
    [rowptr[i] = v[i]] for every column. *)
Definition SetRow (a : gbtRectArray) (row : Z) (v : gbtArray) : outcome gbtRectArray :=
  if negb (CheckRow a row) then Raise gbtIndexException
  else if negb (CheckRowArray a v) then Raise gbtDimensionException
  else
    for_range (mincol a) (maxcol a) (fun i a =>
      x ← arr_get v i;
      wr a row i x) a.

(** [void SwitchRow(int row, gbtArray<T> &v)]: the same tests, then
<<
  for (int i = mincol; i <= maxcol; i++)  {
    tmp = rowptr[i];
    rowptr[i] = v[i];
    v[i] = tmp;
  }
>> *)
Definition SwitchRow (a : gbtRectArray) (row : Z) (v : gbtArray)
    : outcome (gbtRectArray * gbtArray) :=
  if negb (CheckRow a row) then Raise gbtIndexException
  else if negb (CheckRowArray a v) then Raise gbtDimensionException
  else
    for_range (mincol a) (maxcol a) (fun i '(a, v) =>
      tmp ← rd a row i;
      x ← arr_get v i;
      a ← wr a row i x;
      v ← arr_put v i tmp;
      Ok (a, v)) (a, v).

(** [void GetColumn(int col, gbtArray<T> &v) const]:
<<
  if (!CheckColumn(col))  throw gbtIndexException();
  if (!CheckColumn(v))    throw gbtDimensionException();
  for (int i = minrow; i <= maxrow; i++)  v[i] = data[i][col];
>> *)
Definition GetColumn (a : gbtRectArray) (col : Z) (v : gbtArray) : outcome gbtArray :=
  if negb (CheckColumn a col) then Raise gbtIndexException
  else if negb (CheckColumnArray a v) then Raise gbtDimensionException
  else
    for_range (minrow a) (maxrow a) (fun i v =>
      x ← rd a i col;
      arr_put v i x) v.

(** [void SetColumn(int col, const gbtArray<T> &v)]: the same tests, then
    [data[i][col] = v[i]] for every row. *)
Definition SetColumn (a : gbtRectArray) (col : Z) (v : gbtArray) : outcome gbtRectArray :=
  if negb (CheckColumn a col) then Raise gbtIndexException
  else if negb (CheckColumnArray a v) then Raise gbtDimensionException
  else
    for_range (minrow a) (maxrow a) (fun i a =>
      x ← arr_get v i;
      wr a i col x) a.

(** [void SwitchColumn(int col, gbtArray<T> &v)]: the same tests, then
<<
  for (int i = minrow; i <= maxrow; i++)   {
    T tmp = data[i][col];
    data[i][col] = v[i];
    v[i] = tmp;
  }
>> *)
Definition SwitchColumn (a : gbtRectArray) (col : Z) (v : gbtArray)
    : outcome (gbtRectArray * gbtArray) :=
  if negb (CheckColumn a col) then Raise gbtIndexException
  else if negb (CheckColumnArray a v) then Raise gbtDimensionException
  else
    for_range (minrow a) (maxrow a) (fun i '(a, v) =>
      tmp ← rd a i col;
      x ← arr_get v i;
      a ← wr a i col x;
      v ← arr_put v i tmp;
      Ok (a, v)) (a, v).

(** *** Copies *)

(** [gbtRectArray(const gbtRectArray<T> &a)]: the bounds of [a], a row
    block of [maxcol - mincol + 1] elements for every row when
    [maxcol >= mincol] and none otherwise, and
    [data[i][j] = a.data[i][j]] for every row and column.  The blocks are
    all allocated before the first element is copied here, and in turn in
    the source. *)
Definition copy (fresh : T) (a : gbtRectArray) : outcome gbtRectArray :=
  let this :=
    mkRectArray (minrow a) (maxrow a) (mincol a) (maxcol a)
      (replicate (Z.to_nat (maxrow a - minrow a + 1))
         (replicate (Z.to_nat (maxcol a - mincol a + 1)) fresh)) in
  for_range (minrow a) (maxrow a) (fun i this =>
    for_range (mincol a) (maxcol a) (fun j this =>
      x ← rd a i j;
      wr this i j x) this) this.

(** [gbtRectArray<T> &operator=(const gbtRectArray<T> &a)].  The operand
    is [None] when it is the object itself ([this == &a]), which is then
    left as it is; otherwise the storage is released and the object is
    rebuilt as the copy constructor builds it. *)
Definition assign (fresh : T) (this : gbtRectArray) (a : option gbtRectArray)
    : outcome gbtRectArray :=
  match a with
  | None => Ok this
  | Some a => copy fresh a
  end.

(** *** What the operations are compared with *)

(** The bounds of [a'] are those of [a]. *)
Definition same_bounds (a a' : gbtRectArray) : Prop :=
  minrow a' = minrow a /\ maxrow a' = maxrow a /\
  mincol a' = mincol a /\ maxcol a' = maxcol a.

(** Where the line found at position [k] after a rotation or an exchange
    was before it: a rotation up (or left) of [lo .. hi] brings line
    [k + 1] to [k] and line [lo] to [hi]; a rotation down (or right)
    brings line [k - 1] to [k] and line [hi] to [lo]. *)
Definition rotated_up (lo hi k : Z) : Z :=
  if ((lo <=? k) && (k <? hi))%Z then (k + 1)%Z
  else if (k =? hi)%Z then lo else k.

Definition rotated_down (lo hi k : Z) : Z :=
  if ((lo <? k) && (k <=? hi))%Z then (k - 1)%Z
  else if (k =? lo)%Z then hi else k.

Definition switched (i j k : Z) : Z :=
  if (k =? i)%Z then j else if (k =? j)%Z then i else k.

End Defs.

Arguments gbtRectArray T : clear implicits.
Arguments gbtArray T : clear implicits.

(** Two arrays of integers that are not square. *)
Definition tall : gbtRectArray Z := mkRectArray 1 2 1 1 [[10%Z]; [20%Z]].
Definition wide : gbtRectArray Z := mkRectArray 1 1 1 2 [[10%Z; 20%Z]].
Definition square : gbtRectArray Z := mkRectArray 1 2 1 2 [[1%Z; 2%Z]; [3%Z; 4%Z]].

(** A 3-by-3 array with rows 0 to 2 and columns 1 to 3, and two vectors:
    one with the bounds of its columns, one with the bounds of its rows. *)
Definition grid : gbtRectArray Z :=
  mkRectArray 0 2 1 3 [[1%Z; 2%Z; 3%Z]; [4%Z; 5%Z; 6%Z]; [7%Z; 8%Z; 9%Z]].
Definition across : gbtArray Z := mkArray 1 3 [10%Z; 20%Z; 30%Z].
Definition down : gbtArray Z := mkArray 0 2 [10%Z; 20%Z; 30%Z].

End RectArray.

(** * The extensive-form Liapunov module ([eliap.cc]) *)

Module EFLiap.

(** ** Containers of the game library *)

(** Modelled from the spec: the containers [gList], [gArray], [gVector],
    [gPVector] and [gDPVector], whose declarations are not among the
    sources.  The spec has the profile as "a mutable vector of action
    probabilities indexed by (player, infoset, action)" and the argument
    of the objective as a vector with "one entry per action across all
    infosets, in a fixed canonical order".  All of them are indexed from
    1.  A [gPVector] is a vector cut into one block per player, a
    [gDPVector] one cut into a block per player and, inside it, a block
    per information set; both are kept as nested lists.  An access
    outside the storage is the failure [BadAccess]. *)
Definition at1 {A : Type} (l : list A) (i : nat) : option A :=
  match i with
  | O => None
  | S i' => l !! i'
  end.

Definition set1 {A : Type} (l : list A) (i : nat) (x : A) : option (list A) :=
  match at1 l i with
  | Some _ => Some (<[pred i := x]> l)
  | None => None
  end.

Abbreviation gPVector T := (list (list T)) (only parsing).
Abbreviation gDPVector T := (list (list (list T))) (only parsing).

Definition pv_at {T : Type} (v : gPVector T) (i j : nat) : option T :=
  match at1 v i with
  | Some row => at1 row j
  | None => None
  end.

Definition dp_at {T : Type} (v : gDPVector T) (i j k : nat) : option T :=
  match pv_at v i j with
  | Some acts => at1 acts k
  | None => None
  end.

(** [v(i, j, k)] read. *)
Definition dp_get {T : Type} (v : gDPVector T) (i j k : nat) : outcome T :=
  or_raise BadAccess (dp_at v i j k).

(** [v(i, j, k) = x]. *)
Definition dp_set {T : Type} (v : gDPVector T) (i j k : nat) (x : T)
    : outcome (gDPVector T) :=
  or_raise BadAccess
    (match at1 v i with
     | Some pl =>
         match at1 pl j with
         | Some acts =>
             match set1 acts k x with
             | Some acts' => Some (<[pred i := <[pred j := acts']> pl]> v)
             | None => None
             end
         | None => None
         end
     | None => None
     end).

Definition dp_shape {T : Type} (v : gDPVector T) : list (list nat) :=
  map (map length) v.

(** The elements in storage order: player by player, infoset by infoset. *)
Definition dp_flatten {T : Type} (v : gDPVector T) : list T :=
  concat (concat v).

(** [Length()] and [Lengths()] of the underlying [gPVector]: the number of
    elements and the sizes of the per-infoset blocks. *)
Definition dp_Length {T : Type} (v : gDPVector T) : nat := length (dp_flatten v).
Definition dp_Lengths {T : Type} (v : gDPVector T) : list nat := concat (dp_shape v).

Fixpoint refill_rows {T : Type} (rows : list (list T)) (flat : list T)
    : list (list T) :=
  match rows with
  | [] => []
  | r :: rows' => take (length r) flat :: refill_rows rows' (drop (length r) flat)
  end.

Fixpoint refill {T : Type} (v : gDPVector T) (flat : list T) : gDPVector T :=
  match v with
  | [] => []
  | pl :: v' =>
      refill_rows pl (take (length (concat pl)) flat)
        :: refill v' (drop (length (concat pl)) flat)
  end.

(** [gVector::operator=]: element-wise copy into the same storage; the two
    vectors must have the same length. *)
Definition dp_assign {T : Type} (v : gDPVector T) (flat : list T)
    : outcome (gDPVector T) :=
  if decide (length flat = dp_Length v) then Ok (refill v flat)
  else Raise gbtDimensionException.

(** A vector of the given dimensions holding [f i j k] at [(i, j, k)]. *)
Definition dp_tabulate {T : Type} (shape : list (list nat))
    (f : nat -> nat -> nat -> T) : gDPVector T :=
  imap (fun i row =>
    imap (fun j n => map (fun k => f (S i) (S j) k) (seq 1%nat n)) row) shape.

(** ** The game, as far as [eliap.cc] queries it *)

(** Modelled from the spec: the game classes [Efg], [EFPlayer], [Infoset]
    and [Node], whose declarations are not among the sources: "players,
    each with an ordered list of information sets; each information set
    has an ordered list of actions", the member nodes of an infoset, the
    root of the subgame a node lies in, and the list of marked subgame
    roots that [MarkedSubgameRoots] fills.  A [Node *] is compared by
    identity and is a number here. *)
Definition NodePtr : Type := nat.

Record Infoset : Type := mkInfoset {
  NumActions : nat;
  Members : list NodePtr
}.

Record EFPlayer : Type := mkPlayer {
  InfosetList : list Infoset
}.

Record Efg : Type := mkEfg {
  PlayerList : list EFPlayer;
  GetSubgameRoot : NodePtr -> NodePtr;
  MarkedSubgameRoots : list NodePtr
}.

Definition NumPlayers (E : Efg) : nat := length (PlayerList E).
Definition NumInfosets (pl : EFPlayer) : nat := length (InfosetList pl).

(** [Dimensionality()]: the number of actions of every infoset of every
    player; [PureDimensionality()]: the number of infosets of every player. *)
Definition Dimensionality (E : Efg) : list (list nat) :=
  map (fun pl => map NumActions (InfosetList pl)) (PlayerList E).
Definition PureDimensionality (E : Efg) : list nat :=
  map NumInfosets (PlayerList E).

(** [GetMember(i)] of an infoset. *)
Definition GetMember (s : Infoset) (i : nat) : outcome NodePtr :=
  or_raise BadAccess (at1 (Members s) i).

(** Modelled from the spec: the class [BehavProfile<double>], declared
    outside the sources: "a mutable vector of action probabilities
    indexed by (player, infoset, action), with a notion of belongs-to
    game and a support structure restricting which actions are active".
    Of the support only the number of active actions of every infoset is
    used. *)
Record BehavProfile : Type := mkProfile {
  BelongsTo : Efg;
  GetEFSupport : list (list nat);
  pvals : gDPVector Q
}.

Definition with_pvals (p : BehavProfile) (v : gDPVector Q) : BehavProfile :=
  mkProfile (BelongsTo p) (GetEFSupport p) v.

(** [GetEFSupport().NumActions(pl, iset)] *)
Definition SupportNumActions (p : BehavProfile) (pl iset : nat) : outcome nat :=
  or_raise BadAccess (pv_at (GetEFSupport p) pl iset).

Local Open Scope Q_scope.

Definition Qltb (x y : Q) : bool := negb (Qle_bool y x).

Definition BIG1 : Q := 10000.
Definition BIG2 : Q := 100.

Record EFLiapFunc : Type := mkFunc {
  _nevals : Z;
  _efg : Efg;
  _p : BehavProfile;
  _cpay : gDPVector Q
}.

(** [EFLiapFunc::EFLiapFunc(E, start)] *)
Definition new_EFLiapFunc (E : Efg) (start : BehavProfile) : EFLiapFunc :=
  mkFunc 0%Z E start (dp_tabulate (Dimensionality E) (fun _ _ _ => 0)).

Definition NumEvals (F : EFLiapFunc) : Z := _nevals F.

(** ** Parameters, solutions and the minimizer *)

Record EFLiapParams : Type := mkParams {
  trace : Z;
  nTries : Z;
  stopAfter : Z;
  maxits1 : Z;
  maxitsN : Z;
  tol1 : Q;
  tolN : Q
}.

(** [EFLiapParams::EFLiapParams(gStatus &)] *)
Definition default_params : EFLiapParams :=
  mkParams 0%Z 10%Z 1%Z 100%Z 20%Z (2 / 10000000000) (1 / 10000000000).

(** Modelled from the spec: the class [BehavSolution<double>], declared
    outside the sources: "an immutable snapshot (profile + scalar
    Liapunov value + originating-method tag)". *)
Inductive EfgAlgType : Type := EfgAlg_USER | EfgAlg_LIAP.

Record BehavSolution : Type := mkSolution {
  sol_profile : BehavProfile;
  sol_creator : EfgAlgType;
  sol_liap : option Q
}.

Definition SetLiap (s : BehavSolution) (value : Q) : BehavSolution :=
  mkSolution (sol_profile s) (sol_creator s) (Some value).

(** [AddSolution]: append a solution made of the profile, then set its
    Liapunov value. *)
Definition AddSolution (solutions : list BehavSolution) (profile : BehavProfile)
    (value : Q) : list BehavSolution :=
  solutions ++ [SetLiap (mkSolution profile EfgAlg_LIAP None) value].

(** Modelled from the spec: the minimizer [Powell], declared [extern]:
    "a general-purpose derivative-free multivariate minimizer [...];
    returns success/failure plus refined point and achieved function
    value".  All the driver relies on is that a run of it asks for values
    of the objective at points of its choice and then returns: whether it
    converged, the point and the value it reached, its iteration count,
    and the state in which it leaves the cancellation flag it was given
    (the flag is shared with whoever interrupts the search). *)
Inductive minimizer : Type :=
| Finished (found : bool) (p : list Q) (fret : Q) (iter : Z) (interrupted : bool)
| Evaluate (v : list Q) (k : Q -> minimizer).

Section Solver.

(** The library operations this module calls, as parameters: the random
    source [Uniform] over the states of a generator, the conditional
    payoffs [CondPayoff] of a profile, the projection [Project] of a
    direction, the minimizer [Powell] (given the point, the directions,
    the parameters and the flag), and the constructor of the profile of a
    game. *)
Context {rng : Type}.
Variable Uniform : rng -> Q * rng.
Variable CondPayoff : BehavProfile -> nat -> nat -> nat -> Q.
Variable Project : list Q -> list nat -> list Q.
Variable Powell : list Q -> list (list Q) -> EFLiapParams -> bool -> minimizer.
Variable new_BehavProfile : Efg -> BehavProfile.

(** ** [EFLiapFunc::Value] *)
Definition Value (F : EFLiapFunc) (v : list Q) : outcome (EFLiapFunc * Q) :=
  let nevals := (_nevals F + 1)%Z in
  vals ← dp_assign (pvals (_p F)) v;
  let p := with_pvals (_p F) vals in
  let tmp := p in
  let cpay := dp_tabulate (Dimensionality (_efg F)) (CondPayoff tmp) in
  result ← for_upto (NumPlayers (_efg F)) (fun i result =>
    player ← or_raise BadAccess (at1 (PlayerList (_efg F)) i);
    for_upto (NumInfosets player) (fun j result =>
      s ← or_raise BadAccess (at1 (InfosetList player) j);
      '(result, avg, sum) ← for_upto (NumActions s) (fun k '(result, avg, sum) =>
        x ← dp_get (pvals p) i j k;
        c ← dp_get cpay i j k;
        let avg := avg + x * c in
        let sum := sum + x in
        let x := if Qltb 0 x then 0 else x in
        Ok (result + BIG1 * x * x, avg, sum)) (result, 0, 0);
      result ← for_upto (NumActions s) (fun k result =>
        c ← dp_get cpay i j k;
        let x := c - avg in
        let x := if Qltb x 0 then 0 else x in
        Ok (result + x * x)) result;
      let x := sum - 1 in
      Ok (result + BIG2 * x * x)) result) 0;
  Ok (mkFunc nevals (_efg F) p cpay, result).

(** ** [PickRandomProfile]

    [do tmp = Uniform(); while (tmp + sum > 1.0);]  The loop is left at
    the first draw that fits; [fuel] bounds the number of draws. *)
Fixpoint draw (fuel : nat) (sum : Q) (g : rng) : outcome (Q * rng) :=
  match fuel with
  | O => OutOfFuel
  | S fuel' =>
      let '(tmp, g') := Uniform g in
      if Qltb 1 (tmp + sum) then draw fuel' sum g' else Ok (tmp, g')
  end.

(** The loop over [act] stops at [NumActions(pl, iset)], or at 1 when that
    is 0, and this is the position the residual is written to. *)
Definition PickRandomProfile (fuel : nat) (p : BehavProfile) (g : rng)
    : outcome (BehavProfile * rng) :=
  for_upto (NumPlayers (BelongsTo p)) (fun pl '(p, g) =>
    player ← or_raise BadAccess (at1 (PlayerList (BelongsTo p)) pl);
    for_upto (NumInfosets player) (fun iset '(p, g) =>
      n ← SupportNumActions p pl iset;
      '(p, g, sum) ← for_upto (n - 1) (fun act '(p, g, sum) =>
        '(tmp, g) ← draw fuel sum g;
        vals ← dp_set (pvals p) pl iset act tmp;
        Ok (with_pvals p vals, g, sum + tmp)) (p, g, 0);
      let act := Nat.max 1 n in
      vals ← dp_set (pvals p) pl iset act (1 - sum);
      Ok (with_pvals p vals, g)) (p, g)) (p, g).

(** ** [InitMatrix]

    [xi.MakeIdent()], then every row is read, projected and written
    back. *)
Definition MakeIdent (n : nat) : list (list Q) :=
  map (fun i => map (fun j => if Nat.eqb i j then 1 else 0) (seq 1%nat n))
      (seq 1%nat n).

Definition InitMatrix (n : nat) (dim : list nat) : list (list Q) :=
  map (fun foo => Project foo dim) (MakeIdent n).

(** ** [Liap] *)

Record powell_result : Type := mkPowell {
  pw_found : bool;
  pw_point : list Q;
  pw_value : Q;
  pw_iter : Z;
  pw_status : bool
}.

(** A run of the minimizer against the objective [F].  Next to the state
    of [F] and the results, the run reports the points at which it called
    [Value], in order; this record is not program state. *)
Fixpoint run_minimizer (F : EFLiapFunc) (m : minimizer)
    : outcome (EFLiapFunc * list (list Q) * powell_result) :=
  match m with
  | Finished found p fret iter interrupted =>
      Ok (F, [], mkPowell found p fret iter interrupted)
  | Evaluate v k =>
      '(F, r) ← Value F v;
      '(F, evals, res) ← run_minimizer F (k r);
      Ok (F, v :: evals, res)
  end.

(** What happened in one pass of the restart loop (not program state). *)
Record attempt : Type := mkAttempt {
  at_index : Z;
  at_evals : list (list Q);
  at_found : bool;
  at_interrupted : bool
}.

(** Modelled from the spec: the status handle [gStatus], declared outside
    the sources, is "a cancellation/status handle" with a flag that
    [Get()] reads and [Reset()] clears; it is the boolean [st_status].
    The other fields are the variables [p], [F] and [solutions] of
    [Liap], the state of the generator, and the log of the attempts made
    so far. *)
Record liap_state : Type := mkState {
  st_p : BehavProfile;
  st_F : EFLiapFunc;
  st_solutions : list BehavSolution;
  st_status : bool;
  st_gen : rng;
  st_log : list attempt
}.

(** The condition of the [for] statement. *)
Definition continues (params : EFLiapParams) (i : Z) (st : liap_state) : bool :=
  negb (st_status st) && (i <=? nTries params)%Z &&
  ((stopAfter params =? 0)%Z ||
   (Z.of_nat (length (st_solutions st)) <? stopAfter params)%Z).

(** The restart loop; [fuel] bounds the number of passes and [draws] the
    number of draws of each rejection loop of the sampler. *)
Fixpoint Liap_loop (fuel draws : nat) (params : EFLiapParams) (i : Z)
    (st : liap_state) : outcome liap_state :=
  if continues params i st then
    match fuel with
    | O => OutOfFuel
    | S fuel' =>
        '(p, g) ← (if (1 <? i)%Z
                   then PickRandomProfile draws (st_p st) (st_gen st)
                   else Ok (st_p st, st_gen st));
        let xi := InitMatrix (dp_Length (pvals p)) (dp_Lengths (pvals p)) in
        '(F, evals, res) ←
          run_minimizer (st_F st)
            (Powell (dp_flatten (pvals p)) xi params (st_status st));
        vals ← dp_assign (pvals p) (pw_point res);
        let p := with_pvals p vals in
        let solutions :=
          if pw_found res then AddSolution (st_solutions st) p (pw_value res)
          else st_solutions st in
        let status := if pw_status res then false else pw_status res in
        Liap_loop fuel' draws params (i + 1)%Z
          (mkState p F solutions status g
             (st_log st ++ [mkAttempt i evals (pw_found res) (pw_status res)]))
    end
  else Ok st.

Record liap_result : Type := mkResult {
  ret : bool;
  out_solutions : list BehavSolution;
  out_nevals : Z;
  out_niters : Z;
  out_status : bool;
  out_gen : rng;
  out_log : list attempt
}.

(** [Liap(E, params, start, solutions, nevals, niters)].  The result has
    the returned [bool], what the call leaves in its reference arguments
    [solutions], [nevals] and [niters] and in the flag of
    [params.status], the state of the generator and the log. *)
Definition Liap (fuel : nat) (E : Efg) (params : EFLiapParams)
    (start : BehavProfile) (solutions : list BehavSolution)
    (status : bool) (g : rng) : outcome liap_result :=
  let F := new_EFLiapFunc E start in
  let p := start in
  st ← Liap_loop fuel fuel params 1%Z (mkState p F solutions status g []);
  let nevals := NumEvals (st_F st) in
  let niters := 0%Z in
  Ok (mkResult (0 <? length (st_solutions st))%nat (st_solutions st)
        nevals niters (st_status st) (st_gen st) (st_log st)).

(** ** Interfacing to the solve-by-subgame code *)

Record EFLiapBySubgame : Type := mkBySubgame {
  nevals : Z;
  subgame_number : nat;
  infoset_subgames : gPVector nat;
  params : EFLiapParams;
  start : BehavProfile
}.

(** The copy loop of [SolveSubgame], run with [subgame_number] already
    incremented. *)
Definition copy_start (slv : EFLiapBySubgame) (E : Efg) (bp : BehavProfile)
    : outcome BehavProfile :=
  let infosets := map length (infoset_subgames slv) in
  for_upto (NumPlayers E) (fun pl bp =>
    n ← or_raise BadAccess (at1 infosets pl);
    '(bp, niset) ← for_upto n (fun iset '(bp, niset) =>
      sg ← or_raise BadAccess (pv_at (infoset_subgames slv) pl iset);
      if Nat.eqb sg (subgame_number slv) then
        na ← SupportNumActions bp pl niset;
        bp ← for_upto na (fun act bp =>
          x ← dp_get (pvals (start slv)) pl iset act;
          vals ← dp_set (pvals bp) pl niset act x;
          Ok (with_pvals bp vals)) bp;
        Ok (bp, S niset)
      else Ok (bp, niset)) (bp, 1%nat);
    Ok bp) bp.

Definition bump (slv : EFLiapBySubgame) : EFLiapBySubgame :=
  mkBySubgame (nevals slv) (S (subgame_number slv)) (infoset_subgames slv)
    (params slv) (start slv).

Definition add_nevals (slv : EFLiapBySubgame) (n : Z) : EFLiapBySubgame :=
  mkBySubgame (nevals slv + n)%Z (subgame_number slv) (infoset_subgames slv)
    (params slv) (start slv).

(** [EFLiapBySubgame::SolveSubgame]: returns the solver, the [int] it
    returns, and what [Liap] left in the solution list and in the shared
    state. *)
Definition SolveSubgame (fuel : nat) (slv : EFLiapBySubgame) (E : Efg)
    (solns : list BehavSolution) (status : bool) (g : rng)
    : outcome (EFLiapBySubgame * Z * liap_result) :=
  let bp := new_BehavProfile E in
  let slv := bump slv in
  bp ← copy_start slv E bp;
  r ← Liap fuel E (params slv) bp solns status g;
  let this_nevals := out_nevals r in
  Ok (add_nevals slv this_nevals, Z.b2z (out_status r), r).

End Solver.

(** [for (index = 1; index <= subroots.Length() && root != subroots[index];
    index++);] started at [index] on the roots from that position on. *)
Fixpoint scan_roots (root : NodePtr) (subroots : list NodePtr) (index : nat) : nat :=
  match subroots with
  | [] => index
  | r :: rest => if Nat.eqb root r then index else scan_roots root rest (S index)
  end.

Definition pv_set {T : Type} (v : gPVector T) (i j : nat) (x : T)
    : outcome (gPVector T) :=
  or_raise BadAccess
    (match at1 v i with
     | Some row =>
         match set1 row j x with
         | Some row' => Some (<[pred i := row']> v)
         | None => None
         end
     | None => None
     end).

(** [EFLiapBySubgame::EFLiapBySubgame(E, p, s, max)].  [max] goes to the
    base class [SubgameSolver] and is not used here. *)
Definition new_EFLiapBySubgame (E : Efg) (p : EFLiapParams) (s : BehavProfile)
    (max : Z) : outcome EFLiapBySubgame :=
  let subroots := MarkedSubgameRoots E in
  isg ← for_upto (NumPlayers E) (fun pl isg =>
    player ← or_raise BadAccess (at1 (PlayerList E) pl);
    for_upto (NumInfosets player) (fun iset isg =>
      infoset ← or_raise BadAccess (at1 (InfosetList player) iset);
      member ← GetMember infoset 1;
      let index := scan_roots (GetSubgameRoot E member) subroots 1 in
      if (index <=? length subroots)%nat then pv_set isg pl iset index
      else Raise AssertionFailure) isg)
    (map (fun n => replicate n 0%nat) (PureDimensionality E));
  Ok (mkBySubgame 0 0 isg p s).

(** ** The objective and the sampled profiles, as specified

    Sums over [k = 1 .. n], the three penalty terms of an infoset with
    [n] actions, and their sum over the infosets of every player. *)

Definition Qsum (l : list Q) : Q := foldr Qplus 0 l.

Definition sum_upto (n : nat) (f : nat -> Q) : Q := Qsum (map f (seq 1%nat n)).

Definition negative_penalty (x : Q) : Q :=
  if Qltb x 0 then 10000 * (x * x) else 0.

Definition average (n : nat) (prob cp : nat -> Q) : Q :=
  sum_upto n (fun k => prob k * cp k).

Definition excess (c avg : Q) : Q := Qmax 0 (c - avg).

Definition infoset_penalty (n : nat) (prob cp : nat -> Q) : Q :=
  sum_upto n (fun k => negative_penalty (prob k))
  + sum_upto n (fun k => excess (cp k) (average n prob cp)
                         * excess (cp k) (average n prob cp))
  + 100 * ((sum_upto n prob - 1) * (sum_upto n prob - 1)).

Definition entry (v : gDPVector Q) (i j k : nat) : Q :=
  default 0 (dp_at v i j k).

Definition infosets_of (E : Efg) (i : nat) : nat :=
  default 0%nat (NumInfosets <$> at1 (PlayerList E) i).

Definition actions_of (E : Efg) (i j : nat) : nat :=
  default 0%nat (pv_at (Dimensionality E) i j).

Definition Liapunov (E : Efg) (prob cp : nat -> nat -> nat -> Q) : Q :=
  sum_upto (NumPlayers E) (fun i =>
    sum_upto (infosets_of E i) (fun j =>
      infoset_penalty (actions_of E i j) (prob i j) (cp i j))).


(** The profile [F] works on has the dimensions of the game. *)
Definition for_game (E : Efg) (p : BehavProfile) : Prop :=
  dp_shape (pvals p) = Dimensionality E.

(** What [PickRandomProfile] needs of the profile it is given: the storage
    has a block for every infoset of every player of the game, a block has
    as many elements as the support has actions there, and there is at
    least one action. *)
Definition sampler_ready (p : BehavProfile) : Prop :=
  map length (pvals p) = PureDimensionality (BelongsTo p) /\
  GetEFSupport p = dp_shape (pvals p) /\
  (forall i j n, pv_at (GetEFSupport p) i j = Some n -> (1 <= n)%nat).

(** The game, the support and the dimensions of a profile are those of
    another. *)
Definition keeps (p p' : BehavProfile) : Prop :=
  BelongsTo p' = BelongsTo p /\
  GetEFSupport p' = GetEFSupport p /\
  dp_shape (pvals p') = dp_shape (pvals p).

Section Sampling.

Context {rng : Type}.
Variable Uniform : rng -> Q * rng.

(** What a draw of the rejection loop is: a value of the generator, not
    negative, that fits under 1 with the partial sum. *)
Definition fitting (sum : Q) (r : Q * rng) : Prop :=
  0 <= fst r /\ fst r + sum <= 1 /\ exists g, fst r = fst (Uniform g).

(** The generator after [m] draws. *)
Fixpoint nth_state (m : nat) (g : rng) : rng :=
  match m with
  | O => g
  | S m' => nth_state m' (snd (Uniform g))
  end.

(** The draws lie in [0, 1). *)
Definition in_unit_interval : Prop :=
  forall g, 0 <= fst (Uniform g) /\ fst (Uniform g) < 1.

(** The rejection loop accepts within [B] draws: whatever the state of
    the generator and the partial sum in [0, 1], one of the next [B]
    draws fits under 1 with it. *)
Definition accepts_within (B : nat) : Prop :=
  forall g sum, 0 <= sum -> sum <= 1 ->
    exists m, (m < B)%nat /\ fst (Uniform (nth_state m g)) + sum <= 1.

(** The probabilities of an infoset after sampling: draws of the
    generator, then the residual; all in [0, 1], summing to 1. *)
Definition sampled_row (row : list Q) : Prop :=
  exists others last,
    row = others ++ [last] /\
    (forall x, x ∈ others -> exists g, x = fst (Uniform g)) /\
    last == 1 - Qsum others /\
    (forall x, x ∈ row -> 0 <= x /\ x <= 1) /\
    Qsum row == 1.

End Sampling.

(** ** The driver, as specified *)

(** A run of the minimizer that calls the objective on, and returns, points
    of [n] coordinates only. *)
Inductive respects_dim (n : nat) : minimizer -> Prop :=
| respects_Finished found p fret iter interrupted :
    length p = n -> respects_dim n (Finished found p fret iter interrupted)
| respects_Evaluate v k :
    length v = n -> (forall r, respects_dim n (k r)) ->
    respects_dim n (Evaluate v k).

(** The number of successful attempts and of objective evaluations in a
    sequence of attempts. *)
Fixpoint successes (log : list attempt) : nat :=
  match log with
  | [] => 0%nat
  | a :: log' => ((if at_found a then 1 else 0) + successes log')%nat
  end.

Definition evaluations (log : list attempt) : nat :=
  length (concat (map at_evals log)).

(** A profile of the game [E], on the full support, with at least one
    action at every infoset. *)
Definition profile_of (E : Efg) (p : BehavProfile) : Prop :=
  BelongsTo p = E /\ for_game E p /\ sampler_ready p.

(** How the state [st'] in which the restart loop ends relates to the
    state [st] in which it was entered with loop counter [i]. *)
Definition extends {rng : Type} (params : EFLiapParams)
    (st : liap_state (rng := rng)) (i : Z) (st' : liap_state (rng := rng)) : Prop :=
  exists new,
    st_log st' = st_log st ++ new /\
    map at_index new = seqZ i (Z.of_nat (length new)) /\
    (Z.of_nat (length new) <= Z.max 0 (nTries params - i + 1))%Z /\
    _nevals (st_F st') = (_nevals (st_F st) + Z.of_nat (evaluations new))%Z /\
    (exists added, st_solutions st' = st_solutions st ++ added /\
                   length added = successes new) /\
    continues params (i + Z.of_nat (length new))%Z st' = false /\
    (new = [] -> st' = st) /\
    (new <> [] -> st_status st' = false) /\
    (st_status st = true -> new = []) /\
    (forall l1 a l2, new = l1 ++ a :: l2 ->
       stopAfter params = 0%Z \/
       (Z.of_nat (length (st_solutions st) + successes l1) < stopAfter params)%Z).

(** The setting in which a search is run: a generator with draws in
    [0, 1), a minimizer that keeps to the dimension of the profile, and a
    starting profile of the game. *)
Definition search_setting {rng : Type} (Uniform : rng -> Q * rng)
    (Powell : list Q -> list (list Q) -> EFLiapParams -> bool -> minimizer)
    (E : Efg) (start : BehavProfile) : Prop :=
  in_unit_interval Uniform /\
  (forall p xi params status, respects_dim (length p) (Powell p xi params status)) /\
  profile_of E start.

(** Fuel that lets a search run to its end: the rejection loops accept
    within [B] draws, and the fuel covers [B] draws and [nTries] passes. *)
Definition enough_fuel {rng : Type} (Uniform : rng -> Q * rng)
    (B fuel : nat) (params : EFLiapParams) : Prop :=
  accepts_within Uniform B /\
  (B <= fuel)%nat /\
  (Z.to_nat (nTries params) <= fuel)%nat.

(** What the result [r] of [Liap] says about the run, for a call on the
    list [solutions] with the flag at [status] and the generator at [g]. *)
Definition run_report {rng : Type} (params : EFLiapParams)
    (solutions : list BehavSolution) (status : bool) (g : rng)
    (r : liap_result (rng := rng)) : Prop :=
  map at_index (out_log r) = seqZ 1 (Z.of_nat (length (out_log r))) /\
  (length (out_log r) <= Z.to_nat (nTries params))%nat /\
  out_nevals r = Z.of_nat (evaluations (out_log r)) /\
  out_niters r = 0%Z /\
  (exists added, out_solutions r = solutions ++ added /\
                 length added = successes (out_log r)) /\
  ret r = (0 <? length (out_solutions r))%nat /\
  (out_log r = [] -> out_status r = status /\ out_gen r = g) /\
  (out_log r <> [] -> out_status r = false) /\
  (status = true -> out_log r = []) /\
  (status = false ->
     length (out_log r) = Z.to_nat (nTries params) \/
     (stopAfter params <> 0%Z /\
      (stopAfter params <= Z.of_nat (length (out_solutions r)))%Z)) /\
  (forall l1 a l2, out_log r = l1 ++ a :: l2 ->
     stopAfter params = 0%Z \/
     (Z.of_nat (length solutions + successes l1) < stopAfter params)%Z).

(** ** The subgame wrapper, as specified *)

(** The subgame root of the first member of infoset [iset] of player
    [pl]. *)
Definition first_member_root (E : Efg) (pl iset : nat) : option NodePtr :=
  player ← at1 (PlayerList E) pl;
  infoset ← at1 (InfosetList player) iset;
  member ← at1 (Members infoset) 1;
  Some (GetSubgameRoot E member).

(** [index] is the position, counted from 1, of the first occurrence of
    [root] in [subroots]. *)
Definition first_index (root : NodePtr) (subroots : list NodePtr) (index : nat) : Prop :=
  (1 <= index)%nat /\
  subroots !! (index - 1)%nat = Some root /\
  forall j, (j < index - 1)%nat -> subroots !! j <> Some root.

(** Every infoset's first member lies under a marked root. *)
Definition rooted (E : Efg) : Prop :=
  forall pl iset root, first_member_root E pl iset = Some root ->
    root ∈ MarkedSubgameRoots E.

Definition has_members (E : Efg) : Prop :=
  forall pl iset player infoset,
    at1 (PlayerList E) pl = Some player ->
    at1 (InfosetList player) iset = Some infoset ->
    Members infoset <> [].

(** The infosets of player [pl] that the table maps to the current
    subgame number, in order of appearance; the one at position [m] of
    this list is matched with the local infoset [m]. *)
Definition matched (slv : EFLiapBySubgame) (pl : nat) : list nat :=
  filter (fun iset => pv_at (infoset_subgames slv) pl iset = Some (subgame_number slv))
         (seq 1%nat (default 0%nat (length <$> at1 (infoset_subgames slv) pl))).

(** What the copy needs: the table has a row for every player of the
    subgame, the new profile is dimensioned by its support, it has a
    local infoset for every matched infoset, and the starting profile
    has a probability for each of its actions. *)
Definition subgame_fits (slv : EFLiapBySubgame) (E : Efg) (bp : BehavProfile) : Prop :=
  (NumPlayers E <= length (infoset_subgames slv))%nat /\
  GetEFSupport bp = dp_shape (pvals bp) /\
  forall pl m iset, (1 <= pl <= NumPlayers E)%nat ->
    at1 (matched slv pl) m = Some iset ->
    exists na, pv_at (GetEFSupport bp) pl m = Some na /\
      forall act, (1 <= act <= na)%nat ->
        is_Some (dp_at (pvals (start slv)) pl iset act).

(** The profile [bp'] is [bp] with the probabilities of the matched
    infosets copied from the starting profile. *)
Definition copied (slv : EFLiapBySubgame) (E : Efg) (bp bp' : BehavProfile) : Prop :=
  keeps bp bp' /\
  (forall pl m iset na act, (1 <= pl <= NumPlayers E)%nat ->
     at1 (matched slv pl) m = Some iset ->
     pv_at (GetEFSupport bp) pl m = Some na -> (1 <= act <= na)%nat ->
     dp_at (pvals bp') pl m act = dp_at (pvals (start slv)) pl iset act) /\
  (forall pl m, ~ ((1 <= pl <= NumPlayers E)%nat /\
                   (1 <= m <= length (matched slv pl))%nat) ->
     pv_at (pvals bp') pl m = pv_at (pvals bp) pl m).

(** ** A small instance

    One player with one infoset of two actions whose conditional payoffs
    are 1 and 3 whatever the profile; draws that cycle through 0, 1/4,
    1/2, 3/4; and a minimizer that evaluates the objective at the point it
    is given and reports success when the value there is not positive. *)

Definition one_infoset_game : Efg :=
  mkEfg [mkPlayer [mkInfoset 2 [7%nat]]] (fun _ => 0%nat) [0%nat].

Definition payoff_1_3 (p : BehavProfile) (i j k : nat) : Q :=
  if Nat.eqb k 1 then 1 else 3.

Definition cycle_Uniform (n : nat) : Q * nat :=
  (inject_Z (Z.of_nat (n mod 4)) / 4, S n).

Definition no_Project (foo : list Q) (dim : list nat) : list Q := foo.

Definition probe_Powell (p : list Q) (xi : list (list Q)) (params : EFLiapParams)
    (status : bool) : minimizer :=
  Evaluate p (fun r => Finished (Qle_bool r 0) p r 1%Z status).

(** A minimizer that is interrupted on every run and never converges. *)
Definition rude_Powell (p : list Q) (xi : list (list Q)) (params : EFLiapParams)
    (status : bool) : minimizer :=
  Evaluate p (fun r => Finished false p r 1%Z true).

Definition full_profile (E : Efg) (x : Q) : BehavProfile :=
  mkProfile E (Dimensionality E) (dp_tabulate (Dimensionality E) (fun _ _ _ => x)).

Definition zero_profile (E : Efg) : BehavProfile := full_profile E 0.

Definition half_half : BehavProfile := full_profile one_infoset_game (1 # 2).

(** A game of two marked subgames: player 1 moves at infoset [A] (node 10,
    in the subgame rooted at node 1) and at infoset [B] (node 20, in the
    subgame rooted at node 2); the roots are listed as 2, 1.  [game_B] is
    the subgame rooted at node 2 on its own. *)
Definition root_of (n : NodePtr) : NodePtr :=
  if Nat.eqb n 20 then 2%nat else 1%nat.

Definition game_AB : Efg :=
  mkEfg [mkPlayer [mkInfoset 2 [10%nat]; mkInfoset 2 [20%nat]]] root_of [2%nat; 1%nat].

Definition game_B : Efg :=
  mkEfg [mkPlayer [mkInfoset 2 [20%nat]]] root_of [2%nat].

(** The same tree with the root 2 left out of the marked roots. *)
Definition game_AB_unmarked : Efg :=
  mkEfg [mkPlayer [mkInfoset 2 [10%nat]; mkInfoset 2 [20%nat]]] root_of [1%nat].

Definition start_AB : BehavProfile :=
  mkProfile game_AB [[2%nat; 2%nat]] [[[1 # 4; 3 # 4]; [0; 1]]].

Definition solver_AB : EFLiapBySubgame :=
  mkBySubgame 0 0 [[2%nat; 1%nat]] default_params start_AB.

(** What a test of [Liap] looks at in its result. *)
Definition summary {rng : Type} (r : liap_result (rng := rng))
    : bool * nat * Z * Z * bool * list bool * list bool :=
  (ret r, length (out_solutions r), out_nevals r, out_niters r, out_status r,
   map at_found (out_log r), map at_interrupted (out_log r)).

(** What a call of [Value] leaves behind, the counter apart: the game,
    the profile and the conditional payoffs held by the function, and
    the value returned. *)
Definition observed (x : EFLiapFunc * Q) : Efg * BehavProfile * gDPVector Q * Q :=
  (_efg (fst x), _p (fst x), _cpay (fst x), snd x).

End EFLiap.

(** * Complex numbers ([tools/enumpoly/complex.cc]) *)

Module Complex.

Local Open Scope Q_scope.

(** [class gComplex]: the two [double] members [re] and [im]. *)
Record gComplex : Type := mkComplex {
  re : Q;
  im : Q
}.

(** [gComplex()], [gComplex(const int &)] and [gComplex(const long &)]. *)
Definition zero : gComplex := mkComplex 0 0.
Definition of_int (n : Z) : gComplex := mkComplex (inject_Z n) 0.

Definition RealPart (x : gComplex) : Q := re x.
Definition ImaginaryPart (x : gComplex) : Q := im x.

(** [operator ==] and [operator !=]. *)
Definition eqb (x y : gComplex) : bool :=
  if Qeq_bool (re x) (re y) && Qeq_bool (im x) (im y) then true else false.

Definition neqb (x y : gComplex) : bool := negb (eqb x y).



Definition mul (x y : gComplex) : gComplex :=
  mkComplex (re x * re y - im x * im y) (re x * im y + im x * re y).


(** [void error(const char* msg) const]: [assert(0)]. *)
Definition error {A : Type} : outcome A := Raise AssertionFailure.

(** [operator /] (and [/=], which assigns the same value):
<<
  if (y == (gComplex)0) error("Attempt to divide by 0.");
  return gComplex((re*y.re + im*y.im)/(y.re*y.re + y.im*y.im),
                  (- re*y.im + im*y.re)/(y.re*y.re + y.im*y.im));
>> *)
Definition div (x y : gComplex) : outcome gComplex :=
  if eqb y (of_int 0) then error
  else Ok (mkComplex ((re x * re y + im x * im y) / (re y * re y + im y * im y))
                     ((- re x * im y + im x * re y) / (re y * re y + im y * im y))).


(** [gComplex pow(const gComplex &x, const long y)]:
<<
  if (y < 0) {
    assert (x != (gComplex)0);
    gComplex x1((gComplex)1/x);
    return pow(x1,-y);
  }
  else if (y == 0)  return gComplex(1);
  else if (y == 1)  return x;
  else {
    gComplex sqrt_of_answer = pow(x,y/2);
    gComplex answer = sqrt_of_answer * sqrt_of_answer;
    if (y % 2 == 1) answer *= x;
    return answer;
  }
>>
    [fuel] bounds the depth of the recursion; [y/2] and [y % 2] truncate
    towards zero; the exponent is an integer of [Z], so that [-y] is the
    opposite of [y] for every [y]. *)
Fixpoint pow_fuel (fuel : nat) (x : gComplex) (y : Z) : outcome gComplex :=
  match fuel with
  | O => OutOfFuel
  | S fuel' =>
      if (y <? 0)%Z then
        if negb (neqb x (of_int 0)) then Raise AssertionFailure
        else
          x1 ← div (of_int 1) x;
          pow_fuel fuel' x1 (- y)%Z
      else if (y =? 0)%Z then Ok (of_int 1)
      else if (y =? 1)%Z then Ok x
      else
        sqrt_of_answer ← pow_fuel fuel' x (Z.quot y 2);
        let answer := mul sqrt_of_answer sqrt_of_answer in
        let answer := if (Z.rem y 2 =? 1)%Z then mul answer x else answer in
        Ok answer
  end.

(** The recursion halves [y], after one step for a negative [y]: its
    depth is at most the number of binary digits of [y], plus one. *)
Definition pow (x : gComplex) (y : Z) : outcome gComplex :=
  pow_fuel (S (S (Z.to_nat (Z.log2 (Z.abs y))))) x y.

(** ** What the operations are compared with *)

(** Equality of the two parts, as rationals. *)
Definition ceq (x y : gComplex) : Prop := re x == re y /\ im x == im y.



End Complex.

(** * Properties *)

(** ** Rules for calls and loops *)

Lemma returns_Ok {A : Type} (a : A) (P : A -> Prop) : P a -> returns (Ok a) P.
Proof. intros H. exists a. split; [reflexivity | exact H]. Qed.

Lemma returns_bind {A B : Type} (m : outcome A) (k : A -> outcome B)
    (P : A -> Prop) (R : B -> Prop) :
  returns m P -> (forall a, P a -> returns (k a) R) -> returns (m ≫= k) R.
Proof.
  intros (a & -> & Ha) Hk. destruct (Hk a Ha) as (b & Hb & HR).
  exists b. split; [exact Hb | exact HR].
Qed.

Lemma returns_weaken {A : Type} (m : outcome A) (P R : A -> Prop) :
  returns m P -> (forall a, P a -> R a) -> returns m R.
Proof. intros (a & Hm & Ha) H. exists a. split; [exact Hm | apply H, Ha]. Qed.

Lemma bind_Ok_inv {A B : Type} (m : outcome A) (k : A -> outcome B) (b : B) :
  m ≫= k = Ok b -> exists a, m = Ok a /\ k a = Ok b.
Proof. destruct m as [a| |]; simpl; intros H; try discriminate; eauto. Qed.

(** The invariant rule for a counted loop: the invariant speaks of the
    indices already handled and of the state. *)
Lemma for_seq_inv {I S : Type} (body : I -> S -> outcome S)
    (Inv : list I -> S -> Prop) (idx : list I) :
  (forall done i rest s, idx = done ++ i :: rest -> Inv done s ->
     returns (body i s) (Inv (done ++ [i]))) ->
  forall s, Inv [] s -> returns (for_seq idx body s) (Inv idx).
Proof.
  intros Hbody.
  assert (Hgen : forall rest done s, idx = done ++ rest -> Inv done s ->
            returns (for_seq rest body s) (Inv idx)).
  { induction rest as [|i rest IH]; intros done s Heq Hinv; simpl.
    - rewrite app_nil_r in Heq. subst done. apply returns_Ok, Hinv.
    - eapply returns_bind; [eapply Hbody; eassumption|].
      intros s' Hs'. apply (IH (done ++ [i])); [|exact Hs'].
      rewrite <- app_assoc. exact Heq. }
  intros s Hs. apply (Hgen idx [] s); [reflexivity | exact Hs].
Qed.

(** Rules for [guarded] and [ends]. *)

Lemma guarded_bind {A B : Type} (div : Prop) (exc : exception -> Prop)
    (m : outcome A) (k : A -> outcome B) (P : A -> Prop) (R : B -> Prop) :
  guarded div exc m P -> (forall a, P a -> guarded div exc (k a) R) ->
  guarded div exc (m ≫= k) R.
Proof.
  destruct m as [a|e|]; simpl; intros Hm Hk; [apply Hk, Hm | exact Hm | exact Hm].
Qed.

Lemma guarded_weaken {A : Type} (div : Prop) (exc : exception -> Prop)
    (m : outcome A) (P R : A -> Prop) :
  guarded div exc m P -> (forall a, P a -> R a) -> guarded div exc m R.
Proof.
  destruct m as [a|e|]; simpl; intros Hm H; [apply H, Hm | exact Hm | exact Hm].
Qed.

Lemma guarded_for_seq {I S : Type} (div : Prop) (exc : exception -> Prop)
    (body : I -> S -> outcome S) (Inv : list I -> S -> Prop) (idx : list I) :
  (forall done i rest s, idx = done ++ i :: rest -> Inv done s ->
     guarded div exc (body i s) (Inv (done ++ [i]))) ->
  forall s, Inv [] s -> guarded div exc (for_seq idx body s) (Inv idx).
Proof.
  intros Hbody.
  assert (Hgen : forall rest done s, idx = done ++ rest -> Inv done s ->
            guarded div exc (for_seq rest body s) (Inv idx)).
  { induction rest as [|i rest IH]; intros done s Heq Hinv; simpl.
    - rewrite app_nil_r in Heq. subst done. exact Hinv.
    - eapply guarded_bind; [eapply Hbody; eassumption|].
      intros s' Hs'. apply (IH (done ++ [i])); [|exact Hs'].
      rewrite <- app_assoc. exact Heq. }
  intros s Hs. apply (Hgen idx [] s); [reflexivity | exact Hs].
Qed.

Lemma ends_bind {A B : Type} (div : Prop) (m : outcome A) (k : A -> outcome B)
    (P : A -> Prop) (R : B -> Prop) :
  ends div m P -> (forall a, P a -> ends div (k a) R) -> ends div (m ≫= k) R.
Proof. apply guarded_bind. Qed.

Lemma ends_weaken {A : Type} (div : Prop) (m : outcome A) (P R : A -> Prop) :
  ends div m P -> (forall a, P a -> R a) -> ends div m R.
Proof. apply guarded_weaken. Qed.

Lemma ends_returns {A : Type} (m : outcome A) (P : A -> Prop) :
  ends False m P <-> returns m P.
Proof.
  unfold returns, ends. destruct m as [a|e|]; simpl.
  - split; [intros H; eauto | intros (a' & [= <-] & H); exact H].
  - split; [tauto | intros (a' & H & _); discriminate].
  - split; [tauto | intros (a' & H & _); discriminate].
Qed.

Lemma returns_ends {A : Type} (div : Prop) (m : outcome A) (P : A -> Prop) :
  returns m P -> ends div m P.
Proof. intros (a & -> & H). exact H. Qed.

Lemma ends_for_seq {I S : Type} (div : Prop) (body : I -> S -> outcome S)
    (Inv : list I -> S -> Prop) (idx : list I) :
  (forall done i rest s, idx = done ++ i :: rest -> Inv done s ->
     ends div (body i s) (Inv (done ++ [i]))) ->
  forall s, Inv [] s -> ends div (for_seq idx body s) (Inv idx).
Proof. apply guarded_for_seq. Qed.

(** Loops over a range of integers, with an invariant on the next index. *)

Lemma for_seq_count_inv {I S : Type} (f : nat -> I) (body : I -> S -> outcome S)
    (Inv : nat -> S -> Prop) (n : nat) :
  (forall m s, (m < n)%nat -> Inv m s -> returns (body (f m) s) (Inv (Datatypes.S m))) ->
  forall s, Inv 0%nat s -> returns (for_seq (map f (seq 0 n)) body s) (Inv n).
Proof.
  intros Hbody.
  assert (Hgen : forall k a s, (a + k = n)%nat -> Inv a s ->
            returns (for_seq (map f (seq a k)) body s) (Inv n)).
  { induction k as [|k IH]; intros a s Ha Hinv; simpl.
    - replace n with a by lia. apply returns_Ok, Hinv.
    - eapply returns_bind; [apply Hbody; [lia | exact Hinv]|].
      intros s' Hs'. apply IH; [lia | exact Hs']. }
  intros s Hs. apply (Hgen n 0%nat s); [lia | exact Hs].
Qed.

Lemma for_range_inv {S : Type} (body : Z -> S -> outcome S)
    (Inv : Z -> S -> Prop) (lo hi last : Z) :
  last = Z.max lo (hi + 1) ->
  (forall k s, (lo <= k <= hi)%Z -> Inv k s -> returns (body k s) (Inv (k + 1)%Z)) ->
  forall s, Inv lo s -> returns (for_range lo hi body s) (Inv last).
Proof.
  intros -> Hbody s Hs. unfold for_range, seqZ.
  eapply returns_weaken.
  - apply (for_seq_count_inv _ body (fun m s => Inv (lo + Z.of_nat m)%Z s)).
    + intros m s' Hm Hinv.
      replace (lo + Z.of_nat (Datatypes.S m))%Z with (Z.of_nat m + lo + 1)%Z by lia.
      apply Hbody; [lia|]. replace (Z.of_nat m + lo)%Z with (lo + Z.of_nat m)%Z by lia.
      exact Hinv.
    + replace (lo + Z.of_nat 0)%Z with lo by lia. exact Hs.
  - intros s' Hs'. simpl in Hs'.
    replace (Z.max lo (hi + 1)) with (lo + Z.of_nat (Z.to_nat (hi - lo + 1)))%Z by lia.
    exact Hs'.
Qed.

Lemma for_down_inv {S : Type} (body : Z -> S -> outcome S)
    (Inv : Z -> S -> Prop) (hi lo last : Z) :
  last = Z.min hi lo ->
  (forall k s, (lo < k <= hi)%Z -> Inv k s -> returns (body k s) (Inv (k - 1)%Z)) ->
  forall s, Inv hi s -> returns (for_down hi lo body s) (Inv last).
Proof.
  intros -> Hbody s Hs. unfold for_down.
  eapply returns_weaken.
  - apply (for_seq_count_inv _ body (fun m s => Inv (hi - Z.of_nat m)%Z s)).
    + intros m s' Hm Hinv.
      replace (hi - Z.of_nat (Datatypes.S m))%Z with (hi - Z.of_nat m - 1)%Z by lia.
      apply Hbody; [lia | exact Hinv].
    + replace (hi - Z.of_nat 0)%Z with hi by lia. exact Hs.
  - intros s' Hs'. simpl in Hs'.
    replace (Z.min hi lo) with (hi - Z.of_nat (Z.to_nat (hi - lo)))%Z by lia.
    exact Hs'.
Qed.

(** ** Rectangular arrays *)

Module RectArrayFacts.
Import RectArray.

Section Facts.
Context {T : Type}.
Implicit Types a : gbtRectArray T.

Lemma Check_true a r c :
  Check a r c = true <->
  (minrow a <= r <= maxrow a /\ mincol a <= c <= maxcol a)%Z.
Proof.
  unfold Check, CheckRow, CheckColumn.
  rewrite !andb_true_iff, !Z.leb_le. lia.
Qed.

Lemma cell_in_bounds a r c :
  wf a -> Check a r c = true -> is_Some (cell a r c).
Proof.
  intros [Hrows Hcols] Hc. apply Check_true in Hc. unfold cell.
  replace ((minrow a <=? r)%Z && (mincol a <=? c)%Z) with true
    by (symmetry; rewrite andb_true_iff, !Z.leb_le; lia).
  destruct (lookup_lt_is_Some_2 (data a) (Z.to_nat (r - minrow a))) as [row Hrow];
    [rewrite Hrows; lia|].
  rewrite Hrow. apply lookup_lt_is_Some_2.
  rewrite Forall_forall in Hcols.
  rewrite (Hcols row) by (apply list_elem_of_lookup; eauto).
  lia.
Qed.

(** C9. On an array built by a constructor, [operator()(r, c)] raises
    (the index exception) exactly when [r < minrow], [r > maxrow],
    [c < mincol] or [c > maxcol]; otherwise it returns the element
    stored at [data[r][c]].  The accessor yields a value only: the array
    it is applied to is not changed. *)
Theorem get_raises_iff_out_of_bounds a r c :
  wf a ->
  ((exists e, get a r c = Raise e) <->
     (r < minrow a \/ r > maxrow a \/ c < mincol a \/ c > maxcol a)%Z) /\
  (forall e, get a r c = Raise e -> e = gbtIndexException) /\
  (get a r c <> OutOfFuel) /\
  (~ (r < minrow a \/ r > maxrow a \/ c < mincol a \/ c > maxcol a)%Z ->
     exists x, cell a r c = Some x /\ get a r c = Ok x).
Proof.
  intros Hwf. unfold get.
  destruct (Check a r c) eqn:Hc; simpl.
  - pose proof (proj1 (Check_true a r c) Hc) as Hb.
    destruct (cell_in_bounds a r c Hwf Hc) as [x Hx]. rewrite Hx. simpl.
    split; [|split; [|split]].
    + split; [intros [e He]; discriminate | lia].
    + intros e He. discriminate.
    + discriminate.
    + intros _. exists x. split; reflexivity.
  - assert (Hb : ~ (minrow a <= r <= maxrow a /\ mincol a <= c <= maxcol a)%Z).
    { rewrite <- Check_true, Hc. discriminate. }
    split; [|split; [|split]].
    + split; [intros _; lia | intros _; eexists; reflexivity].
    + intros e He. congruence.
    + discriminate.
    + intros Hin. exfalso. apply Hb. lia.
Qed.

(** The constructor establishes the invariant. *)
Lemma new_gbtRectArray_spec (fresh : T) (minr maxr minc maxc : Z) :
  ~ (minr <= maxr /\ maxc - minc + 1 < 0)%Z ->
  exists t, new_gbtRectArray fresh minr maxr minc maxc = Ok t /\
    minrow t = minr /\ maxrow t = maxr /\ mincol t = minc /\ maxcol t = maxc /\
    wf t.
Proof.
  intros Hok. unfold new_gbtRectArray.
  replace ((minr <=? maxr)%Z && (maxc - minc + 1 <? 0)%Z) with false.
  - eexists. split; [reflexivity|]. repeat split; simpl.
    + apply length_replicate.
    + apply Forall_replicate, length_replicate.
  - symmetry. apply andb_false_iff.
    destruct (Z.leb_spec minr maxr) as [H1|H1]; [|left; reflexivity].
    right. apply Z.ltb_ge. lia.
Qed.

Lemma seqZ_split (m n : Z) (done rest : list Z) (i : Z) :
  seqZ m n = done ++ i :: rest ->
  (m <= i < m + n)%Z /\ forall x, x ∈ done -> x <> i.
Proof.
  intros Heq. split.
  - apply elem_of_seqZ. rewrite Heq. apply elem_of_app. right.
    apply elem_of_cons. auto.
  - intros x Hx ->. pose proof (NoDup_seqZ m n) as Hnd. rewrite Heq in Hnd.
    apply NoDup_app in Hnd as (_ & Hnd & _).
    apply (Hnd i Hx). apply elem_of_cons. auto.
Qed.

(** An assignment through [operator()] inside the bounds writes one
    cell and leaves the others, the bounds and the invariant alone. *)
Lemma put_spec a r c (x : T) :
  wf a -> Check a r c = true ->
  exists a', put a r c x = Ok a' /\
    minrow a' = minrow a /\ maxrow a' = maxrow a /\
    mincol a' = mincol a /\ maxcol a' = maxcol a /\ wf a' /\
    cell a' r c = Some x /\
    (forall r' c', r' <> r \/ c' <> c -> cell a' r' c' = cell a r' c').
Proof.
  intros Hwf Hc. pose proof (proj1 (Check_true a r c) Hc) as Hb.
  destruct (cell_in_bounds a r c Hwf Hc) as [y Hy].
  unfold put, set_cell. rewrite Hc, Hy. simpl.
  eexists. split; [reflexivity|]. simpl.
  split; [reflexivity|]. split; [reflexivity|].
  split; [reflexivity|]. split; [reflexivity|].
  destruct Hwf as [Hrows Hcols].
  unfold cell in Hy.
  replace ((minrow a <=? r)%Z && (mincol a <=? c)%Z) with true in Hy
    by (symmetry; rewrite andb_true_iff, !Z.leb_le; lia).
  destruct (data a !! Z.to_nat (r - minrow a)) as [row|] eqn:Hrow; [|discriminate].
  pose proof (lookup_lt_Some _ _ _ Hy) as Hlt.
  split; [|split].
  - split; simpl.
    + rewrite length_alter. exact Hrows.
    + apply Forall_alter; [exact Hcols|].
      intros row' _ Hlen. rewrite length_insert. exact Hlen.
  - unfold cell. simpl.
    replace ((minrow a <=? r)%Z && (mincol a <=? c)%Z) with true
      by (symmetry; rewrite andb_true_iff, !Z.leb_le; lia).
    rewrite list_lookup_alter_eq, Hrow. simpl.
    apply list_lookup_insert_eq. exact Hlt.
  - intros r' c' Hne. unfold cell. simpl.
    destruct ((minrow a <=? r')%Z && (mincol a <=? c')%Z) eqn:Hin; [|reflexivity].
    apply andb_true_iff in Hin as [Hr' Hc']. apply Z.leb_le in Hr', Hc'.
    destruct (decide (r' = r)) as [->|Hr].
    + rewrite list_lookup_alter_eq, Hrow. simpl.
      apply list_lookup_insert_ne. destruct Hne as [Hne|Hne]; [congruence|]. lia.
    + rewrite list_lookup_alter_ne by lia. reflexivity.
Qed.

(** When [maxrow = maxcol], the bound the inner loop of [Transpose] uses
    is the right one and the result is the transpose. *)
Lemma Transpose_when_maxrow_is_maxcol (fresh : T) a :
  wf a -> maxrow a = maxcol a -> (minrow a <= maxrow a + 1)%Z ->
  returns (Transpose fresh a) (fun t =>
    minrow t = mincol a /\ maxrow t = maxcol a /\
    mincol t = minrow a /\ maxcol t = maxrow a /\ wf t /\
    forall i j, Check a i j = true -> cell t j i = cell a i j).
Proof.
  intros Hwf Hsq Hrows. unfold Transpose.
  destruct (new_gbtRectArray_spec fresh (mincol a) (maxcol a) (minrow a) (maxrow a))
    as (tmp & Hmake & B1 & B2 & B3 & B4 & Hwf0); [lia|].
  rewrite Hmake. simpl. unfold for_range.
  eapply returns_weaken.
  - apply (for_seq_inv _ (fun done t =>
      (minrow t = mincol a /\ maxrow t = maxcol a /\
       mincol t = minrow a /\ maxcol t = maxrow a /\ wf t) /\
      forall i j, i ∈ done -> (mincol a <= j <= maxcol a)%Z ->
        cell t j i = cell a i j)).
    + intros done i rest t Hidx (Hb & Hdone).
      destruct (seqZ_split _ _ _ _ _ Hidx) as (Hi & Hfresh).
      eapply returns_weaken.
      * apply (for_seq_inv _ (fun done2 t2 =>
          (minrow t2 = mincol a /\ maxrow t2 = maxcol a /\
           mincol t2 = minrow a /\ maxcol t2 = maxrow a /\ wf t2) /\
          (forall i' j, i' ∈ done -> (mincol a <= j <= maxcol a)%Z ->
             cell t2 j i' = cell a i' j) /\
          (forall j, j ∈ done2 -> cell t2 j i = cell a i j))).
        -- intros done2 j rest2 t2 Hidx2 ((E1 & E2 & E3 & E4 & Hwf2) & Hold & Hnew).
           destruct (seqZ_split _ _ _ _ _ Hidx2) as (Hj & Hfresh2).
           assert (Hca : Check a i j = true) by (apply Check_true; lia).
           destruct (cell_in_bounds a i j Hwf Hca) as [x Hx].
           unfold get. rewrite Hca, Hx. simpl.
           assert (Hct : Check t2 j i = true) by (apply Check_true; lia).
           destruct (put_spec t2 j i x Hwf2 Hct)
             as (t3 & Hput & D1 & D2 & D3 & D4 & Hwf3 & Hsame & Hother).
           rewrite Hput. apply returns_Ok.
           split; [split; [congruence|]; split; [congruence|];
                   split; [congruence|]; split; [congruence | exact Hwf3]|].
           split.
           ++ intros i' j' Hi' Hj'. rewrite Hother by (right; apply Hfresh, Hi').
              apply Hold; assumption.
           ++ intros j' Hj'. apply elem_of_app in Hj' as [Hj'|Hj'].
              ** rewrite Hother by (left; apply Hfresh2, Hj'). apply Hnew, Hj'.
              ** apply elem_of_cons in Hj' as [->|Hj']; [|inversion Hj'].
                 rewrite Hsame, Hx. reflexivity.
        -- split; [exact Hb|]. split; [exact Hdone|]. intros j Hj. inversion Hj.
      * intros t2 (Hb2 & Hold & Hnew). split; [exact Hb2|].
        intros i' j Hi' Hj. apply elem_of_app in Hi' as [Hi'|Hi'].
        -- apply Hold; assumption.
        -- apply elem_of_cons in Hi' as [->|Hi']; [|inversion Hi'].
           apply Hnew, elem_of_seqZ. lia.
    + split; [auto|]. intros i j Hi. inversion Hi.
  - intros t ((E1 & E2 & E3 & E4 & Hwft) & Hall).
    split; [exact E1|]. split; [exact E2|]. split; [exact E3|].
    split; [exact E4|]. split; [exact Hwft|].
    intros i j Hc. apply Check_true in Hc.
    apply Hall; [apply elem_of_seqZ; lia | lia].
Qed.

(** *** Rows and cells of a well-formed array *)

Lemma same_bounds_refl a : same_bounds a a.
Proof. unfold same_bounds. auto. Qed.

Lemma same_bounds_trans a b c : same_bounds a b -> same_bounds b c -> same_bounds a c.
Proof. unfold same_bounds. intros (?&?&?&?) (?&?&?&?). repeat split; congruence. Qed.

Lemma CheckRow_true a r : CheckRow a r = true <-> (minrow a <= r <= maxrow a)%Z.
Proof. unfold CheckRow. rewrite andb_true_iff, !Z.leb_le. lia. Qed.

Lemma CheckColumn_true a c : CheckColumn a c = true <-> (mincol a <= c <= maxcol a)%Z.
Proof. unfold CheckColumn. rewrite andb_true_iff, !Z.leb_le. lia. Qed.

Lemma row_at_is_Some a r :
  wf a -> is_Some (row_at a r) <-> (minrow a <= r <= maxrow a)%Z.
Proof.
  intros [Hrows _]. unfold row_at.
  destruct (Z.leb_spec (minrow a) r) as [Hle|Hlt].
  - rewrite lookup_lt_is_Some, Hrows. lia.
  - split; [intros [x Hx]; discriminate | lia].
Qed.

Lemma row_at_length a r row :
  wf a -> row_at a r = Some row ->
  length row = Z.to_nat (maxcol a - mincol a + 1).
Proof.
  intros [_ Hcols] Hrow. unfold row_at in Hrow.
  destruct (minrow a <=? r)%Z; [|discriminate].
  rewrite Forall_forall in Hcols. apply Hcols.
  apply list_elem_of_lookup. eauto.
Qed.

Lemma cell_row a r c :
  cell a r c =
  match row_at a r with
  | Some row => if (mincol a <=? c)%Z then row !! Z.to_nat (c - mincol a) else None
  | None => None
  end.
Proof.
  unfold cell, row_at.
  destruct (minrow a <=? r)%Z, (mincol a <=? c)%Z; simpl; try reflexivity.
  destruct (data a !! Z.to_nat (r - minrow a)); reflexivity.
Qed.

Lemma cell_is_Some a r c :
  wf a -> is_Some (cell a r c) <-> Check a r c = true.
Proof.
  intros Hwf. split; [|apply cell_in_bounds, Hwf].
  intros [x Hx]. rewrite cell_row in Hx.
  destruct (row_at a r) as [row|] eqn:Hrow; [|discriminate].
  pose proof (row_at_length a r row Hwf Hrow) as Hlen.
  assert (Hr : (minrow a <= r <= maxrow a)%Z)
    by (apply (row_at_is_Some a r Hwf); eauto).
  destruct (Z.leb_spec (mincol a) c) as [Hc|Hc]; [|discriminate].
  apply lookup_lt_Some in Hx. apply Check_true. lia.
Qed.

Lemma cell_outside a r c : wf a -> Check a r c = false -> cell a r c = None.
Proof.
  intros Hwf Hc. destruct (cell a r c) as [x|] eqn:Hx; [|reflexivity].
  assert (H : Check a r c = true) by (apply cell_is_Some; eauto). congruence.
Qed.

(** Two arrays with the same bounds and the same rows are the same. *)
Lemma rows_ext a a' :
  same_bounds a a' -> length (data a') = length (data a) ->
  (forall r, row_at a' r = row_at a r) -> a' = a.
Proof.
  destruct a as [r0 r1 c0 c1 d], a' as [r0' r1' c0' c1' d'].
  unfold same_bounds, row_at. simpl. intros (-> & -> & -> & ->) Hlen Hrows.
  f_equal. apply list_eq. intros n.
  specialize (Hrows (r0 + Z.of_nat n)%Z).
  replace (r0 <=? r0 + Z.of_nat n)%Z with true in Hrows
    by (symmetry; apply Z.leb_le; lia).
  replace (Z.to_nat (r0 + Z.of_nat n - r0)) with n in Hrows by lia.
  exact Hrows.
Qed.

(** Two well-formed arrays with the same bounds and the same cells are
    the same. *)
Lemma cells_ext a a' :
  wf a -> wf a' -> same_bounds a a' ->
  (forall r c, cell a' r c = cell a r c) -> a' = a.
Proof.
  intros Hwf Hwf' Hb Hcells.
  pose proof Hb as (B1 & B2 & B3 & B4).
  apply rows_ext; [exact Hb | |].
  - destruct Hwf as [H1 _], Hwf' as [H1' _]. rewrite H1, H1', B1, B2. reflexivity.
  - intros r.
    destruct (row_at a r) as [row|] eqn:Hrow.
    + assert (Hr : (minrow a <= r <= maxrow a)%Z)
        by (apply (row_at_is_Some a r Hwf); eauto).
      destruct (proj2 (row_at_is_Some a' r Hwf')) as [row' Hrow']; [lia|].
      rewrite Hrow'. f_equal.
      pose proof (row_at_length a r row Hwf Hrow) as Hlen.
      pose proof (row_at_length a' r row' Hwf' Hrow') as Hlen'.
      apply list_eq. intros m.
      specialize (Hcells r (mincol a + Z.of_nat m)%Z).
      rewrite !cell_row, Hrow, Hrow', B3 in Hcells.
      replace (mincol a <=? mincol a + Z.of_nat m)%Z with true in Hcells
        by (symmetry; apply Z.leb_le; lia).
      replace (Z.to_nat (mincol a + Z.of_nat m - mincol a)) with m in Hcells by lia.
      exact Hcells.
    + destruct (row_at a' r) as [row'|] eqn:Hrow'; [|reflexivity].
      assert (Hr : (minrow a' <= r <= maxrow a')%Z)
        by (apply (row_at_is_Some a' r Hwf'); eauto).
      assert (Hs : is_Some (row_at a r)) by (apply row_at_is_Some; [exact Hwf | lia]).
      rewrite Hrow in Hs. destruct Hs as [x Hx]. discriminate.
Qed.

Lemma Check_same_bounds a a' r c : same_bounds a a' -> Check a' r c = Check a r c.
Proof.
  intros (B1 & B2 & B3 & B4). unfold Check, CheckRow, CheckColumn.
  rewrite B1, B2, B3, B4. reflexivity.
Qed.

(** What [operator()] shows of an array is decided by its bounds and its
    cells. *)
Lemma get_from_cells a a' r c r' c' :
  same_bounds a a' -> Check a r c = Check a r' c' ->
  cell a' r c = cell a r' c' -> get a' r c = get a r' c'.
Proof.
  intros Hb Hc Hcell. unfold get.
  rewrite (Check_same_bounds a a' r c Hb), Hc, Hcell. reflexivity.
Qed.

Lemma cell_from_rows a a' r r' c :
  same_bounds a a' -> row_at a' r = row_at a r' -> cell a' r c = cell a r' c.
Proof.
  intros (B1 & B2 & B3 & B4) Hrow. rewrite !cell_row, Hrow, B3. reflexivity.
Qed.

Lemma rd_in_bounds a r c :
  wf a -> Check a r c = true -> exists x, cell a r c = Some x /\ rd a r c = Ok x.
Proof.
  intros Hwf Hc. destruct (cell_in_bounds a r c Hwf Hc) as [x Hx].
  exists x. split; [exact Hx|]. unfold rd. rewrite Hx. reflexivity.
Qed.

Lemma wr_in_bounds a r c (x : T) :
  wf a -> Check a r c = true ->
  exists a', wr a r c x = Ok a' /\ same_bounds a a' /\ wf a' /\
    cell a' r c = Some x /\
    (forall r' c', r' <> r \/ c' <> c -> cell a' r' c' = cell a r' c').
Proof.
  intros Hwf Hc.
  destruct (put_spec a r c x Hwf Hc) as (a' & Hput & B1 & B2 & B3 & B4 & Hwf' & Hx & Ho).
  unfold put in Hput. rewrite Hc in Hput. simpl in Hput.
  exists a'. split; [exact Hput|].
  split; [unfold same_bounds; auto|]. split; [exact Hwf'|].
  split; [exact Hx | exact Ho].
Qed.

Lemma set_row_ptr_spec a r (p : list T) :
  wf a -> (minrow a <= r <= maxrow a)%Z ->
  length p = Z.to_nat (maxcol a - mincol a + 1) ->
  exists a', set_row_ptr a r p = Ok a' /\ same_bounds a a' /\ wf a' /\
    row_at a' r = Some p /\
    (forall r', r' <> r -> row_at a' r' = row_at a r').
Proof.
  intros Hwf Hr Hlen.
  destruct (proj2 (row_at_is_Some a r Hwf) Hr) as [old Hold].
  unfold set_row_ptr. rewrite Hold.
  eexists. split; [reflexivity|].
  split; [unfold same_bounds; simpl; auto|].
  unfold row_at in Hold.
  replace (minrow a <=? r)%Z with true in Hold by (symmetry; apply Z.leb_le; lia).
  pose proof (lookup_lt_Some _ _ _ Hold) as Hlt.
  destruct Hwf as [Hrows Hcols].
  split; [|split].
  - split; simpl.
    + rewrite length_insert. exact Hrows.
    + apply Forall_insert; [exact Hcols | exact Hlen].
  - unfold row_at. simpl.
    replace (minrow a <=? r)%Z with true by (symmetry; apply Z.leb_le; lia).
    apply list_lookup_insert_eq. exact Hlt.
  - intros r' Hne. unfold row_at. simpl.
    destruct (Z.leb_spec (minrow a) r') as [Hle|Hgt]; [|reflexivity].
    apply list_lookup_insert_ne. lia.
Qed.

(** *** Rotation and exchange of rows *)

Ltac no_if t :=
  lazymatch t with
  | context [if _ then _ else _] => fail
  | _ => idtac
  end.

(** Case analysis on the integer comparisons of the goal, innermost
    first. *)
Ltac zbool :=
  repeat (match goal with
          | |- context [(?x <=? ?y)%Z] => no_if x; no_if y; destruct (Z.leb_spec x y)
          | |- context [(?x <? ?y)%Z] => no_if x; no_if y; destruct (Z.ltb_spec x y)
          | |- context [(?x =? ?y)%Z] => no_if x; no_if y; destruct (Z.eqb_spec x y)
          end; cbn [andb orb negb]);
  try reflexivity; try lia; try (f_equal; lia).

Lemma row_ptr_Some a r (p : list T) : row_at a r = Some p -> row_ptr a r = Ok p.
Proof. intros H. unfold row_ptr. rewrite H. reflexivity. Qed.

Lemma RotateUp_rows a lo hi :
  wf a -> (minrow a <= lo <= hi)%Z -> (hi <= maxrow a)%Z ->
  returns (RotateUp a lo hi) (fun a' =>
    same_bounds a a' /\ wf a' /\
    forall r, row_at a' r = row_at a (rotated_up lo hi r)).
Proof.
  intros Hwf Hlo Hhi. unfold RotateUp.
  replace ((lo <? minrow a) || (hi <? lo) || (maxrow a <? hi))%Z with false by zbool.
  destruct (proj2 (row_at_is_Some a lo Hwf)) as [temp Htemp]; [lia|].
  rewrite (row_ptr_Some _ _ _ Htemp). simpl.
  eapply returns_bind.
  - apply (for_range_inv _ (fun k a' =>
      same_bounds a a' /\ wf a' /\
      forall r, row_at a' r =
                row_at a (if ((lo <=? r) && (r <? k))%Z then r + 1 else r)%Z)
      lo (hi - 1) hi); [lia | |].
    + intros k s Hk (Hb & Hwfs & Hrows).
      pose proof Hb as (B1 & B2 & B3 & B4).
      destruct (proj2 (row_at_is_Some s (k + 1) Hwfs)) as [p Hp]; [lia|].
      rewrite (row_ptr_Some _ _ _ Hp). simpl.
      destruct (set_row_ptr_spec s k p Hwfs) as (s' & Hset & Hb' & Hwf' & Hk' & Ho);
        [lia | eapply row_at_length; eauto |].
      rewrite Hset. apply returns_Ok.
      split; [eapply same_bounds_trans; eauto|]. split; [exact Hwf'|].
      intros r. destruct (Z.eq_dec r k) as [->|Hne].
      * rewrite Hk', <- Hp, Hrows. zbool.
      * rewrite Ho by exact Hne. rewrite Hrows. zbool.
    + split; [apply same_bounds_refl|]. split; [exact Hwf|].
      intros r. zbool.
  - intros a1 (Hb & Hwf1 & Hrows). simpl.
    pose proof Hb as (B1 & B2 & B3 & B4).
    destruct (set_row_ptr_spec a1 hi temp Hwf1) as (a2 & Hset & Hb2 & Hwf2 & Hhi2 & Ho);
      [lia | rewrite B3, B4; eapply row_at_length; eauto |].
    rewrite Hset. apply returns_Ok.
    split; [eapply same_bounds_trans; eauto|]. split; [exact Hwf2|].
    intros r. unfold rotated_up. destruct (Z.eq_dec r hi) as [->|Hne].
    + rewrite Hhi2, <- Htemp. zbool.
    + rewrite Ho by exact Hne. rewrite Hrows. zbool.
Qed.

Lemma RotateDown_rows a lo hi :
  wf a -> (minrow a <= lo <= hi)%Z -> (hi <= maxrow a)%Z ->
  returns (RotateDown a lo hi) (fun a' =>
    same_bounds a a' /\ wf a' /\
    forall r, row_at a' r = row_at a (rotated_down lo hi r)).
Proof.
  intros Hwf Hlo Hhi. unfold RotateDown.
  replace ((lo <? minrow a) || (hi <? lo) || (maxrow a <? hi))%Z with false by zbool.
  destruct (proj2 (row_at_is_Some a hi Hwf)) as [temp Htemp]; [lia|].
  rewrite (row_ptr_Some _ _ _ Htemp). simpl.
  eapply returns_bind.
  - apply (for_down_inv _ (fun k a' =>
      same_bounds a a' /\ wf a' /\
      forall r, row_at a' r =
                row_at a (if ((k <? r) && (r <=? hi))%Z then r - 1 else r)%Z)
      hi lo lo); [lia | |].
    + intros k s Hk (Hb & Hwfs & Hrows).
      pose proof Hb as (B1 & B2 & B3 & B4).
      destruct (proj2 (row_at_is_Some s (k - 1) Hwfs)) as [p Hp]; [lia|].
      rewrite (row_ptr_Some _ _ _ Hp). simpl.
      destruct (set_row_ptr_spec s k p Hwfs) as (s' & Hset & Hb' & Hwf' & Hk' & Ho);
        [lia | eapply row_at_length; eauto |].
      rewrite Hset. apply returns_Ok.
      split; [eapply same_bounds_trans; eauto|]. split; [exact Hwf'|].
      intros r. destruct (Z.eq_dec r k) as [->|Hne].
      * rewrite Hk', <- Hp, Hrows. zbool.
      * rewrite Ho by exact Hne. rewrite Hrows. zbool.
    + split; [apply same_bounds_refl|]. split; [exact Hwf|].
      intros r. zbool.
  - intros a1 (Hb & Hwf1 & Hrows). simpl.
    pose proof Hb as (B1 & B2 & B3 & B4).
    destruct (set_row_ptr_spec a1 lo temp Hwf1) as (a2 & Hset & Hb2 & Hwf2 & Hlo2 & Ho);
      [lia | rewrite B3, B4; eapply row_at_length; eauto |].
    rewrite Hset. apply returns_Ok.
    split; [eapply same_bounds_trans; eauto|]. split; [exact Hwf2|].
    intros r. unfold rotated_down. destruct (Z.eq_dec r lo) as [->|Hne].
    + rewrite Hlo2, <- Htemp. zbool.
    + rewrite Ho by exact Hne. rewrite Hrows. zbool.
Qed.

Lemma SwitchRows_rows a i j :
  wf a -> CheckRow a i = true -> CheckRow a j = true ->
  returns (SwitchRows a i j) (fun a' =>
    same_bounds a a' /\ wf a' /\
    forall r, row_at a' r = row_at a (switched i j r)).
Proof.
  intros Hwf Hi Hj. unfold SwitchRows. rewrite Hi, Hj. simpl.
  apply CheckRow_true in Hi, Hj.
  destruct (proj2 (row_at_is_Some a j Hwf) Hj) as [temp Htemp].
  destruct (proj2 (row_at_is_Some a i Hwf) Hi) as [p Hp].
  rewrite (row_ptr_Some _ _ _ Htemp), (row_ptr_Some _ _ _ Hp). simpl.
  destruct (set_row_ptr_spec a j p Hwf Hj) as (a1 & Hset1 & Hb1 & Hwf1 & Hj1 & Ho1);
    [eapply row_at_length; eauto|].
  rewrite Hset1. simpl.
  pose proof Hb1 as (B1 & B2 & B3 & B4).
  destruct (set_row_ptr_spec a1 i temp Hwf1) as (a2 & Hset2 & Hb2 & Hwf2 & Hi2 & Ho2);
    [lia | rewrite B3, B4; eapply row_at_length; eauto |].
  rewrite Hset2. apply returns_Ok.
  split; [eapply same_bounds_trans; eauto|]. split; [exact Hwf2|].
  intros r. unfold switched. destruct (Z.eq_dec r i) as [->|Hne].
  - rewrite Hi2, <- Htemp. zbool.
  - rewrite Ho2 by exact Hne. destruct (Z.eq_dec r j) as [->|Hne'].
    + rewrite Hj1, <- Hp. zbool.
    + rewrite Ho1 by exact Hne'. zbool.
Qed.

(** The source position of a row stays on the same side of the bounds. *)
Lemma CheckRow_rotated_up a lo hi r :
  (minrow a <= lo <= hi)%Z -> (hi <= maxrow a)%Z ->
  CheckRow a (rotated_up lo hi r) = CheckRow a r.
Proof. intros Hlo Hhi. unfold CheckRow, rotated_up. zbool. Qed.

Lemma CheckRow_rotated_down a lo hi r :
  (minrow a <= lo <= hi)%Z -> (hi <= maxrow a)%Z ->
  CheckRow a (rotated_down lo hi r) = CheckRow a r.
Proof. intros Hlo Hhi. unfold CheckRow, rotated_down. zbool. Qed.

Lemma CheckRow_switched a i j r :
  CheckRow a i = true -> CheckRow a j = true ->
  CheckRow a (switched i j r) = CheckRow a r.
Proof.
  intros Hi Hj. apply CheckRow_true in Hi, Hj. unfold CheckRow, switched. zbool.
Qed.

Lemma get_from_rows a a' r r' :
  same_bounds a a' -> CheckRow a r' = CheckRow a r ->
  row_at a' r = row_at a r' -> forall c, get a' r c = get a r' c.
Proof.
  intros Hb Hc Hrow c. apply get_from_cells; [exact Hb | |].
  - unfold Check. rewrite Hc. reflexivity.
  - apply cell_from_rows; assumption.
Qed.

(** X1.
    [RotateUp(lo, hi)] raises the index exception when the range is not
    inside the rows or is empty, and nothing else; otherwise row [r + 1]
    is found at [r] for [lo <= r < hi] and row [lo] at [hi]: what
    [operator()] gives at row [r] afterwards is what it gave at row
    [rotated_up lo hi r] before. *)
Theorem RotateUp_moves_rows a lo hi :
  wf a ->
  ((lo < minrow a \/ hi < lo \/ maxrow a < hi)%Z ->
     RotateUp a lo hi = Raise gbtIndexException) /\
  (~ (lo < minrow a \/ hi < lo \/ maxrow a < hi)%Z ->
     returns (RotateUp a lo hi) (fun a' =>
       same_bounds a a' /\ wf a' /\
       forall r c, get a' r c = get a (rotated_up lo hi r) c)).
Proof.
  intros Hwf. split.
  - intros Hbad. unfold RotateUp.
    replace ((lo <? minrow a) || (hi <? lo) || (maxrow a <? hi))%Z with true by zbool.
    reflexivity.
  - intros Hok. eapply returns_weaken; [apply RotateUp_rows; [exact Hwf | lia | lia]|].
    intros a' (Hb & Hwf' & Hrows). split; [exact Hb|]. split; [exact Hwf'|].
    intros r c. apply get_from_rows; [exact Hb | | apply Hrows].
    apply CheckRow_rotated_up; lia.
Qed.

(** X2.
    [RotateDown(lo, hi)] raises the index exception on the same ranges;
    otherwise row [r - 1] is found at [r] for [lo < r <= hi] and row [hi]
    at [lo]. *)
Theorem RotateDown_moves_rows a lo hi :
  wf a ->
  ((lo < minrow a \/ hi < lo \/ maxrow a < hi)%Z ->
     RotateDown a lo hi = Raise gbtIndexException) /\
  (~ (lo < minrow a \/ hi < lo \/ maxrow a < hi)%Z ->
     returns (RotateDown a lo hi) (fun a' =>
       same_bounds a a' /\ wf a' /\
       forall r c, get a' r c = get a (rotated_down lo hi r) c)).
Proof.
  intros Hwf. split.
  - intros Hbad. unfold RotateDown.
    replace ((lo <? minrow a) || (hi <? lo) || (maxrow a <? hi))%Z with true by zbool.
    reflexivity.
  - intros Hok. eapply returns_weaken; [apply RotateDown_rows; [exact Hwf | lia | lia]|].
    intros a' (Hb & Hwf' & Hrows). split; [exact Hb|]. split; [exact Hwf'|].
    intros r c. apply get_from_rows; [exact Hb | | apply Hrows].
    apply CheckRow_rotated_down; lia.
Qed.

Lemma wf_length_data a a' : wf a -> wf a' -> same_bounds a a' ->
  length (data a') = length (data a).
Proof.
  intros [H _] [H' _] (B1 & B2 & _). rewrite H, H', B1, B2. reflexivity.
Qed.

(** X3.
    A rotation down undoes a rotation up of the same rows, and a rotation
    up a rotation down: the array is the one before. *)
Theorem RotateUp_RotateDown_inverse a lo hi :
  wf a -> (minrow a <= lo <= hi)%Z -> (hi <= maxrow a)%Z ->
  (a' ← RotateUp a lo hi; RotateDown a' lo hi) = Ok a /\
  (a' ← RotateDown a lo hi; RotateUp a' lo hi) = Ok a.
Proof.
  intros Hwf Hlo Hhi. split.
  - destruct (RotateUp_rows a lo hi Hwf Hlo Hhi) as (a1 & -> & Hb1 & Hwf1 & Hr1).
    simpl. pose proof Hb1 as (B1 & B2 & B3 & B4).
    destruct (RotateDown_rows a1 lo hi Hwf1) as (a2 & -> & Hb2 & Hwf2 & Hr2); [lia | lia|].
    f_equal. apply rows_ext.
    + eapply same_bounds_trans; eauto.
    + rewrite (wf_length_data a1 a2), (wf_length_data a a1); auto.
    + intros r. rewrite Hr2, Hr1. f_equal. unfold rotated_up, rotated_down. zbool.
  - destruct (RotateDown_rows a lo hi Hwf Hlo Hhi) as (a1 & -> & Hb1 & Hwf1 & Hr1).
    simpl. pose proof Hb1 as (B1 & B2 & B3 & B4).
    destruct (RotateUp_rows a1 lo hi Hwf1) as (a2 & -> & Hb2 & Hwf2 & Hr2); [lia | lia|].
    f_equal. apply rows_ext.
    + eapply same_bounds_trans; eauto.
    + rewrite (wf_length_data a1 a2), (wf_length_data a a1); auto.
    + intros r. rewrite Hr2, Hr1. f_equal. unfold rotated_up, rotated_down. zbool.
Qed.

(** X4.
    [SwitchRows(i, j)] raises the index exception when [i] or [j] is not
    a row, and nothing else; otherwise rows [i] and [j] are exchanged and
    the others are left alone. *)
Theorem SwitchRows_exchanges a i j :
  wf a ->
  (CheckRow a i = false \/ CheckRow a j = false ->
     SwitchRows a i j = Raise gbtIndexException) /\
  (CheckRow a i = true -> CheckRow a j = true ->
     returns (SwitchRows a i j) (fun a' =>
       same_bounds a a' /\ wf a' /\
       (forall c, get a' i c = get a j c) /\
       (forall c, get a' j c = get a i c) /\
       (forall r c, r <> i -> r <> j -> get a' r c = get a r c))).
Proof.
  intros Hwf. split.
  - intros Hbad. unfold SwitchRows.
    destruct Hbad as [-> | ->]; simpl; [reflexivity|].
    rewrite orb_true_r. reflexivity.
  - intros Hi Hj. eapply returns_weaken; [apply SwitchRows_rows; assumption|].
    intros a' (Hb & Hwf' & Hrows). split; [exact Hb|]. split; [exact Hwf'|].
    assert (Hget : forall r c, get a' r c = get a (switched i j r) c).
    { intros r c. apply get_from_rows; [exact Hb | | apply Hrows].
      apply CheckRow_switched; assumption. }
    split; [|split].
    + intros c. rewrite Hget. f_equal. unfold switched. zbool.
    + intros c. rewrite Hget. f_equal. unfold switched. zbool.
    + intros r c Hri Hrj. rewrite Hget. f_equal. unfold switched. zbool.
Qed.

(** X5.
    Exchanging the same two rows twice gives the array back, and so does
    exchanging a row with itself. *)
Theorem SwitchRows_involutive a i j :
  wf a -> CheckRow a i = true -> CheckRow a j = true ->
  (a' ← SwitchRows a i j; SwitchRows a' i j) = Ok a /\
  SwitchRows a i i = Ok a.
Proof.
  intros Hwf Hi Hj. split.
  - destruct (SwitchRows_rows a i j Hwf Hi Hj) as (a1 & -> & Hb1 & Hwf1 & Hr1).
    simpl. pose proof Hb1 as (B1 & B2 & B3 & B4).
    destruct (SwitchRows_rows a1 i j Hwf1) as (a2 & -> & Hb2 & Hwf2 & Hr2).
    { unfold CheckRow. rewrite B1, B2. exact Hi. }
    { unfold CheckRow. rewrite B1, B2. exact Hj. }
    f_equal. apply rows_ext.
    + eapply same_bounds_trans; eauto.
    + rewrite (wf_length_data a1 a2), (wf_length_data a a1); auto.
    + intros r. rewrite Hr2, Hr1. f_equal. unfold switched. zbool.
  - destruct (SwitchRows_rows a i i Hwf Hi Hi) as (a1 & -> & Hb1 & Hwf1 & Hr1).
    f_equal. apply rows_ext; [exact Hb1 | apply wf_length_data; auto |].
    intros r. rewrite Hr1. f_equal. unfold switched. zbool.
Qed.

(** X6.
    Rotating two adjacent rows, up or down, is exchanging them. *)
Theorem Rotate_adjacent_is_SwitchRows a lo :
  wf a -> (minrow a <= lo)%Z -> (lo + 1 <= maxrow a)%Z ->
  RotateUp a lo (lo + 1) = SwitchRows a lo (lo + 1) /\
  RotateDown a lo (lo + 1) = SwitchRows a lo (lo + 1).
Proof.
  intros Hwf Hlo Hhi.
  assert (H1 : CheckRow a lo = true) by (apply CheckRow_true; lia).
  assert (H2 : CheckRow a (lo + 1) = true) by (apply CheckRow_true; lia).
  destruct (SwitchRows_rows a lo (lo + 1) Hwf H1 H2) as (s & -> & Hbs & Hwfs & Hrs).
  split.
  - destruct (RotateUp_rows a lo (lo + 1) Hwf) as (u & -> & Hbu & Hwfu & Hru); [lia | lia|].
    f_equal. pose proof Hbs as (B1 & B2 & B3 & B4).
    pose proof Hbu as (C1 & C2 & C3 & C4).
    apply rows_ext.
    + unfold same_bounds. repeat split; congruence.
    + rewrite (wf_length_data a u), (wf_length_data a s); auto.
    + intros r. rewrite Hru, Hrs. f_equal. unfold rotated_up, switched. zbool.
  - destruct (RotateDown_rows a lo (lo + 1) Hwf) as (u & -> & Hbu & Hwfu & Hru); [lia | lia|].
    f_equal. pose proof Hbs as (B1 & B2 & B3 & B4).
    pose proof Hbu as (C1 & C2 & C3 & C4).
    apply rows_ext.
    + unfold same_bounds. repeat split; congruence.
    + rewrite (wf_length_data a u), (wf_length_data a s); auto.
    + intros r. rewrite Hru, Hrs. f_equal. unfold rotated_down, switched. zbool.
Qed.

(** *** Rotation and exchange of columns *)

Lemma Check_in a r c :
  (minrow a <= r <= maxrow a)%Z -> (mincol a <= c <= maxcol a)%Z -> Check a r c = true.
Proof. intros Hr Hc. apply Check_true. lia. Qed.

Lemma RotateLeft_row (s : gbtRectArray T) i lo hi :
  wf s -> (minrow s <= i <= maxrow s)%Z ->
  (mincol s <= lo <= hi)%Z -> (hi <= maxcol s)%Z ->
  returns (temp ← rd s i lo;
           a ← for_range lo (hi - 1) (fun j a => x ← rd a i (j + 1); wr a i j x) s;
           wr a i hi temp)
    (fun s' => same_bounds s s' /\ wf s' /\
       forall r c, cell s' r c =
                   cell s r (if (r =? i)%Z then rotated_up lo hi c else c)).
Proof.
  intros Hwf Hi Hlo Hhi.
  destruct (rd_in_bounds s i lo Hwf) as (temp & Htemp & ->); [apply Check_in; lia|].
  simpl. eapply returns_bind.
  - apply (for_range_inv _ (fun j s' =>
      same_bounds s s' /\ wf s' /\
      forall r c, cell s' r c =
        cell s r (if ((r =? i) && (lo <=? c) && (c <? j))%Z then c + 1 else c)%Z)
      lo (hi - 1) hi); [lia | |].
    + intros j s' Hj (Hb & Hwf' & Hcells).
      pose proof Hb as (B1 & B2 & B3 & B4).
      destruct (rd_in_bounds s' i (j + 1) Hwf') as (x & Hx & ->); [apply Check_in; lia|].
      simpl.
      destruct (wr_in_bounds s' i j x Hwf') as (s2 & -> & Hb2 & Hwf2 & Hnew & Ho);
        [apply Check_in; lia|].
      apply returns_Ok.
      split; [eapply same_bounds_trans; eauto|]. split; [exact Hwf2|].
      intros r c. destruct (Z.eq_dec r i) as [->|Hr].
      * destruct (Z.eq_dec c j) as [->|Hc].
        -- rewrite Hnew, <- Hx, Hcells. zbool.
        -- rewrite Ho by (right; exact Hc). rewrite Hcells. zbool.
      * rewrite Ho by (left; exact Hr). rewrite Hcells. zbool.
    + split; [apply same_bounds_refl|]. split; [exact Hwf|].
      intros r c. zbool.
  - intros s1 (Hb & Hwf1 & Hcells). simpl.
    pose proof Hb as (B1 & B2 & B3 & B4).
    destruct (wr_in_bounds s1 i hi temp Hwf1) as (s2 & -> & Hb2 & Hwf2 & Hnew & Ho);
      [apply Check_in; lia|].
    apply returns_Ok.
    split; [eapply same_bounds_trans; eauto|]. split; [exact Hwf2|].
    intros r c. unfold rotated_up. destruct (Z.eq_dec r i) as [->|Hr].
    + destruct (Z.eq_dec c hi) as [->|Hc].
      * rewrite Hnew, <- Htemp. zbool.
      * rewrite Ho by (right; exact Hc). rewrite Hcells. zbool.
    + rewrite Ho by (left; exact Hr). rewrite Hcells. zbool.
Qed.

Lemma RotateRight_row (s : gbtRectArray T) i lo hi :
  wf s -> (minrow s <= i <= maxrow s)%Z ->
  (mincol s <= lo <= hi)%Z -> (hi <= maxcol s)%Z ->
  returns (temp ← rd s i hi;
           a ← for_down hi lo (fun j a => x ← rd a i (j - 1); wr a i j x) s;
           wr a i lo temp)
    (fun s' => same_bounds s s' /\ wf s' /\
       forall r c, cell s' r c =
                   cell s r (if (r =? i)%Z then rotated_down lo hi c else c)).
Proof.
  intros Hwf Hi Hlo Hhi.
  destruct (rd_in_bounds s i hi Hwf) as (temp & Htemp & ->); [apply Check_in; lia|].
  simpl. eapply returns_bind.
  - apply (for_down_inv _ (fun j s' =>
      same_bounds s s' /\ wf s' /\
      forall r c, cell s' r c =
        cell s r (if ((r =? i) && (j <? c) && (c <=? hi))%Z then c - 1 else c)%Z)
      hi lo lo); [lia | |].
    + intros j s' Hj (Hb & Hwf' & Hcells).
      pose proof Hb as (B1 & B2 & B3 & B4).
      destruct (rd_in_bounds s' i (j - 1) Hwf') as (x & Hx & ->); [apply Check_in; lia|].
      simpl.
      destruct (wr_in_bounds s' i j x Hwf') as (s2 & -> & Hb2 & Hwf2 & Hnew & Ho);
        [apply Check_in; lia|].
      apply returns_Ok.
      split; [eapply same_bounds_trans; eauto|]. split; [exact Hwf2|].
      intros r c. destruct (Z.eq_dec r i) as [->|Hr].
      * destruct (Z.eq_dec c j) as [->|Hc].
        -- rewrite Hnew, <- Hx, Hcells. zbool.
        -- rewrite Ho by (right; exact Hc). rewrite Hcells. zbool.
      * rewrite Ho by (left; exact Hr). rewrite Hcells. zbool.
    + split; [apply same_bounds_refl|]. split; [exact Hwf|].
      intros r c. zbool.
  - intros s1 (Hb & Hwf1 & Hcells). simpl.
    pose proof Hb as (B1 & B2 & B3 & B4).
    destruct (wr_in_bounds s1 i lo temp Hwf1) as (s2 & -> & Hb2 & Hwf2 & Hnew & Ho);
      [apply Check_in; lia|].
    apply returns_Ok.
    split; [eapply same_bounds_trans; eauto|]. split; [exact Hwf2|].
    intros r c. unfold rotated_down. destruct (Z.eq_dec r i) as [->|Hr].
    + destruct (Z.eq_dec c lo) as [->|Hc].
      * rewrite Hnew, <- Htemp. zbool.
      * rewrite Ho by (right; exact Hc). rewrite Hcells. zbool.
    + rewrite Ho by (left; exact Hr). rewrite Hcells. zbool.
Qed.

Lemma SwitchColumns_row (s : gbtRectArray T) i (ca cb : Z) :
  wf s -> (minrow s <= i <= maxrow s)%Z ->
  (mincol s <= ca <= maxcol s)%Z -> (mincol s <= cb <= maxcol s)%Z ->
  returns (tmp ← rd s i ca; x ← rd s i cb; m ← wr s i ca x; wr m i cb tmp)
    (fun s' => same_bounds s s' /\ wf s' /\
       forall r c, cell s' r c =
                   cell s r (if (r =? i)%Z then switched ca cb c else c)).
Proof.
  intros Hwf Hi Ha Hb.
  destruct (rd_in_bounds s i ca Hwf) as (tmp & Htmp & ->); [apply Check_in; lia|].
  destruct (rd_in_bounds s i cb Hwf) as (x & Hx & ->); [apply Check_in; lia|].
  simpl.
  destruct (wr_in_bounds s i ca x Hwf) as (s1 & -> & Hb1 & Hwf1 & Hnew1 & Ho1);
    [apply Check_in; lia|].
  simpl. pose proof Hb1 as (B1 & B2 & B3 & B4).
  destruct (wr_in_bounds s1 i cb tmp Hwf1) as (s2 & -> & Hb2 & Hwf2 & Hnew2 & Ho2);
    [apply Check_in; lia|].
  apply returns_Ok.
  split; [eapply same_bounds_trans; eauto|]. split; [exact Hwf2|].
  intros r c. unfold switched. destruct (Z.eq_dec r i) as [->|Hr].
  - destruct (Z.eq_dec c cb) as [->|Hcb].
    + rewrite Hnew2, <- Htmp. zbool.
    + rewrite Ho2 by (right; exact Hcb). destruct (Z.eq_dec c ca) as [->|Hca].
      * rewrite Hnew1, <- Hx. zbool.
      * rewrite Ho1 by (right; exact Hca). zbool.
  - rewrite Ho2 by (left; exact Hr). rewrite Ho1 by (left; exact Hr). zbool.
Qed.

(** A loop over the rows that moves the cells of row [i] as [src] says
    moves the cells of every row so. *)
Lemma every_row a (src : Z -> Z) (body : Z -> gbtRectArray T -> outcome (gbtRectArray T)) :
  wf a ->
  (forall c, CheckColumn a (src c) = CheckColumn a c) ->
  (forall i s, wf s -> same_bounds a s -> (minrow a <= i <= maxrow a)%Z ->
     returns (body i s) (fun s' => same_bounds s s' /\ wf s' /\
       forall r c, cell s' r c = cell s r (if (r =? i)%Z then src c else c))) ->
  returns (for_range (minrow a) (maxrow a) body a) (fun a' =>
    same_bounds a a' /\ wf a' /\ forall r c, cell a' r c = cell a r (src c)).
Proof.
  intros Hwf Hsrc Hbody.
  eapply returns_weaken.
  - apply (for_range_inv _ (fun i a' =>
      same_bounds a a' /\ wf a' /\
      forall r c, cell a' r c =
        cell a r (if ((minrow a <=? r) && (r <? i))%Z then src c else c))
      (minrow a) (maxrow a) _ eq_refl).
    + intros i s Hi (Hb & Hwfs & Hcells).
      eapply returns_weaken; [apply Hbody; assumption|].
      intros s' (Hb' & Hwf' & Hrow).
      split; [eapply same_bounds_trans; eauto|]. split; [exact Hwf'|].
      intros r c. rewrite Hrow, Hcells. zbool.
    + split; [apply same_bounds_refl|]. split; [exact Hwf|].
      intros r c. zbool.
  - intros a' (Hb & Hwf' & Hcells). split; [exact Hb|]. split; [exact Hwf'|].
    intros r c. rewrite Hcells.
    destruct (Z.leb_spec (minrow a) r) as [H1|H1];
      destruct (Z.ltb_spec r (Z.max (minrow a) (maxrow a + 1))) as [H2|H2];
      cbn [andb]; try reflexivity.
    + rewrite !cell_outside; [reflexivity | exact Hwf | | exact Hwf |].
      * unfold Check, CheckRow.
        replace (r <=? maxrow a)%Z with false by zbool. rewrite andb_false_r. reflexivity.
      * unfold Check, CheckRow.
        replace (r <=? maxrow a)%Z with false by zbool. rewrite andb_false_r. reflexivity.
    + rewrite !cell_outside; [reflexivity | exact Hwf | | exact Hwf |].
      * unfold Check, CheckRow. replace (minrow a <=? r)%Z with false by zbool. reflexivity.
      * unfold Check, CheckRow. replace (minrow a <=? r)%Z with false by zbool. reflexivity.
    + rewrite !cell_outside; [reflexivity | exact Hwf | | exact Hwf |].
      * unfold Check, CheckRow. replace (minrow a <=? r)%Z with false by zbool. reflexivity.
      * unfold Check, CheckRow. replace (minrow a <=? r)%Z with false by zbool. reflexivity.
Qed.

Lemma CheckColumn_rotated_up a lo hi c :
  (mincol a <= lo <= hi)%Z -> (hi <= maxcol a)%Z ->
  CheckColumn a (rotated_up lo hi c) = CheckColumn a c.
Proof. intros Hlo Hhi. unfold CheckColumn, rotated_up. zbool. Qed.

Lemma CheckColumn_rotated_down a lo hi c :
  (mincol a <= lo <= hi)%Z -> (hi <= maxcol a)%Z ->
  CheckColumn a (rotated_down lo hi c) = CheckColumn a c.
Proof. intros Hlo Hhi. unfold CheckColumn, rotated_down. zbool. Qed.

Lemma CheckColumn_switched a (ca cb : Z) c :
  CheckColumn a ca = true -> CheckColumn a cb = true ->
  CheckColumn a (switched ca cb c) = CheckColumn a c.
Proof.
  intros Ha Hb. apply CheckColumn_true in Ha, Hb. unfold CheckColumn, switched. zbool.
Qed.

Lemma RotateLeft_cells a lo hi :
  wf a -> (mincol a <= lo <= hi)%Z -> (hi <= maxcol a)%Z ->
  returns (RotateLeft a lo hi) (fun a' =>
    same_bounds a a' /\ wf a' /\
    forall r c, cell a' r c = cell a r (rotated_up lo hi c)).
Proof.
  intros Hwf Hlo Hhi. unfold RotateLeft.
  replace ((lo <? mincol a) || (hi <? lo) || (maxcol a <? hi))%Z with false by zbool.
  apply (every_row a (rotated_up lo hi)); [exact Hwf | |].
  - intros c. apply CheckColumn_rotated_up; assumption.
  - intros i s Hwfs (B1 & B2 & B3 & B4) Hi.
    apply RotateLeft_row; [exact Hwfs | lia | lia | lia].
Qed.

Lemma RotateRight_cells a lo hi :
  wf a -> (mincol a <= lo <= hi)%Z -> (hi <= maxcol a)%Z ->
  returns (RotateRight a lo hi) (fun a' =>
    same_bounds a a' /\ wf a' /\
    forall r c, cell a' r c = cell a r (rotated_down lo hi c)).
Proof.
  intros Hwf Hlo Hhi. unfold RotateRight.
  replace ((lo <? mincol a) || (hi <? lo) || (maxcol a <? hi))%Z with false by zbool.
  apply (every_row a (rotated_down lo hi)); [exact Hwf | |].
  - intros c. apply CheckColumn_rotated_down; assumption.
  - intros i s Hwfs (B1 & B2 & B3 & B4) Hi.
    apply RotateRight_row; [exact Hwfs | lia | lia | lia].
Qed.

Lemma SwitchColumns_cells a (ca cb : Z) :
  wf a -> CheckColumn a ca = true -> CheckColumn a cb = true ->
  returns (SwitchColumns a ca cb) (fun a' =>
    same_bounds a a' /\ wf a' /\
    forall r c, cell a' r c = cell a r (switched ca cb c)).
Proof.
  intros Hwf Ha Hb. unfold SwitchColumns. rewrite Ha, Hb. simpl.
  apply (every_row a (switched ca cb)); [exact Hwf | |].
  - intros c. apply CheckColumn_switched; assumption.
  - intros i s Hwfs (B1 & B2 & B3 & B4) Hi.
    apply CheckColumn_true in Ha, Hb.
    apply SwitchColumns_row; [exact Hwfs | lia | lia | lia].
Qed.

Lemma get_from_columns a a' c c' :
  same_bounds a a' -> CheckColumn a c' = CheckColumn a c ->
  (forall r, cell a' r c = cell a r c') -> forall r, get a' r c = get a r c'.
Proof.
  intros Hb Hc Hcell r. apply get_from_cells; [exact Hb | | apply Hcell].
  unfold Check. rewrite Hc. reflexivity.
Qed.

(** X7.
    [RotateLeft(lo, hi)] raises the index exception when the range is
    not inside the columns or is empty, and nothing else; otherwise, in
    every row, column [c + 1] is found at [c] for [lo <= c < hi] and
    column [lo] at [hi]. *)
Theorem RotateLeft_moves_columns a lo hi :
  wf a ->
  ((lo < mincol a \/ hi < lo \/ maxcol a < hi)%Z ->
     RotateLeft a lo hi = Raise gbtIndexException) /\
  (~ (lo < mincol a \/ hi < lo \/ maxcol a < hi)%Z ->
     returns (RotateLeft a lo hi) (fun a' =>
       same_bounds a a' /\ wf a' /\
       forall r c, get a' r c = get a r (rotated_up lo hi c))).
Proof.
  intros Hwf. split.
  - intros Hbad. unfold RotateLeft.
    replace ((lo <? mincol a) || (hi <? lo) || (maxcol a <? hi))%Z with true by zbool.
    reflexivity.
  - intros Hok. eapply returns_weaken; [apply RotateLeft_cells; [exact Hwf | lia | lia]|].
    intros a' (Hb & Hwf' & Hcells). split; [exact Hb|]. split; [exact Hwf'|].
    intros r c. apply get_from_columns; [exact Hb | | intros r'; apply Hcells].
    apply CheckColumn_rotated_up; lia.
Qed.

(** X8.
    [RotateRight(lo, hi)] raises the index exception on the same ranges;
    otherwise, in every row, column [c - 1] is found at [c] for
    [lo < c <= hi] and column [hi] at [lo]. *)
Theorem RotateRight_moves_columns a lo hi :
  wf a ->
  ((lo < mincol a \/ hi < lo \/ maxcol a < hi)%Z ->
     RotateRight a lo hi = Raise gbtIndexException) /\
  (~ (lo < mincol a \/ hi < lo \/ maxcol a < hi)%Z ->
     returns (RotateRight a lo hi) (fun a' =>
       same_bounds a a' /\ wf a' /\
       forall r c, get a' r c = get a r (rotated_down lo hi c))).
Proof.
  intros Hwf. split.
  - intros Hbad. unfold RotateRight.
    replace ((lo <? mincol a) || (hi <? lo) || (maxcol a <? hi))%Z with true by zbool.
    reflexivity.
  - intros Hok. eapply returns_weaken; [apply RotateRight_cells; [exact Hwf | lia | lia]|].
    intros a' (Hb & Hwf' & Hcells). split; [exact Hb|]. split; [exact Hwf'|].
    intros r c. apply get_from_columns; [exact Hb | | intros r'; apply Hcells].
    apply CheckColumn_rotated_down; lia.
Qed.

(** X9.
    A rotation to the right undoes a rotation to the left of the same
    columns, and the other way round. *)
Theorem RotateLeft_RotateRight_inverse a lo hi :
  wf a -> (mincol a <= lo <= hi)%Z -> (hi <= maxcol a)%Z ->
  (a' ← RotateLeft a lo hi; RotateRight a' lo hi) = Ok a /\
  (a' ← RotateRight a lo hi; RotateLeft a' lo hi) = Ok a.
Proof.
  intros Hwf Hlo Hhi. split.
  - destruct (RotateLeft_cells a lo hi Hwf Hlo Hhi) as (a1 & -> & Hb1 & Hwf1 & Hc1).
    simpl. pose proof Hb1 as (B1 & B2 & B3 & B4).
    destruct (RotateRight_cells a1 lo hi Hwf1) as (a2 & -> & Hb2 & Hwf2 & Hc2); [lia | lia|].
    f_equal. apply cells_ext; [exact Hwf | exact Hwf2 | eapply same_bounds_trans; eauto |].
    intros r c. rewrite Hc2, Hc1. f_equal. unfold rotated_up, rotated_down. zbool.
  - destruct (RotateRight_cells a lo hi Hwf Hlo Hhi) as (a1 & -> & Hb1 & Hwf1 & Hc1).
    simpl. pose proof Hb1 as (B1 & B2 & B3 & B4).
    destruct (RotateLeft_cells a1 lo hi Hwf1) as (a2 & -> & Hb2 & Hwf2 & Hc2); [lia | lia|].
    f_equal. apply cells_ext; [exact Hwf | exact Hwf2 | eapply same_bounds_trans; eauto |].
    intros r c. rewrite Hc2, Hc1. f_equal. unfold rotated_up, rotated_down. zbool.
Qed.

(** X10.
    [SwitchColumns(a, b)] raises the index exception when [a] or [b] is
    not a column, and nothing else; otherwise the two columns are
    exchanged in every row and the other columns are left alone. *)
Theorem SwitchColumns_exchanges a (ca cb : Z) :
  wf a ->
  (CheckColumn a ca = false \/ CheckColumn a cb = false ->
     SwitchColumns a ca cb = Raise gbtIndexException) /\
  (CheckColumn a ca = true -> CheckColumn a cb = true ->
     returns (SwitchColumns a ca cb) (fun a' =>
       same_bounds a a' /\ wf a' /\
       (forall r, get a' r ca = get a r cb) /\
       (forall r, get a' r cb = get a r ca) /\
       (forall r c, c <> ca -> c <> cb -> get a' r c = get a r c))).
Proof.
  intros Hwf. split.
  - intros Hbad. unfold SwitchColumns.
    destruct Hbad as [-> | ->]; simpl; [reflexivity|].
    rewrite orb_true_r. reflexivity.
  - intros Ha Hb. eapply returns_weaken; [apply SwitchColumns_cells; assumption|].
    intros a' (Hbd & Hwf' & Hcells). split; [exact Hbd|]. split; [exact Hwf'|].
    assert (Hget : forall r c, get a' r c = get a r (switched ca cb c)).
    { intros r c. apply get_from_columns; [exact Hbd | | intros r'; apply Hcells].
      apply CheckColumn_switched; assumption. }
    split; [|split].
    + intros r. rewrite Hget. f_equal. unfold switched. zbool.
    + intros r. rewrite Hget. f_equal. unfold switched. zbool.
    + intros r c Hca Hcb. rewrite Hget. f_equal. unfold switched. zbool.
Qed.

(** X11.
    Exchanging the same two columns twice gives the array back, and so
    does exchanging a column with itself. *)
Theorem SwitchColumns_involutive a (ca cb : Z) :
  wf a -> CheckColumn a ca = true -> CheckColumn a cb = true ->
  (a' ← SwitchColumns a ca cb; SwitchColumns a' ca cb) = Ok a /\
  SwitchColumns a ca ca = Ok a.
Proof.
  intros Hwf Ha Hb. split.
  - destruct (SwitchColumns_cells a ca cb Hwf Ha Hb) as (a1 & -> & Hb1 & Hwf1 & Hc1).
    simpl. pose proof Hb1 as (B1 & B2 & B3 & B4).
    destruct (SwitchColumns_cells a1 ca cb Hwf1) as (a2 & -> & Hb2 & Hwf2 & Hc2).
    { unfold CheckColumn. rewrite B3, B4. exact Ha. }
    { unfold CheckColumn. rewrite B3, B4. exact Hb. }
    f_equal. apply cells_ext; [exact Hwf | exact Hwf2 | eapply same_bounds_trans; eauto |].
    intros r c. rewrite Hc2, Hc1. f_equal. unfold switched. zbool.
  - destruct (SwitchColumns_cells a ca ca Hwf Ha Ha) as (a1 & -> & Hb1 & Hwf1 & Hc1).
    f_equal. apply cells_ext; [exact Hwf | exact Hwf1 | exact Hb1 |].
    intros r c. rewrite Hc1. f_equal. unfold switched. zbool.
Qed.

(** *** Rows and columns exchanged with a [gbtArray] *)

Implicit Types v w : gbtArray T.

Lemma elem_is_Some v i :
  wf_array v -> is_Some (elem v i) <-> (mindex v <= i <= maxdex v)%Z.
Proof.
  unfold wf_array, elem. intros Hlen.
  destruct (Z.leb_spec (mindex v) i) as [Hle|Hlt].
  - rewrite lookup_lt_is_Some, Hlen. lia.
  - split; [intros [x Hx]; discriminate | lia].
Qed.

Lemma arr_get_in v i :
  wf_array v -> (mindex v <= i <= maxdex v)%Z ->
  exists x, elem v i = Some x /\ arr_get v i = Ok x.
Proof.
  intros Hwf Hi. destruct (proj2 (elem_is_Some v i Hwf) Hi) as [x Hx].
  exists x. split; [exact Hx|]. unfold arr_get.
  replace ((mindex v <=? i) && (i <=? maxdex v))%Z with true by zbool.
  rewrite Hx. reflexivity.
Qed.

Lemma arr_put_in v i (x : T) :
  wf_array v -> (mindex v <= i <= maxdex v)%Z ->
  exists v', arr_put v i x = Ok v' /\
    mindex v' = mindex v /\ maxdex v' = maxdex v /\ wf_array v' /\
    elem v' i = Some x /\ (forall i', i' <> i -> elem v' i' = elem v i').
Proof.
  intros Hwf Hi. destruct (proj2 (elem_is_Some v i Hwf) Hi) as [y Hy].
  unfold arr_put.
  replace ((mindex v <=? i) && (i <=? maxdex v))%Z with true by zbool.
  rewrite Hy. simpl. eexists. split; [reflexivity|]. simpl.
  split; [reflexivity|]. split; [reflexivity|].
  unfold elem in Hy.
  replace (mindex v <=? i)%Z with true in Hy by zbool.
  pose proof (lookup_lt_Some _ _ _ Hy) as Hlt.
  split; [|split].
  - unfold wf_array. simpl. rewrite length_insert. exact Hwf.
  - unfold elem. simpl. replace (mindex v <=? i)%Z with true by zbool.
    apply list_lookup_insert_eq. exact Hlt.
  - intros i' Hne. unfold elem. simpl.
    destruct (Z.leb_spec (mindex v) i') as [Hle|Hgt]; [|reflexivity].
    apply list_lookup_insert_ne. lia.
Qed.

Lemma array_ext v v' :
  wf_array v -> wf_array v' -> mindex v' = mindex v -> maxdex v' = maxdex v ->
  (forall i, (mindex v <= i <= maxdex v)%Z -> elem v' i = elem v i) -> v' = v.
Proof.
  destruct v as [lo hi l], v' as [lo' hi' l'].
  unfold wf_array, elem. simpl. intros Hlen Hlen' -> -> Helem.
  f_equal. apply list_eq. intros n.
  destruct (decide (n < length l)%nat) as [Hn|Hn].
  - specialize (Helem (lo + Z.of_nat n)%Z).
    replace (lo <=? lo + Z.of_nat n)%Z with true in Helem by zbool.
    replace (Z.to_nat (lo + Z.of_nat n - lo)) with n in Helem by lia.
    apply Helem. lia.
  - rewrite !lookup_ge_None_2; [reflexivity | lia | lia].
Qed.

(** A vector that has, over the columns of an array, the cells of its
    row [row], reads as that row does. *)
Lemma arr_get_is_get_row a row v :
  wf a -> wf_array v -> CheckRow a row = true ->
  mindex v = mincol a -> maxdex v = maxcol a ->
  (forall c, (mincol a <= c <= maxcol a)%Z -> elem v c = cell a row c) ->
  forall c, arr_get v c = get a row c.
Proof.
  intros Hwf Hwv Hrow E1 E2 Helem c. unfold arr_get, get, Check, CheckColumn.
  rewrite Hrow, E1, E2. simpl.
  destruct ((mincol a <=? c) && (c <=? maxcol a))%Z eqn:Hc; simpl; [|reflexivity].
  rewrite Helem; [reflexivity|].
  apply andb_true_iff in Hc as [H1 H2]. apply Z.leb_le in H1, H2. lia.
Qed.

Lemma arr_get_is_get_column a col v :
  wf a -> wf_array v -> CheckColumn a col = true ->
  mindex v = minrow a -> maxdex v = maxrow a ->
  (forall r, (minrow a <= r <= maxrow a)%Z -> elem v r = cell a r col) ->
  forall r, arr_get v r = get a r col.
Proof.
  intros Hwf Hwv Hcol E1 E2 Helem r. unfold arr_get, get, Check, CheckRow.
  rewrite Hcol, E1, E2, andb_true_r.
  destruct ((minrow a <=? r) && (r <=? maxrow a))%Z eqn:Hr; simpl; [|reflexivity].
  rewrite Helem; [reflexivity|].
  apply andb_true_iff in Hr as [H1 H2]. apply Z.leb_le in H1, H2. lia.
Qed.

Lemma CheckRowArray_true a v :
  CheckRowArray a v = true <-> mindex v = mincol a /\ maxdex v = maxcol a.
Proof.
  unfold CheckRowArray, First, Last. rewrite andb_true_iff, !Z.eqb_eq. reflexivity.
Qed.

Lemma CheckColumnArray_true a v :
  CheckColumnArray a v = true <-> mindex v = minrow a /\ maxdex v = maxrow a.
Proof.
  unfold CheckColumnArray, First, Last. rewrite andb_true_iff, !Z.eqb_eq. reflexivity.
Qed.

Lemma GetRow_elems a row v :
  wf a -> wf_array v -> CheckRow a row = true -> CheckRowArray a v = true ->
  returns (GetRow a row v) (fun v' =>
    mindex v' = mincol a /\ maxdex v' = maxcol a /\ wf_array v' /\
    forall c, (mincol a <= c <= maxcol a)%Z -> elem v' c = cell a row c).
Proof.
  intros Hwf Hwv Hrow Hv. unfold GetRow. rewrite Hrow, Hv. simpl.
  apply CheckRowArray_true in Hv as [E1 E2]. apply CheckRow_true in Hrow.
  eapply returns_weaken.
  - apply (for_range_inv _ (fun i v' =>
      mindex v' = mincol a /\ maxdex v' = maxcol a /\ wf_array v' /\
      forall c, (mincol a <= c < i)%Z -> elem v' c = cell a row c)
      (mincol a) (maxcol a) _ eq_refl).
    + intros i s Hi (F1 & F2 & Hws & Hdone).
      destruct (rd_in_bounds a row i Hwf) as (x & Hx & ->); [apply Check_in; lia|].
      simpl.
      destruct (arr_put_in s i x Hws) as (s' & -> & G1 & G2 & Hws' & Hnew & Ho); [lia|].
      apply returns_Ok. split; [congruence|]. split; [congruence|]. split; [exact Hws'|].
      intros c Hc. destruct (Z.eq_dec c i) as [->|Hne].
      * rewrite Hnew, Hx. reflexivity.
      * rewrite Ho by exact Hne. apply Hdone. lia.
    + split; [exact E1|]. split; [exact E2|]. split; [exact Hwv|]. intros c Hc. lia.
  - intros v' (F1 & F2 & Hwv' & Hall). split; [exact F1|]. split; [exact F2|].
    split; [exact Hwv'|]. intros c Hc. apply Hall. lia.
Qed.

Lemma SetRow_cells a row v :
  wf a -> wf_array v -> CheckRow a row = true -> CheckRowArray a v = true ->
  returns (SetRow a row v) (fun a' =>
    same_bounds a a' /\ wf a' /\
    (forall c, (mincol a <= c <= maxcol a)%Z -> cell a' row c = elem v c) /\
    (forall r c, r <> row -> cell a' r c = cell a r c)).
Proof.
  intros Hwf Hwv Hrow Hv. unfold SetRow. rewrite Hrow, Hv. simpl.
  apply CheckRowArray_true in Hv as [E1 E2]. apply CheckRow_true in Hrow.
  eapply returns_weaken.
  - apply (for_range_inv _ (fun i a' =>
      same_bounds a a' /\ wf a' /\
      (forall c, (mincol a <= c < i)%Z -> cell a' row c = elem v c) /\
      (forall r c, r <> row -> cell a' r c = cell a r c))
      (mincol a) (maxcol a) _ eq_refl).
    + intros i s Hi (Hb & Hws & Hdone & Hrest).
      pose proof Hb as (B1 & B2 & B3 & B4).
      destruct (arr_get_in v i Hwv) as (x & Hx & ->); [lia|]. simpl.
      destruct (wr_in_bounds s row i x Hws) as (s' & -> & Hb' & Hws' & Hnew & Ho);
        [apply Check_in; lia|].
      apply returns_Ok.
      split; [eapply same_bounds_trans; eauto|]. split; [exact Hws'|]. split.
      * intros c Hc. destruct (Z.eq_dec c i) as [->|Hne].
        -- rewrite Hnew, Hx. reflexivity.
        -- rewrite Ho by (right; exact Hne). apply Hdone. lia.
      * intros r c Hr. rewrite Ho by (left; exact Hr). apply Hrest, Hr.
    + split; [apply same_bounds_refl|]. split; [exact Hwf|].
      split; [intros c Hc; lia | reflexivity].
  - intros a' (Hb & Hwf' & Hall & Hrest). split; [exact Hb|]. split; [exact Hwf'|].
    split; [|exact Hrest]. intros c Hc. apply Hall. lia.
Qed.

Lemma SwitchRow_cells a row v :
  wf a -> wf_array v -> CheckRow a row = true -> CheckRowArray a v = true ->
  returns (SwitchRow a row v) (fun '(a', v') =>
    same_bounds a a' /\ wf a' /\
    mindex v' = mincol a /\ maxdex v' = maxcol a /\ wf_array v' /\
    (forall c, (mincol a <= c <= maxcol a)%Z ->
       cell a' row c = elem v c /\ elem v' c = cell a row c) /\
    (forall r c, r <> row -> cell a' r c = cell a r c)).
Proof.
  intros Hwf Hwv Hrow Hv. unfold SwitchRow. rewrite Hrow, Hv. simpl.
  apply CheckRowArray_true in Hv as [E1 E2]. apply CheckRow_true in Hrow.
  eapply returns_weaken.
  - apply (for_range_inv _ (fun i '(a', v') =>
      same_bounds a a' /\ wf a' /\
      mindex v' = mincol a /\ maxdex v' = maxcol a /\ wf_array v' /\
      (forall c, (mincol a <= c < i)%Z ->
         cell a' row c = elem v c /\ elem v' c = cell a row c) /\
      (forall c, (i <= c)%Z -> cell a' row c = cell a row c /\ elem v' c = elem v c) /\
      (forall r c, r <> row -> cell a' r c = cell a r c))
      (mincol a) (maxcol a) _ eq_refl).
    + intros i [s w] Hi (Hb & Hws & F1 & F2 & Hww & Hdone & Hleft & Hrest).
      pose proof Hb as (B1 & B2 & B3 & B4).
      destruct (rd_in_bounds s row i Hws) as (tmp & Htmp & ->); [apply Check_in; lia|].
      destruct (arr_get_in w i Hww) as (x & Hx & ->); [lia|]. simpl.
      destruct (wr_in_bounds s row i x Hws) as (s' & -> & Hb' & Hws' & Hnew & Ho);
        [apply Check_in; lia|].
      simpl.
      destruct (arr_put_in w i tmp Hww) as (w' & -> & G1 & G2 & Hww' & Hnew' & Ho'); [lia|].
      apply returns_Ok.
      split; [eapply same_bounds_trans; eauto|]. split; [exact Hws'|].
      split; [congruence|]. split; [congruence|]. split; [exact Hww'|].
      destruct (Hleft i) as [T1 T2]; [lia|].
      split; [|split].
      * intros c Hc. destruct (Z.eq_dec c i) as [->|Hne].
        -- rewrite Hnew, Hnew', <- Hx, <- Htmp, T1, T2. split; reflexivity.
        -- rewrite Ho by (right; exact Hne). rewrite Ho' by exact Hne.
           apply Hdone. lia.
      * intros c Hc. rewrite Ho by (right; lia). rewrite Ho' by lia.
        apply Hleft. lia.
      * intros r c Hr. rewrite Ho by (left; exact Hr). apply Hrest, Hr.
    + split; [apply same_bounds_refl|]. split; [exact Hwf|].
      split; [exact E1|]. split; [exact E2|]. split; [exact Hwv|].
      split; [intros c Hc; lia|]. split; [intros c Hc; split; reflexivity | reflexivity].
  - intros [a' v'] (Hb & Hwf' & F1 & F2 & Hwv' & Hall & _ & Hrest).
    split; [exact Hb|]. split; [exact Hwf'|]. split; [exact F1|]. split; [exact F2|].
    split; [exact Hwv'|]. split; [|exact Hrest]. intros c Hc. apply Hall. lia.
Qed.

Lemma cell_row_outside a r c :
  wf a -> ~ (mincol a <= c <= maxcol a)%Z -> cell a r c = None.
Proof.
  intros Hwf Hc. apply cell_outside; [exact Hwf|].
  unfold Check, CheckColumn. replace ((mincol a <=? c) && (c <=? maxcol a))%Z with false by zbool.
  apply andb_false_r.
Qed.

Lemma cell_column_outside a r c :
  wf a -> ~ (minrow a <= r <= maxrow a)%Z -> cell a r c = None.
Proof.
  intros Hwf Hr. apply cell_outside; [exact Hwf|].
  unfold Check, CheckRow. replace ((minrow a <=? r) && (r <=? maxrow a))%Z with false by zbool.
  reflexivity.
Qed.

(** X12.
    [GetRow(row, v)] raises the index exception when [row] is not a row,
    the dimension exception when [row] is a row and the bounds of [v] are
    not the column bounds, and nothing else; otherwise [v] keeps its
    bounds and holds the row: [v[c]] is [operator()(row, c)] for every
    [c], out of range or not. *)
Theorem GetRow_reads_row a row v :
  wf a -> wf_array v ->
  (CheckRow a row = false -> GetRow a row v = Raise gbtIndexException) /\
  (CheckRow a row = true -> CheckRowArray a v = false ->
     GetRow a row v = Raise gbtDimensionException) /\
  (CheckRow a row = true -> CheckRowArray a v = true ->
     returns (GetRow a row v) (fun v' =>
       First v' = First v /\ Last v' = Last v /\ wf_array v' /\
       forall c, arr_get v' c = get a row c)).
Proof.
  intros Hwf Hwv. split; [|split].
  - intros H. unfold GetRow. rewrite H. reflexivity.
  - intros H1 H2. unfold GetRow. rewrite H1, H2. reflexivity.
  - intros H1 H2.
    eapply returns_weaken; [apply GetRow_elems; assumption|].
    intros v' (F1 & F2 & Hwv' & Helem).
    apply CheckRowArray_true in H2 as [E1 E2]. unfold First, Last.
    split; [congruence|]. split; [congruence|]. split; [exact Hwv'|].
    apply arr_get_is_get_row; assumption.
Qed.

(** X13.
    [SetRow(row, v)] raises as [GetRow] does; otherwise the bounds are
    kept, row [row] holds [v] and the other rows are left alone. *)
Theorem SetRow_writes_row a row v :
  wf a -> wf_array v ->
  (CheckRow a row = false -> SetRow a row v = Raise gbtIndexException) /\
  (CheckRow a row = true -> CheckRowArray a v = false ->
     SetRow a row v = Raise gbtDimensionException) /\
  (CheckRow a row = true -> CheckRowArray a v = true ->
     returns (SetRow a row v) (fun a' =>
       same_bounds a a' /\ wf a' /\
       (forall c, get a' row c = arr_get v c) /\
       (forall r c, r <> row -> get a' r c = get a r c))).
Proof.
  intros Hwf Hwv. split; [|split].
  - intros H. unfold SetRow. rewrite H. reflexivity.
  - intros H1 H2. unfold SetRow. rewrite H1, H2. reflexivity.
  - intros H1 H2.
    eapply returns_weaken; [apply SetRow_cells; assumption|].
    intros a' (Hb & Hwf' & Hrow & Hrest).
    pose proof Hb as (B1 & B2 & B3 & B4).
    apply CheckRowArray_true in H2 as [E1 E2].
    split; [exact Hb|]. split; [exact Hwf'|]. split.
    + intros c. symmetry. apply arr_get_is_get_row; try assumption.
      * unfold CheckRow. rewrite B1, B2. exact H1.
      * congruence.
      * congruence.
      * intros c' Hc'. symmetry. apply Hrow. lia.
    + intros r c Hr. apply get_from_cells; [exact Hb | reflexivity | apply Hrest, Hr].
Qed.

(** X14.
    Reading back a row that was written gives the vector written, and
    writing back a row that was read leaves the array as it was. *)
Theorem SetRow_GetRow_round_trip a row v w :
  wf a -> wf_array v -> wf_array w ->
  CheckRow a row = true -> CheckRowArray a v = true -> CheckRowArray a w = true ->
  (a' ← SetRow a row v; GetRow a' row w) = Ok v /\
  (v' ← GetRow a row w; SetRow a row v') = Ok a.
Proof.
  intros Hwf Hwv Hww Hrow Hv Hw. split.
  - destruct (SetRow_cells a row v Hwf Hwv Hrow Hv) as (a1 & -> & Hb & Hwf1 & Hr1 & _).
    simpl. pose proof Hb as (B1 & B2 & B3 & B4).
    destruct (GetRow_elems a1 row w Hwf1 Hww) as (v1 & -> & F1 & F2 & Hwv1 & Hr2).
    { unfold CheckRow. rewrite B1, B2. exact Hrow. }
    { unfold CheckRowArray. rewrite B3, B4. exact Hw. }
    apply CheckRowArray_true in Hv as [E1 E2].
    f_equal. apply array_ext; [exact Hwv | exact Hwv1 | congruence | congruence |].
    intros i Hi. rewrite Hr2 by lia. apply Hr1. lia.
  - destruct (GetRow_elems a row w Hwf Hww Hrow Hw) as (v1 & -> & F1 & F2 & Hwv1 & Hr1).
    simpl.
    destruct (SetRow_cells a row v1 Hwf Hwv1 Hrow) as (a1 & -> & Hb & Hwf1 & Hr2 & Hrest).
    { apply CheckRowArray_true. split; assumption. }
    f_equal. apply cells_ext; [exact Hwf | exact Hwf1 | exact Hb |].
    intros r c. destruct (Z.eq_dec r row) as [->|Hne]; [|apply Hrest, Hne].
    destruct (decide (mincol a <= c <= maxcol a)%Z) as [Hc|Hc].
    + rewrite Hr2 by exact Hc. apply Hr1, Hc.
    + pose proof Hb as (B1 & B2 & B3 & B4).
      rewrite !cell_row_outside; [reflexivity | exact Hwf | exact Hc | exact Hwf1 | lia].
Qed.

(** X15.
    [SwitchRow(row, v)] raises as [GetRow] does; otherwise the row and
    the vector have changed places, the other rows are left alone, and a
    second exchange puts both back. *)
Theorem SwitchRow_exchanges a row v :
  wf a -> wf_array v ->
  (CheckRow a row = false -> SwitchRow a row v = Raise gbtIndexException) /\
  (CheckRow a row = true -> CheckRowArray a v = false ->
     SwitchRow a row v = Raise gbtDimensionException) /\
  (CheckRow a row = true -> CheckRowArray a v = true ->
     returns (SwitchRow a row v) (fun '(a', v') =>
       same_bounds a a' /\ wf a' /\
       First v' = First v /\ Last v' = Last v /\ wf_array v' /\
       (forall c, get a' row c = arr_get v c) /\
       (forall c, arr_get v' c = get a row c) /\
       (forall r c, r <> row -> get a' r c = get a r c) /\
       SwitchRow a' row v' = Ok (a, v))).
Proof.
  intros Hwf Hwv. split; [|split].
  - intros H. unfold SwitchRow. rewrite H. reflexivity.
  - intros H1 H2. unfold SwitchRow. rewrite H1, H2. reflexivity.
  - intros H1 H2.
    destruct (SwitchRow_cells a row v Hwf Hwv H1 H2)
      as ([a1 v1] & -> & Hb & Hwf1 & F1 & F2 & Hwv1 & Hrow & Hrest).
    apply returns_Ok.
    pose proof Hb as (B1 & B2 & B3 & B4).
    pose proof (proj1 (CheckRowArray_true a v) H2) as [E1 E2].
    assert (H1' : CheckRow a1 row = true) by (unfold CheckRow; rewrite B1, B2; exact H1).
    split; [exact Hb|]. split; [exact Hwf1|]. unfold First, Last.
    split; [congruence|]. split; [congruence|]. split; [exact Hwv1|].
    split; [|split; [|split]].
    + intros c. symmetry. apply arr_get_is_get_row; try assumption; try congruence.
      intros c' Hc'. symmetry. apply Hrow. lia.
    + apply arr_get_is_get_row; try assumption. intros c Hc. apply Hrow, Hc.
    + intros r c Hr. apply get_from_cells; [exact Hb | reflexivity | apply Hrest, Hr].
    + destruct (SwitchRow_cells a1 row v1 Hwf1 Hwv1 H1')
        as ([a2 v2] & -> & Hb2 & Hwf2 & G1 & G2 & Hwv2 & Hrow2 & Hrest2).
      { apply CheckRowArray_true. split; congruence. }
      f_equal. f_equal.
      * apply cells_ext; [exact Hwf | exact Hwf2 | eapply same_bounds_trans; eauto |].
        intros r c. destruct (Z.eq_dec r row) as [->|Hne].
        -- destruct (decide (mincol a <= c <= maxcol a)%Z) as [Hc|Hc].
           ++ rewrite (proj1 (Hrow2 c ltac:(lia))). apply Hrow, Hc.
           ++ pose proof Hb2 as (C1 & C2 & C3 & C4).
              rewrite !cell_row_outside; [reflexivity | exact Hwf | exact Hc | exact Hwf2 | lia].
        -- rewrite Hrest2 by exact Hne. apply Hrest, Hne.
      * apply array_ext; [exact Hwv | exact Hwv2 | congruence | congruence |].
        intros i Hi. rewrite (proj2 (Hrow2 i ltac:(lia))). apply Hrow. lia.
Qed.

Lemma GetColumn_elems a col v :
  wf a -> wf_array v -> CheckColumn a col = true -> CheckColumnArray a v = true ->
  returns (GetColumn a col v) (fun v' =>
    mindex v' = minrow a /\ maxdex v' = maxrow a /\ wf_array v' /\
    forall r, (minrow a <= r <= maxrow a)%Z -> elem v' r = cell a r col).
Proof.
  intros Hwf Hwv Hcol Hv. unfold GetColumn. rewrite Hcol, Hv. simpl.
  apply CheckColumnArray_true in Hv as [E1 E2]. apply CheckColumn_true in Hcol.
  eapply returns_weaken.
  - apply (for_range_inv _ (fun i v' =>
      mindex v' = minrow a /\ maxdex v' = maxrow a /\ wf_array v' /\
      forall r, (minrow a <= r < i)%Z -> elem v' r = cell a r col)
      (minrow a) (maxrow a) _ eq_refl).
    + intros i s Hi (F1 & F2 & Hws & Hdone).
      destruct (rd_in_bounds a i col Hwf) as (x & Hx & ->); [apply Check_in; lia|].
      simpl.
      destruct (arr_put_in s i x Hws) as (s' & -> & G1 & G2 & Hws' & Hnew & Ho); [lia|].
      apply returns_Ok. split; [congruence|]. split; [congruence|]. split; [exact Hws'|].
      intros r Hr. destruct (Z.eq_dec r i) as [->|Hne].
      * rewrite Hnew, Hx. reflexivity.
      * rewrite Ho by exact Hne. apply Hdone. lia.
    + split; [exact E1|]. split; [exact E2|]. split; [exact Hwv|]. intros r Hr. lia.
  - intros v' (F1 & F2 & Hwv' & Hall). split; [exact F1|]. split; [exact F2|].
    split; [exact Hwv'|]. intros r Hr. apply Hall. lia.
Qed.

Lemma SetColumn_cells a col v :
  wf a -> wf_array v -> CheckColumn a col = true -> CheckColumnArray a v = true ->
  returns (SetColumn a col v) (fun a' =>
    same_bounds a a' /\ wf a' /\
    (forall r, (minrow a <= r <= maxrow a)%Z -> cell a' r col = elem v r) /\
    (forall r c, c <> col -> cell a' r c = cell a r c)).
Proof.
  intros Hwf Hwv Hcol Hv. unfold SetColumn. rewrite Hcol, Hv. simpl.
  apply CheckColumnArray_true in Hv as [E1 E2]. apply CheckColumn_true in Hcol.
  eapply returns_weaken.
  - apply (for_range_inv _ (fun i a' =>
      same_bounds a a' /\ wf a' /\
      (forall r, (minrow a <= r < i)%Z -> cell a' r col = elem v r) /\
      (forall r c, c <> col -> cell a' r c = cell a r c))
      (minrow a) (maxrow a) _ eq_refl).
    + intros i s Hi (Hb & Hws & Hdone & Hrest).
      pose proof Hb as (B1 & B2 & B3 & B4).
      destruct (arr_get_in v i Hwv) as (x & Hx & ->); [lia|]. simpl.
      destruct (wr_in_bounds s i col x Hws) as (s' & -> & Hb' & Hws' & Hnew & Ho);
        [apply Check_in; lia|].
      apply returns_Ok.
      split; [eapply same_bounds_trans; eauto|]. split; [exact Hws'|]. split.
      * intros r Hr. destruct (Z.eq_dec r i) as [->|Hne].
        -- rewrite Hnew, Hx. reflexivity.
        -- rewrite Ho by (left; exact Hne). apply Hdone. lia.
      * intros r c Hc. rewrite Ho by (right; exact Hc). apply Hrest, Hc.
    + split; [apply same_bounds_refl|]. split; [exact Hwf|].
      split; [intros r Hr; lia | reflexivity].
  - intros a' (Hb & Hwf' & Hall & Hrest). split; [exact Hb|]. split; [exact Hwf'|].
    split; [|exact Hrest]. intros r Hr. apply Hall. lia.
Qed.

Lemma SwitchColumn_cells a col v :
  wf a -> wf_array v -> CheckColumn a col = true -> CheckColumnArray a v = true ->
  returns (SwitchColumn a col v) (fun '(a', v') =>
    same_bounds a a' /\ wf a' /\
    mindex v' = minrow a /\ maxdex v' = maxrow a /\ wf_array v' /\
    (forall r, (minrow a <= r <= maxrow a)%Z ->
       cell a' r col = elem v r /\ elem v' r = cell a r col) /\
    (forall r c, c <> col -> cell a' r c = cell a r c)).
Proof.
  intros Hwf Hwv Hcol Hv. unfold SwitchColumn. rewrite Hcol, Hv. simpl.
  apply CheckColumnArray_true in Hv as [E1 E2]. apply CheckColumn_true in Hcol.
  eapply returns_weaken.
  - apply (for_range_inv _ (fun i '(a', v') =>
      same_bounds a a' /\ wf a' /\
      mindex v' = minrow a /\ maxdex v' = maxrow a /\ wf_array v' /\
      (forall r, (minrow a <= r < i)%Z ->
         cell a' r col = elem v r /\ elem v' r = cell a r col) /\
      (forall r, (i <= r)%Z -> cell a' r col = cell a r col /\ elem v' r = elem v r) /\
      (forall r c, c <> col -> cell a' r c = cell a r c))
      (minrow a) (maxrow a) _ eq_refl).
    + intros i [s w] Hi (Hb & Hws & F1 & F2 & Hww & Hdone & Hleft & Hrest).
      pose proof Hb as (B1 & B2 & B3 & B4).
      destruct (rd_in_bounds s i col Hws) as (tmp & Htmp & ->); [apply Check_in; lia|].
      destruct (arr_get_in w i Hww) as (x & Hx & ->); [lia|]. simpl.
      destruct (wr_in_bounds s i col x Hws) as (s' & -> & Hb' & Hws' & Hnew & Ho);
        [apply Check_in; lia|].
      simpl.
      destruct (arr_put_in w i tmp Hww) as (w' & -> & G1 & G2 & Hww' & Hnew' & Ho'); [lia|].
      apply returns_Ok.
      split; [eapply same_bounds_trans; eauto|]. split; [exact Hws'|].
      split; [congruence|]. split; [congruence|]. split; [exact Hww'|].
      destruct (Hleft i) as [T1 T2]; [lia|].
      split; [|split].
      * intros r Hr. destruct (Z.eq_dec r i) as [->|Hne].
        -- rewrite Hnew, Hnew', <- Hx, <- Htmp, T1, T2. split; reflexivity.
        -- rewrite Ho by (left; exact Hne). rewrite Ho' by exact Hne.
           apply Hdone. lia.
      * intros r Hr. rewrite Ho by (left; lia). rewrite Ho' by lia.
        apply Hleft. lia.
      * intros r c Hc. rewrite Ho by (right; exact Hc). apply Hrest, Hc.
    + split; [apply same_bounds_refl|]. split; [exact Hwf|].
      split; [exact E1|]. split; [exact E2|]. split; [exact Hwv|].
      split; [intros r Hr; lia|]. split; [intros r Hr; split; reflexivity | reflexivity].
  - intros [a' v'] (Hb & Hwf' & F1 & F2 & Hwv' & Hall & _ & Hrest).
    split; [exact Hb|]. split; [exact Hwf'|]. split; [exact F1|]. split; [exact F2|].
    split; [exact Hwv'|]. split; [|exact Hrest]. intros r Hr. apply Hall. lia.
Qed.

(** X16.
    [GetColumn(col, v)] raises the index exception when [col] is not a
    column, the dimension exception when [col] is a column and the bounds
    of [v] are not the row bounds, and nothing else; otherwise [v] keeps
    its bounds and holds the column: [v[r]] is [operator()(r, col)] for
    every [r]. *)
Theorem GetColumn_reads_column a col v :
  wf a -> wf_array v ->
  (CheckColumn a col = false -> GetColumn a col v = Raise gbtIndexException) /\
  (CheckColumn a col = true -> CheckColumnArray a v = false ->
     GetColumn a col v = Raise gbtDimensionException) /\
  (CheckColumn a col = true -> CheckColumnArray a v = true ->
     returns (GetColumn a col v) (fun v' =>
       First v' = First v /\ Last v' = Last v /\ wf_array v' /\
       forall r, arr_get v' r = get a r col)).
Proof.
  intros Hwf Hwv. split; [|split].
  - intros H. unfold GetColumn. rewrite H. reflexivity.
  - intros H1 H2. unfold GetColumn. rewrite H1, H2. reflexivity.
  - intros H1 H2.
    eapply returns_weaken; [apply GetColumn_elems; assumption|].
    intros v' (F1 & F2 & Hwv' & Helem).
    apply CheckColumnArray_true in H2 as [E1 E2]. unfold First, Last.
    split; [congruence|]. split; [congruence|]. split; [exact Hwv'|].
    apply arr_get_is_get_column; assumption.
Qed.

(** X17.
    [SetColumn(col, v)] raises as [GetColumn] does; otherwise the bounds
    are kept, column [col] holds [v] and the other columns are left
    alone. *)
Theorem SetColumn_writes_column a col v :
  wf a -> wf_array v ->
  (CheckColumn a col = false -> SetColumn a col v = Raise gbtIndexException) /\
  (CheckColumn a col = true -> CheckColumnArray a v = false ->
     SetColumn a col v = Raise gbtDimensionException) /\
  (CheckColumn a col = true -> CheckColumnArray a v = true ->
     returns (SetColumn a col v) (fun a' =>
       same_bounds a a' /\ wf a' /\
       (forall r, get a' r col = arr_get v r) /\
       (forall r c, c <> col -> get a' r c = get a r c))).
Proof.
  intros Hwf Hwv. split; [|split].
  - intros H. unfold SetColumn. rewrite H. reflexivity.
  - intros H1 H2. unfold SetColumn. rewrite H1, H2. reflexivity.
  - intros H1 H2.
    eapply returns_weaken; [apply SetColumn_cells; assumption|].
    intros a' (Hb & Hwf' & Hcol & Hrest).
    pose proof Hb as (B1 & B2 & B3 & B4).
    apply CheckColumnArray_true in H2 as [E1 E2].
    split; [exact Hb|]. split; [exact Hwf'|]. split.
    + intros r. symmetry. apply arr_get_is_get_column; try assumption.
      * unfold CheckColumn. rewrite B3, B4. exact H1.
      * congruence.
      * congruence.
      * intros r' Hr'. symmetry. apply Hcol. lia.
    + intros r c Hc. apply get_from_cells; [exact Hb | reflexivity | apply Hrest, Hc].
Qed.

(** X18.
    Reading back a column that was written gives the vector written, and
    writing back a column that was read leaves the array as it was. *)
Theorem SetColumn_GetColumn_round_trip a col v w :
  wf a -> wf_array v -> wf_array w ->
  CheckColumn a col = true -> CheckColumnArray a v = true ->
  CheckColumnArray a w = true ->
  (a' ← SetColumn a col v; GetColumn a' col w) = Ok v /\
  (v' ← GetColumn a col w; SetColumn a col v') = Ok a.
Proof.
  intros Hwf Hwv Hww Hcol Hv Hw. split.
  - destruct (SetColumn_cells a col v Hwf Hwv Hcol Hv) as (a1 & -> & Hb & Hwf1 & Hr1 & _).
    simpl. pose proof Hb as (B1 & B2 & B3 & B4).
    destruct (GetColumn_elems a1 col w Hwf1 Hww) as (v1 & -> & F1 & F2 & Hwv1 & Hr2).
    { unfold CheckColumn. rewrite B3, B4. exact Hcol. }
    { unfold CheckColumnArray. rewrite B1, B2. exact Hw. }
    apply CheckColumnArray_true in Hv as [E1 E2].
    f_equal. apply array_ext; [exact Hwv | exact Hwv1 | congruence | congruence |].
    intros i Hi. rewrite Hr2 by lia. apply Hr1. lia.
  - destruct (GetColumn_elems a col w Hwf Hww Hcol Hw) as (v1 & -> & F1 & F2 & Hwv1 & Hr1).
    simpl.
    destruct (SetColumn_cells a col v1 Hwf Hwv1 Hcol) as (a1 & -> & Hb & Hwf1 & Hr2 & Hrest).
    { apply CheckColumnArray_true. split; assumption. }
    f_equal. apply cells_ext; [exact Hwf | exact Hwf1 | exact Hb |].
    intros r c. destruct (Z.eq_dec c col) as [->|Hne]; [|apply Hrest, Hne].
    destruct (decide (minrow a <= r <= maxrow a)%Z) as [Hr|Hr].
    + rewrite Hr2 by exact Hr. apply Hr1, Hr.
    + pose proof Hb as (B1 & B2 & B3 & B4).
      rewrite !cell_column_outside; [reflexivity | exact Hwf | exact Hr | exact Hwf1 | lia].
Qed.

(** X19.
    [SwitchColumn(col, v)] raises as [GetColumn] does; otherwise the
    column and the vector have changed places, the other columns are left
    alone, and a second exchange puts both back. *)
Theorem SwitchColumn_exchanges a col v :
  wf a -> wf_array v ->
  (CheckColumn a col = false -> SwitchColumn a col v = Raise gbtIndexException) /\
  (CheckColumn a col = true -> CheckColumnArray a v = false ->
     SwitchColumn a col v = Raise gbtDimensionException) /\
  (CheckColumn a col = true -> CheckColumnArray a v = true ->
     returns (SwitchColumn a col v) (fun '(a', v') =>
       same_bounds a a' /\ wf a' /\
       First v' = First v /\ Last v' = Last v /\ wf_array v' /\
       (forall r, get a' r col = arr_get v r) /\
       (forall r, arr_get v' r = get a r col) /\
       (forall r c, c <> col -> get a' r c = get a r c) /\
       SwitchColumn a' col v' = Ok (a, v))).
Proof.
  intros Hwf Hwv. split; [|split].
  - intros H. unfold SwitchColumn. rewrite H. reflexivity.
  - intros H1 H2. unfold SwitchColumn. rewrite H1, H2. reflexivity.
  - intros H1 H2.
    destruct (SwitchColumn_cells a col v Hwf Hwv H1 H2)
      as ([a1 v1] & -> & Hb & Hwf1 & F1 & F2 & Hwv1 & Hcol & Hrest).
    apply returns_Ok.
    pose proof Hb as (B1 & B2 & B3 & B4).
    pose proof (proj1 (CheckColumnArray_true a v) H2) as [E1 E2].
    assert (H1' : CheckColumn a1 col = true)
      by (unfold CheckColumn; rewrite B3, B4; exact H1).
    split; [exact Hb|]. split; [exact Hwf1|]. unfold First, Last.
    split; [congruence|]. split; [congruence|]. split; [exact Hwv1|].
    split; [|split; [|split]].
    + intros r. symmetry. apply arr_get_is_get_column; try assumption; try congruence.
      intros r' Hr'. symmetry. apply Hcol. lia.
    + apply arr_get_is_get_column; try assumption. intros r Hr. apply Hcol, Hr.
    + intros r c Hc. apply get_from_cells; [exact Hb | reflexivity | apply Hrest, Hc].
    + destruct (SwitchColumn_cells a1 col v1 Hwf1 Hwv1 H1')
        as ([a2 v2] & -> & Hb2 & Hwf2 & G1 & G2 & Hwv2 & Hcol2 & Hrest2).
      { apply CheckColumnArray_true. split; congruence. }
      f_equal. f_equal.
      * apply cells_ext; [exact Hwf | exact Hwf2 | eapply same_bounds_trans; eauto |].
        intros r c. destruct (Z.eq_dec c col) as [->|Hne].
        -- destruct (decide (minrow a <= r <= maxrow a)%Z) as [Hr|Hr].
           ++ rewrite (proj1 (Hcol2 r ltac:(lia))). apply Hcol, Hr.
           ++ pose proof Hb2 as (C1 & C2 & C3 & C4).
              rewrite !cell_column_outside;
                [reflexivity | exact Hwf | exact Hr | exact Hwf2 | lia].
        -- rewrite Hrest2 by exact Hne. apply Hrest, Hne.
      * apply array_ext; [exact Hwv | exact Hwv2 | congruence | congruence |].
        intros i Hi. rewrite (proj2 (Hcol2 i ltac:(lia))). apply Hcol. lia.
Qed.

(** *** Copies *)

Lemma copy_cells (fresh : T) a :
  wf a ->
  returns (copy fresh a) (fun b =>
    same_bounds a b /\ wf b /\
    forall r c, Check a r c = true -> cell b r c = cell a r c).
Proof.
  intros Hwf. unfold copy.
  set (this := mkRectArray _ _ _ _ _).
  assert (Hb0 : same_bounds a this) by (unfold same_bounds; simpl; auto).
  assert (Hwf0 : wf this).
  { split; simpl; [apply length_replicate | apply Forall_replicate, length_replicate]. }
  clearbody this.
  eapply returns_weaken.
  - apply (for_range_inv _ (fun i b =>
      same_bounds a b /\ wf b /\
      forall r c, (minrow a <= r < i)%Z -> (mincol a <= c <= maxcol a)%Z ->
        cell b r c = cell a r c)
      (minrow a) (maxrow a) _ eq_refl).
    + intros i s Hi (Hb & Hws & Hdone).
      eapply returns_weaken.
      * apply (for_range_inv _ (fun j b =>
          same_bounds a b /\ wf b /\
          (forall r c, (minrow a <= r < i)%Z -> (mincol a <= c <= maxcol a)%Z ->
             cell b r c = cell a r c) /\
          (forall c, (mincol a <= c < j)%Z -> cell b i c = cell a i c))
          (mincol a) (maxcol a) _ eq_refl).
        -- intros j s2 Hj (Hb2 & Hws2 & Hrows & Hcols).
           pose proof Hb2 as (B1 & B2 & B3 & B4).
           destruct (rd_in_bounds a i j Hwf) as (x & Hx & ->); [apply Check_in; lia|].
           simpl.
           destruct (wr_in_bounds s2 i j x Hws2) as (s3 & -> & Hb3 & Hws3 & Hnew & Ho);
             [apply Check_in; lia|].
           apply returns_Ok.
           split; [eapply same_bounds_trans; eauto|]. split; [exact Hws3|]. split.
           ++ intros r c Hr Hc. rewrite Ho by (left; lia). apply Hrows; assumption.
           ++ intros c Hc. destruct (Z.eq_dec c j) as [->|Hne].
              ** rewrite Hnew, Hx. reflexivity.
              ** rewrite Ho by (right; exact Hne). apply Hcols. lia.
        -- split; [exact Hb|]. split; [exact Hws|]. split; [exact Hdone|].
           intros c Hc. lia.
      * intros s2 (Hb2 & Hws2 & Hrows & Hcols).
        split; [exact Hb2|]. split; [exact Hws2|].
        intros r c Hr Hc. destruct (Z.eq_dec r i) as [->|Hne].
        -- apply Hcols. lia.
        -- apply Hrows; [lia | exact Hc].
    + split; [exact Hb0|]. split; [exact Hwf0|]. intros r c Hr. lia.
  - intros b (Hb & Hwfb & Hall). split; [exact Hb|]. split; [exact Hwfb|].
    intros r c Hc. apply Check_true in Hc. apply Hall; lia.
Qed.

(** X20.
    The copy constructor and the assignment from another array give an
    array with the bounds and the elements of their argument, whatever a
    new element holds and whatever the target held before: as a value,
    the argument itself. *)
Theorem copy_is_faithful (fresh : T) a :
  wf a ->
  copy fresh a = Ok a /\
  (forall this, assign fresh this (Some a) = Ok a).
Proof.
  intros Hwf.
  assert (Hcopy : copy fresh a = Ok a).
  { destruct (copy_cells fresh a Hwf) as (b & -> & Hb & Hwfb & Hcells).
    f_equal. apply cells_ext; [exact Hwf | exact Hwfb | exact Hb |].
    intros r c. destruct (Check a r c) eqn:Hc; [apply Hcells, Hc|].
    rewrite (cell_outside a r c Hwf Hc). apply cell_outside; [exact Hwfb|].
    rewrite (Check_same_bounds a b r c Hb). exact Hc. }
  split; [exact Hcopy | intros this; exact Hcopy].
Qed.

(** *** [Transpose], in general *)

Lemma for_seq_app {I S : Type} (l1 l2 : list I) (body : I -> S -> outcome S) (s : S) :
  for_seq (l1 ++ l2) body s = (s' ← for_seq l1 body s; for_seq l2 body s').
Proof.
  revert s. induction l1 as [|i l1 IH]; intros s; simpl; [reflexivity|].
  destruct (body i s) as [s'| |]; simpl; [apply IH | reflexivity | reflexivity].
Qed.

Lemma for_range_split {S : Type} (lo hi k : Z) (body : Z -> S -> outcome S) (s : S) :
  (lo <= k <= hi)%Z ->
  for_range lo hi body s =
  (s1 ← for_range lo (k - 1) body s; s2 ← body k s1; for_range (k + 1) hi body s2).
Proof.
  intros Hk. unfold for_range.
  replace (hi - lo + 1)%Z with ((k - 1 - lo + 1) + (1 + (hi - (k + 1) + 1)))%Z by lia.
  rewrite seqZ_app by lia. rewrite for_seq_app.
  replace (lo + (k - 1 - lo + 1))%Z with k by lia.
  rewrite seqZ_cons by lia.
  replace (Z.succ k) with (k + 1)%Z by lia.
  replace (Z.pred (1 + (hi - (k + 1) + 1))) with (hi - (k + 1) + 1)%Z by lia.
  reflexivity.
Qed.

Lemma for_range_first {S : Type} (lo hi : Z) (body : Z -> S -> outcome S) (s : S) :
  (lo <= hi)%Z ->
  for_range lo hi body s = (s1 ← body lo s; for_range (lo + 1) hi body s1).
Proof.
  intros Hk. unfold for_range. rewrite seqZ_cons by lia. simpl.
  replace (Z.succ lo) with (lo + 1)%Z by lia.
  replace (Z.pred (hi - lo + 1)) with (hi - (lo + 1) + 1)%Z by lia.
  reflexivity.
Qed.

Lemma for_range_empty {S : Type} (lo hi : Z) (body : Z -> S -> outcome S) (s : S) :
  (hi < lo)%Z -> for_range lo hi body s = Ok s.
Proof. intros Hk. unfold for_range. rewrite seqZ_nil by lia. reflexivity. Qed.

Lemma new_gbtRectArray_cells (fresh : T) (minr maxr minc maxc : Z) t r c :
  new_gbtRectArray fresh minr maxr minc maxc = Ok t ->
  Check t r c = true -> cell t r c = Some fresh.
Proof.
  unfold new_gbtRectArray.
  destruct ((minr <=? maxr) && (maxc - minc + 1 <? 0))%Z; [discriminate|].
  intros [= <-] Hc. apply Check_true in Hc. simpl in Hc. unfold cell. simpl.
  replace ((minr <=? r) && (minc <=? c))%Z with true by zbool.
  rewrite lookup_replicate_2 by lia. apply lookup_replicate_2. lia.
Qed.

(** The inner loop of [Transpose] for row [i], as far as it can go. *)
Lemma Transpose_row (fresh : T) a i hi t :
  wf a -> wf t ->
  minrow t = mincol a -> maxrow t = maxcol a ->
  mincol t = minrow a -> maxcol t = maxrow a ->
  (minrow a <= i <= maxrow a)%Z -> (mincol a <= hi -> hi <= maxcol a)%Z ->
  returns (for_range (mincol a) hi (fun j tmp => x ← get a i j; put tmp j i x) t)
    (fun t' =>
       minrow t' = mincol a /\ maxrow t' = maxcol a /\
       mincol t' = minrow a /\ maxcol t' = maxrow a /\ wf t' /\
       forall i' j, cell t' j i' =
         if ((i' =? i) && (mincol a <=? j) && (j <=? hi))%Z then cell a i j
         else cell t j i').
Proof.
  intros Hwf Hwft E1 E2 E3 E4 Hi Hhi.
  eapply returns_weaken.
  - apply (for_range_inv _ (fun k t' =>
      minrow t' = mincol a /\ maxrow t' = maxcol a /\
      mincol t' = minrow a /\ maxcol t' = maxrow a /\ wf t' /\
      forall i' j, cell t' j i' =
        if ((i' =? i) && (mincol a <=? j) && (j <? k))%Z then cell a i j
        else cell t j i')
      (mincol a) hi _ eq_refl).
    + intros j s Hj (F1 & F2 & F3 & F4 & Hws & Hcells).
      assert (Hca : Check a i j = true) by (apply Check_in; lia).
      destruct (cell_in_bounds a i j Hwf Hca) as [x Hx].
      unfold get. rewrite Hca, Hx. simpl.
      destruct (put_spec s j i x Hws) as (s' & -> & G1 & G2 & G3 & G4 & Hws' & Hnew & Ho);
        [apply Check_in; lia|].
      apply returns_Ok.
      split; [congruence|]. split; [congruence|]. split; [congruence|].
      split; [congruence|]. split; [exact Hws'|].
      intros i' j'. destruct (Z.eq_dec j' j) as [->|Hj'].
      * destruct (Z.eq_dec i' i) as [->|Hi'].
        -- rewrite Hnew, <- Hx. zbool.
        -- rewrite Ho by (right; exact Hi'). rewrite Hcells. zbool.
      * rewrite Ho by (left; exact Hj'). rewrite Hcells. zbool.
    + split; [exact E1|]. split; [exact E2|]. split; [exact E3|].
      split; [exact E4|]. split; [exact Hwft|]. intros i' j. zbool.
  - intros t' (F1 & F2 & F3 & F4 & Hwft' & Hcells).
    split; [exact F1|]. split; [exact F2|]. split; [exact F3|].
    split; [exact F4|]. split; [exact Hwft'|].
    intros i' j. rewrite Hcells. zbool.
Qed.

(** X21.
    [Transpose] on any array.  The result is built with the bounds
    exchanged, which fails when there are columns and the number of rows
    is negative.  The inner loop then runs over the columns from [mincol]
    to [maxrow]: with a row to copy, a column in that range and
    [maxcol < maxrow], it reaches a column that is not one and the index
    exception is raised; otherwise the call returns, the columns up to
    [maxrow] are transposed and the columns beyond it are left as they
    were allocated. *)
Theorem Transpose_in_general (fresh : T) a :
  wf a ->
  ((mincol a <= maxcol a /\ maxrow a - minrow a + 1 < 0)%Z ->
     Transpose fresh a = Raise bad_alloc) /\
  ((minrow a <= maxrow a /\ mincol a <= maxrow a /\ maxcol a < maxrow a)%Z ->
     Transpose fresh a = Raise gbtIndexException) /\
  (~ (mincol a <= maxcol a /\ maxrow a - minrow a + 1 < 0)%Z ->
   ~ (minrow a <= maxrow a /\ mincol a <= maxrow a /\ maxcol a < maxrow a)%Z ->
     returns (Transpose fresh a) (fun t =>
       minrow t = mincol a /\ maxrow t = maxcol a /\
       mincol t = minrow a /\ maxcol t = maxrow a /\ wf t /\
       forall i j, Check a i j = true ->
         get t j i = if (j <=? maxrow a)%Z then get a i j else Ok fresh)).
Proof.
  intros Hwf. split; [|split].
  - intros Hbad. unfold Transpose, new_gbtRectArray.
    replace ((mincol a <=? maxcol a) && (maxrow a - minrow a + 1 <? 0))%Z with true by zbool.
    reflexivity.
  - intros (H1 & H2 & H3). unfold Transpose.
    destruct (new_gbtRectArray_spec fresh (mincol a) (maxcol a) (minrow a) (maxrow a))
      as (tmp & -> & B1 & B2 & B3 & B4 & Hwf0); [lia|].
    simpl.
    rewrite (for_range_first (minrow a) (maxrow a)) by lia.
    rewrite (for_range_split (mincol a) (maxrow a) (Z.max (mincol a) (maxcol a + 1))) by lia.
    assert (Hfirst : exists t1,
              for_range (mincol a) (Z.max (mincol a) (maxcol a + 1) - 1)
                (fun j tmp => x ← get a (minrow a) j; put tmp j (minrow a) x) tmp = Ok t1).
    { destruct (Z.le_gt_cases (mincol a) (maxcol a + 1)) as [Hc|Hc].
      - destruct (Transpose_row fresh a (minrow a)
                    (Z.max (mincol a) (maxcol a + 1) - 1) tmp)
          as (t1 & Ht1 & _); try assumption; try lia.
        exists t1. exact Ht1.
      - exists tmp. apply for_range_empty. lia. }
    destruct Hfirst as (t1 & ->). simpl.
    assert (Hget : get a (minrow a) (Z.max (mincol a) (maxcol a + 1))
                   = Raise gbtIndexException).
    { unfold get.
      replace (Check a (minrow a) (Z.max (mincol a) (maxcol a + 1))) with false;
        [reflexivity|].
      unfold Check, CheckColumn.
      replace (Z.max (mincol a) (maxcol a + 1) <=? maxcol a)%Z with false by zbool.
      rewrite !andb_false_r. reflexivity. }
    rewrite Hget. reflexivity.
  - intros Hok1 Hok2. unfold Transpose.
    destruct (new_gbtRectArray_spec fresh (mincol a) (maxcol a) (minrow a) (maxrow a))
      as (tmp & Hnew & B1 & B2 & B3 & B4 & Hwf0); [lia|].
    rewrite Hnew. simpl.
    eapply returns_weaken.
    + apply (for_range_inv _ (fun k t =>
        minrow t = mincol a /\ maxrow t = maxcol a /\
        mincol t = minrow a /\ maxcol t = maxrow a /\ wf t /\
        forall i j, cell t j i =
          if ((minrow a <=? i) && (i <? k) && (mincol a <=? j) && (j <=? maxrow a))%Z
          then cell a i j else cell tmp j i)
        (minrow a) (maxrow a) _ eq_refl).
      * intros i s Hi (F1 & F2 & F3 & F4 & Hws & Hcells).
        eapply returns_weaken;
          [apply (Transpose_row fresh a i (maxrow a) s); try assumption; lia|].
        intros s' (G1 & G2 & G3 & G4 & Hws' & Hrow).
        split; [exact G1|]. split; [exact G2|]. split; [exact G3|].
        split; [exact G4|]. split; [exact Hws'|].
        intros i' j. rewrite Hrow, Hcells. zbool.
      * split; [exact B1|]. split; [exact B2|]. split; [exact B3|].
        split; [exact B4|]. split; [exact Hwf0|]. intros i j. zbool.
    + intros t (F1 & F2 & F3 & F4 & Hwft & Hcells).
      split; [exact F1|]. split; [exact F2|]. split; [exact F3|].
      split; [exact F4|]. split; [exact Hwft|].
      intros i j Hc. pose proof (proj1 (Check_true a i j) Hc) as Hb.
      assert (Hct : Check t j i = true) by (apply Check_true; lia).
      unfold get. rewrite Hct, Hc, Hcells. simpl.
      destruct (Z.leb_spec j (maxrow a)) as [Hj|Hj].
      * replace ((minrow a <=? i) && (i <? Z.max (minrow a) (maxrow a + 1)) &&
                 (mincol a <=? j))%Z with true by zbool.
        reflexivity.
      * rewrite andb_false_r.
        rewrite (new_gbtRectArray_cells fresh _ _ _ _ tmp j i Hnew); [reflexivity|].
        apply Check_true. lia.
Qed.

(** *** Assignment through [operator()] *)

(** X22.
    An assignment [a(r, c) = x] raises the index exception, and nothing
    else, when [(r, c)] is out of bounds; otherwise [operator()(r, c)]
    gives [x] afterwards, every other index gives what it gave before,
    and the bounds are kept. *)
Theorem put_then_get a r c (x : T) :
  wf a ->
  (Check a r c = false -> put a r c x = Raise gbtIndexException) /\
  (Check a r c = true ->
     returns (put a r c x) (fun a' =>
       same_bounds a a' /\ wf a' /\ get a' r c = Ok x /\
       forall r' c', r' <> r \/ c' <> c -> get a' r' c' = get a r' c')).
Proof.
  intros Hwf. split.
  - intros Hc. unfold put. rewrite Hc. reflexivity.
  - intros Hc.
    destruct (put_spec a r c x Hwf Hc)
      as (a' & -> & B1 & B2 & B3 & B4 & Hwf' & Hnew & Ho).
    apply returns_Ok.
    assert (Hb : same_bounds a a') by (unfold same_bounds; auto).
    split; [exact Hb|]. split; [exact Hwf'|]. split.
    + unfold get. rewrite (Check_same_bounds a a' r c Hb), Hc, Hnew. reflexivity.
    + intros r' c' Hne. apply get_from_cells; [exact Hb | reflexivity | apply Ho, Hne].
Qed.

End Facts.

Lemma wf_tall : wf tall.
Proof. split; [reflexivity | repeat constructor]. Qed.

Lemma get_raises_iff_out_of_bounds_witness :
  wf tall /\
  ((exists e, get tall 3 1 = Raise e) <->
     (3 < minrow tall \/ 3 > maxrow tall \/ 1 < mincol tall \/ 1 > maxcol tall)%Z).
Proof.
  split; [exact wf_tall|].
  exact (proj1 (get_raises_iff_out_of_bounds tall 3 1 wf_tall)).
Defined.

(** C10.  [Transpose] runs its inner loop up to [maxrow], not [maxcol].
    On the 2-by-1 array [tall] it asks for column 2 and raises; on the
    1-by-2 array [wide] it returns after copying one column, and the
    entry (2, 1) of the result is not the entry (1, 2) of [wide]. *)
Theorem Transpose_not_square :
  Transpose 0%Z tall = Raise gbtIndexException /\
  (exists t, Transpose 0%Z wide = Ok t /\
     get wide 1 2 = Ok 20%Z /\ get t 2 1 = Ok 0%Z).
Proof.
  split; [reflexivity|].
  eexists. split; [reflexivity|]. split; reflexivity.
Qed.

Lemma wf_grid : wf grid.
Proof. split; [reflexivity | repeat constructor]. Qed.

Lemma wf_across : wf_array across.
Proof. reflexivity. Qed.

Lemma wf_down : wf_array down.
Proof. reflexivity. Qed.

Lemma RotateUp_moves_rows_witness :
  wf grid /\
  returns (RotateUp grid 0 2) (fun a' =>
    same_bounds grid a' /\ wf a' /\
    forall r c, get a' r c = get grid (rotated_up 0 2 r) c).
Proof.
  split; [exact wf_grid|].
  apply (proj2 (RotateUp_moves_rows grid 0 2 wf_grid)). simpl. lia.
Defined.

Lemma RotateDown_moves_rows_witness :
  wf grid /\
  returns (RotateDown grid 0 2) (fun a' =>
    same_bounds grid a' /\ wf a' /\
    forall r c, get a' r c = get grid (rotated_down 0 2 r) c).
Proof.
  split; [exact wf_grid|].
  apply (proj2 (RotateDown_moves_rows grid 0 2 wf_grid)). simpl. lia.
Defined.

Lemma RotateUp_RotateDown_inverse_witness :
  (wf grid /\ (minrow grid <= 0 <= 2)%Z /\ (2 <= maxrow grid)%Z) /\
  (a' ← RotateUp grid 0 2; RotateDown a' 0 2) = Ok grid /\
  (a' ← RotateDown grid 0 2; RotateUp a' 0 2) = Ok grid.
Proof.
  split; [split; [exact wf_grid | simpl; lia]|].
  apply (RotateUp_RotateDown_inverse grid 0 2 wf_grid); simpl; lia.
Defined.

Lemma SwitchRows_exchanges_witness :
  wf grid /\
  SwitchRows grid 0 3 = Raise gbtIndexException /\
  returns (SwitchRows grid 0 2) (fun a' =>
    same_bounds grid a' /\ wf a' /\
    (forall c, get a' 0 c = get grid 2 c) /\
    (forall c, get a' 2 c = get grid 0 c) /\
    (forall r c, r <> 0%Z -> r <> 2%Z -> get a' r c = get grid r c)).
Proof.
  split; [exact wf_grid|]. split.
  - apply (proj1 (SwitchRows_exchanges grid 0 3 wf_grid)). right. reflexivity.
  - apply (proj2 (SwitchRows_exchanges grid 0 2 wf_grid)); reflexivity.
Defined.

Lemma SwitchRows_involutive_witness :
  (wf grid /\ CheckRow grid 0 = true /\ CheckRow grid 2 = true) /\
  (a' ← SwitchRows grid 0 2; SwitchRows a' 0 2) = Ok grid.
Proof.
  split; [split; [exact wf_grid | split; reflexivity]|].
  apply (SwitchRows_involutive grid 0 2 wf_grid); reflexivity.
Defined.

Lemma Rotate_adjacent_is_SwitchRows_witness :
  (wf grid /\ (minrow grid <= 1)%Z /\ (1 + 1 <= maxrow grid)%Z) /\
  RotateUp grid 1 (1 + 1) = SwitchRows grid 1 (1 + 1).
Proof.
  split; [split; [exact wf_grid | simpl; lia]|].
  apply (Rotate_adjacent_is_SwitchRows grid 1 wf_grid); simpl; lia.
Defined.

Lemma RotateLeft_moves_columns_witness :
  wf grid /\
  returns (RotateLeft grid 1 3) (fun a' =>
    same_bounds grid a' /\ wf a' /\
    forall r c, get a' r c = get grid r (rotated_up 1 3 c)).
Proof.
  split; [exact wf_grid|].
  apply (proj2 (RotateLeft_moves_columns grid 1 3 wf_grid)). simpl. lia.
Defined.

Lemma RotateRight_moves_columns_witness :
  wf grid /\
  returns (RotateRight grid 1 3) (fun a' =>
    same_bounds grid a' /\ wf a' /\
    forall r c, get a' r c = get grid r (rotated_down 1 3 c)).
Proof.
  split; [exact wf_grid|].
  apply (proj2 (RotateRight_moves_columns grid 1 3 wf_grid)). simpl. lia.
Defined.

Lemma RotateLeft_RotateRight_inverse_witness :
  (wf grid /\ (mincol grid <= 1 <= 3)%Z /\ (3 <= maxcol grid)%Z) /\
  (a' ← RotateLeft grid 1 3; RotateRight a' 1 3) = Ok grid /\
  (a' ← RotateRight grid 1 3; RotateLeft a' 1 3) = Ok grid.
Proof.
  split; [split; [exact wf_grid | simpl; lia]|].
  apply (RotateLeft_RotateRight_inverse grid 1 3 wf_grid); simpl; lia.
Defined.

Lemma SwitchColumns_exchanges_witness :
  wf grid /\
  SwitchColumns grid 0 1 = Raise gbtIndexException /\
  returns (SwitchColumns grid 1 2) (fun a' =>
    same_bounds grid a' /\ wf a' /\
    (forall r, get a' r 1 = get grid r 2) /\
    (forall r, get a' r 2 = get grid r 1) /\
    (forall r c, c <> 1%Z -> c <> 2%Z -> get a' r c = get grid r c)).
Proof.
  split; [exact wf_grid|]. split.
  - apply (proj1 (SwitchColumns_exchanges grid 0 1 wf_grid)). left. reflexivity.
  - apply (proj2 (SwitchColumns_exchanges grid 1 2 wf_grid)); reflexivity.
Defined.

Lemma SwitchColumns_involutive_witness :
  (wf grid /\ CheckColumn grid 1 = true /\ CheckColumn grid 3 = true) /\
  (a' ← SwitchColumns grid 1 3; SwitchColumns a' 1 3) = Ok grid.
Proof.
  split; [split; [exact wf_grid | split; reflexivity]|].
  apply (SwitchColumns_involutive grid 1 3 wf_grid); reflexivity.
Defined.

Lemma GetRow_reads_row_witness :
  (wf grid /\ wf_array down /\ wf_array across) /\
  GetRow grid 1 down = Raise gbtDimensionException /\
  GetRow grid 3 down = Raise gbtIndexException /\
  returns (GetRow grid 1 across) (fun v' =>
    First v' = First across /\ Last v' = Last across /\ wf_array v' /\
    forall c, arr_get v' c = get grid 1 c).
Proof.
  split; [split; [exact wf_grid | split; [exact wf_down | exact wf_across]]|].
  split; [|split].
  - apply (proj1 (proj2 (GetRow_reads_row grid 1 down wf_grid wf_down))); reflexivity.
  - apply (proj1 (GetRow_reads_row grid 3 down wf_grid wf_down)). reflexivity.
  - apply (proj2 (proj2 (GetRow_reads_row grid 1 across wf_grid wf_across)));
      reflexivity.
Defined.

Lemma SetRow_writes_row_witness :
  (wf grid /\ wf_array across) /\
  returns (SetRow grid 1 across) (fun a' =>
    same_bounds grid a' /\ wf a' /\
    (forall c, get a' 1 c = arr_get across c) /\
    (forall r c, r <> 1%Z -> get a' r c = get grid r c)).
Proof.
  split; [split; [exact wf_grid | exact wf_across]|].
  apply (proj2 (proj2 (SetRow_writes_row grid 1 across wf_grid wf_across))); reflexivity.
Defined.

Lemma SetRow_GetRow_round_trip_witness :
  (wf grid /\ wf_array across /\ wf_array across /\ CheckRow grid 2 = true /\
   CheckRowArray grid across = true) /\
  (a' ← SetRow grid 2 across; GetRow a' 2 across) = Ok across.
Proof.
  split; [split; [exact wf_grid|]; split; [exact wf_across|];
          split; [exact wf_across | split; reflexivity]|].
  apply (SetRow_GetRow_round_trip grid 2 across across wf_grid wf_across wf_across);
    reflexivity.
Defined.

Lemma SwitchRow_exchanges_witness :
  (wf grid /\ wf_array across) /\
  SwitchRow grid 5 across = Raise gbtIndexException /\
  returns (SwitchRow grid 1 across) (fun '(a', v') =>
    same_bounds grid a' /\ wf a' /\
    First v' = First across /\ Last v' = Last across /\ wf_array v' /\
    (forall c, get a' 1 c = arr_get across c) /\
    (forall c, arr_get v' c = get grid 1 c) /\
    (forall r c, r <> 1%Z -> get a' r c = get grid r c) /\
    SwitchRow a' 1 v' = Ok (grid, across)).
Proof.
  split; [split; [exact wf_grid | exact wf_across]|]. split.
  - apply (proj1 (SwitchRow_exchanges grid 5 across wf_grid wf_across)). reflexivity.
  - apply (proj2 (proj2 (SwitchRow_exchanges grid 1 across wf_grid wf_across)));
      reflexivity.
Defined.

Lemma GetColumn_reads_column_witness :
  (wf grid /\ wf_array down) /\
  returns (GetColumn grid 3 down) (fun v' =>
    First v' = First down /\ Last v' = Last down /\ wf_array v' /\
    forall r, arr_get v' r = get grid r 3).
Proof.
  split; [split; [exact wf_grid | exact wf_down]|].
  apply (proj2 (proj2 (GetColumn_reads_column grid 3 down wf_grid wf_down))); reflexivity.
Defined.

Lemma SetColumn_writes_column_witness :
  (wf grid /\ wf_array across /\ wf_array down) /\
  SetColumn grid 2 across = Raise gbtDimensionException /\
  returns (SetColumn grid 2 down) (fun a' =>
    same_bounds grid a' /\ wf a' /\
    (forall r, get a' r 2 = arr_get down r) /\
    (forall r c, c <> 2%Z -> get a' r c = get grid r c)).
Proof.
  split; [split; [exact wf_grid | split; [exact wf_across | exact wf_down]]|]. split.
  - apply (proj1 (proj2 (SetColumn_writes_column grid 2 across wf_grid wf_across)));
      reflexivity.
  - apply (proj2 (proj2 (SetColumn_writes_column grid 2 down wf_grid wf_down)));
      reflexivity.
Defined.

Lemma SetColumn_GetColumn_round_trip_witness :
  (wf grid /\ wf_array down /\ wf_array down /\ CheckColumn grid 1 = true /\
   CheckColumnArray grid down = true) /\
  (v' ← GetColumn grid 1 down; SetColumn grid 1 v') = Ok grid.
Proof.
  split; [split; [exact wf_grid|]; split; [exact wf_down|];
          split; [exact wf_down | split; reflexivity]|].
  apply (SetColumn_GetColumn_round_trip grid 1 down down wf_grid wf_down wf_down);
    reflexivity.
Defined.

Lemma SwitchColumn_exchanges_witness :
  (wf grid /\ wf_array down) /\
  returns (SwitchColumn grid 2 down) (fun '(a', v') =>
    same_bounds grid a' /\ wf a' /\
    First v' = First down /\ Last v' = Last down /\ wf_array v' /\
    (forall r, get a' r 2 = arr_get down r) /\
    (forall r, arr_get v' r = get grid r 2) /\
    (forall r c, c <> 2%Z -> get a' r c = get grid r c) /\
    SwitchColumn a' 2 v' = Ok (grid, down)).
Proof.
  split; [split; [exact wf_grid | exact wf_down]|].
  apply (proj2 (proj2 (SwitchColumn_exchanges grid 2 down wf_grid wf_down))); reflexivity.
Defined.

Lemma copy_is_faithful_witness :
  wf grid /\ copy 0%Z grid = Ok grid.
Proof.
  split; [exact wf_grid|].
  apply (proj1 (copy_is_faithful 0%Z grid wf_grid)).
Defined.

(** The operations on the 3-by-3 array: the rows after a rotation up, the
    columns after a rotation to the right, and the two results of an
    exchange of the middle row with a vector. *)
Example rotations_on_grid :
  data <$> RotateUp grid 0 2 =
    Ok [[4%Z; 5%Z; 6%Z]; [7%Z; 8%Z; 9%Z]; [1%Z; 2%Z; 3%Z]] /\
  data <$> RotateRight grid 1 3 =
    Ok [[3%Z; 1%Z; 2%Z]; [6%Z; 4%Z; 5%Z]; [9%Z; 7%Z; 8%Z]] /\
  data <$> RotateLeft grid 2 3 =
    Ok [[1%Z; 3%Z; 2%Z]; [4%Z; 6%Z; 5%Z]; [7%Z; 9%Z; 8%Z]] /\
  (fun '(a, v) => (data a, items v)) <$> SwitchRow grid 1 across =
    Ok ([[1%Z; 2%Z; 3%Z]; [10%Z; 20%Z; 30%Z]; [7%Z; 8%Z; 9%Z]], [4%Z; 5%Z; 6%Z]) /\
  items <$> GetColumn grid 3 down = Ok [3%Z; 6%Z; 9%Z] /\
  RotateUp grid 1 3 = Raise gbtIndexException /\
  RotateLeft grid 2 1 = Raise gbtIndexException.
Proof. repeat split; reflexivity. Qed.

Lemma Transpose_in_general_witness :
  (wf wide /\ wf tall) /\
  Transpose 0%Z tall = Raise gbtIndexException /\
  returns (Transpose 0%Z wide) (fun t =>
    minrow t = mincol wide /\ maxrow t = maxcol wide /\
    mincol t = minrow wide /\ maxcol t = maxrow wide /\ wf t /\
    forall i j, Check wide i j = true ->
      get t j i = if (j <=? maxrow wide)%Z then get wide i j else Ok 0%Z).
Proof.
  assert (Hwf : wf wide) by (split; [reflexivity | repeat constructor]).
  split; [split; [exact Hwf | exact wf_tall]|]. split.
  - apply (proj1 (proj2 (Transpose_in_general 0%Z tall wf_tall))). simpl. lia.
  - apply (proj2 (proj2 (Transpose_in_general 0%Z wide Hwf))); simpl; lia.
Defined.

Lemma put_then_get_witness :
  wf grid /\
  returns (put grid 1 2 50%Z) (fun a' =>
    same_bounds grid a' /\ wf a' /\ get a' 1 2 = Ok 50%Z /\
    forall r' c', r' <> 1%Z \/ c' <> 2%Z -> get a' r' c' = get grid r' c').
Proof.
  split; [exact wf_grid|].
  apply (proj2 (put_then_get grid 1 2 50%Z wf_grid)). reflexivity.
Defined.

End RectArrayFacts.

(** ** The Liapunov module *)

Module EFLiapFacts.
Import EFLiap.
Local Open Scope Q_scope.

(** *** Containers *)

Lemma at1_is_Some {A : Type} (l : list A) (i : nat) :
  is_Some (at1 l i) <-> (1 <= i <= length l)%nat.
Proof.
  destruct i as [|i]; simpl.
  - split; [intros [x Hx]; discriminate | lia].
  - rewrite lookup_lt_is_Some. lia.
Qed.

Lemma at1_map {A B : Type} (f : A -> B) (l : list A) (i : nat) :
  at1 (map f l) i = f <$> at1 l i.
Proof. destruct i as [|i]; simpl; [reflexivity | apply list_lookup_fmap]. Qed.

Lemma in_seq1 (n i : nat) : i ∈ seq 1 n <-> (1 <= i <= n)%nat.
Proof. rewrite elem_of_seq. lia. Qed.

Lemma split_in {I : Type} (idx done rest : list I) (i : I) :
  idx = done ++ i :: rest -> i ∈ idx.
Proof. intros ->. apply elem_of_app. right. apply elem_of_cons. left. reflexivity. Qed.

Lemma length_refill_rows {T : Type} (rows : list (list T)) (flat : list T) :
  length flat = length (concat rows) ->
  map length (refill_rows rows flat) = map length rows /\
  concat (refill_rows rows flat) = flat.
Proof.
  revert flat. induction rows as [|r rows IH]; intros flat Hlen; simpl in *.
  - split; [reflexivity|]. symmetry. apply nil_length_inv. exact Hlen.
  - rewrite length_app in Hlen.
    destruct (IH (drop (length r) flat)) as [IH1 IH2];
      [rewrite length_drop; lia|].
    rewrite IH1, IH2, length_take, take_drop. split; [f_equal; lia | reflexivity].
Qed.

Lemma refill_spec {T : Type} (v : gDPVector T) (flat : list T) :
  length flat = dp_Length v ->
  dp_shape (refill v flat) = dp_shape v /\ dp_flatten (refill v flat) = flat.
Proof.
  unfold dp_Length, dp_shape, dp_flatten.
  revert flat. induction v as [|pl v IH]; intros flat Hlen; simpl in *.
  - split; [reflexivity|]. symmetry. apply nil_length_inv. exact Hlen.
  - rewrite concat_app, length_app in Hlen.
    destruct (IH (drop (length (concat pl)) flat)) as [IH1 IH2];
      [rewrite length_drop; lia|].
    destruct (length_refill_rows pl (take (length (concat pl)) flat)) as [R1 R2];
      [rewrite length_take; lia|].
    rewrite concat_app, IH1, IH2, R1, R2, take_drop. split; reflexivity.
Qed.

Lemma dp_assign_returns {T : Type} (v : gDPVector T) (flat : list T) :
  length flat = dp_Length v ->
  returns (dp_assign v flat)
    (fun v' => v' = refill v flat /\ dp_shape v' = dp_shape v /\ dp_flatten v' = flat).
Proof.
  intros Hlen. unfold dp_assign. rewrite decide_True by exact Hlen.
  apply returns_Ok. destruct (refill_spec v flat Hlen) as [H1 H2]. auto.
Qed.

Lemma pv_at_shape {T : Type} (v : gDPVector T) (i j : nat) :
  pv_at (dp_shape v) i j = length <$> pv_at v i j.
Proof.
  unfold pv_at, dp_shape. rewrite at1_map.
  destruct (at1 v i) as [pl|]; simpl; [apply at1_map | reflexivity].
Qed.

Lemma dp_at_in_shape {T : Type} (v : gDPVector T) (i j k n : nat) :
  pv_at (dp_shape v) i j = Some n -> (1 <= k <= n)%nat -> is_Some (dp_at v i j k).
Proof.
  rewrite pv_at_shape. unfold dp_at.
  destruct (pv_at v i j) as [acts|]; simpl; [|discriminate].
  intros [= <-] Hk. apply at1_is_Some. exact Hk.
Qed.

Lemma pv_at_tabulate {T : Type} (shape : list (list nat))
    (f : nat -> nat -> nat -> T) (i j n : nat) :
  pv_at shape i j = Some n ->
  pv_at (dp_tabulate shape f) i j = Some (map (f i j) (seq 1 n)).
Proof.
  unfold pv_at, dp_tabulate.
  destruct i as [|i]; simpl; [discriminate|].
  rewrite list_lookup_imap. destruct (shape !! i) as [row|]; simpl; [|discriminate].
  destruct j as [|j]; simpl; [discriminate|].
  rewrite list_lookup_imap. intros ->. reflexivity.
Qed.

Lemma dp_at_tabulate {T : Type} (shape : list (list nat))
    (f : nat -> nat -> nat -> T) (i j k n : nat) :
  pv_at shape i j = Some n -> (1 <= k <= n)%nat ->
  dp_at (dp_tabulate shape f) i j k = Some (f i j k).
Proof.
  intros Hs Hk. unfold dp_at. rewrite (pv_at_tabulate _ _ _ _ _ Hs).
  destruct k as [|k]; [lia|]. simpl.
  rewrite list_lookup_fmap, lookup_seq_lt by lia. reflexivity.
Qed.

Lemma pv_at_Dimensionality (E : Efg) (i j : nat) (pl : EFPlayer) (s : Infoset) :
  at1 (PlayerList E) i = Some pl -> at1 (InfosetList pl) j = Some s ->
  pv_at (Dimensionality E) i j = Some (NumActions s).
Proof.
  intros Hpl Hs. unfold pv_at, Dimensionality.
  rewrite at1_map, Hpl. simpl. rewrite at1_map, Hs. reflexivity.
Qed.

(** *** Sums of rationals *)

Lemma Qsum_app (l1 l2 : list Q) : Qsum (l1 ++ l2) == Qsum l1 + Qsum l2.
Proof.
  induction l1 as [|x l1 IH]; simpl; [ring|]. rewrite IH. ring.
Qed.

Lemma Qsum_snoc (f : nat -> Q) (done : list nat) (i : nat) :
  Qsum (map f (done ++ [i])) == Qsum (map f done) + f i.
Proof. rewrite map_app, Qsum_app. simpl. ring. Qed.

Lemma Qsum_map_ext {I : Type} (f g : I -> Q) (l : list I) :
  (forall x, x ∈ l -> f x == g x) -> Qsum (map f l) == Qsum (map g l).
Proof.
  induction l as [|x l IH]; intros H; simpl; [reflexivity|].
  rewrite (H x), IH; [reflexivity | | apply elem_of_cons; auto].
  intros y Hy. apply H, elem_of_cons. auto.
Qed.

Lemma Qsum_nonneg {I : Type} (f : I -> Q) (l : list I) :
  (forall x, x ∈ l -> 0 <= f x) -> 0 <= Qsum (map f l).
Proof.
  induction l as [|x l IH]; intros H; simpl; [lra|].
  assert (0 <= f x) by (apply H, elem_of_cons; auto).
  assert (0 <= Qsum (map f l)) by (apply IH; intros y Hy; apply H, elem_of_cons; auto).
  lra.
Qed.


Lemma Qltb_lt (x y : Q) : Qltb x y = true <-> x < y.
Proof.
  unfold Qltb. rewrite negb_true_iff, <- not_true_iff_false, Qle_bool_iff.
  split; [apply Qnot_le_lt | apply Qlt_not_le].
Qed.

Lemma Qltb_ge (x y : Q) : Qltb x y = false <-> y <= x.
Proof.
  unfold Qltb. rewrite negb_false_iff. apply Qle_bool_iff.
Qed.

(** *** The three penalty terms, as the code computes them *)

Lemma negative_term (x : Q) :
  BIG1 * (if Qltb 0 x then 0 else x) * (if Qltb 0 x then 0 else x)
  == negative_penalty x.
Proof.
  unfold negative_penalty, BIG1.
  destruct (Qltb 0 x) eqn:Hpos, (Qltb x 0) eqn:Hneg;
    rewrite ?Qltb_lt, ?Qltb_ge in *; try lra; try ring.
  assert (Hx : x == 0) by lra. rewrite Hx. ring.
Qed.

Lemma excess_term (c avg : Q) :
  (if Qltb (c - avg) 0 then 0 else c - avg) == excess c avg.
Proof.
  unfold excess. destruct (Qltb (c - avg) 0) eqn:H;
    rewrite ?Qltb_lt, ?Qltb_ge in H; symmetry.
  - apply Q.max_l. lra.
  - apply Q.max_r. lra.
Qed.

Lemma excess_compat (c avg avg' : Q) : avg == avg' -> excess c avg == excess c avg'.
Proof.
  intros H. rewrite <- !excess_term.
  destruct (Qltb (c - avg) 0) eqn:H1, (Qltb (c - avg') 0) eqn:H2;
    rewrite ?Qltb_lt, ?Qltb_ge in *; lra.
Qed.




(** *** [EFLiapFunc::Value] *)

Lemma entry_Some (v : gDPVector Q) (i j k : nat) :
  is_Some (dp_at v i j k) -> dp_at v i j k = Some (entry v i j k).
Proof. intros [x Hx]. unfold entry. rewrite Hx. reflexivity. Qed.

(** The block of [Value] that handles one infoset adds the three penalty
    terms of that infoset to [result]. *)
Lemma infoset_block (vals cpay : gDPVector Q) (i j n : nat)
    (prob cp : nat -> Q) (result : Q) :
  (forall k, (1 <= k <= n)%nat -> dp_at vals i j k = Some (prob k)) ->
  (forall k, (1 <= k <= n)%nat -> dp_at cpay i j k = Some (cp k)) ->
  returns
    ('(result, avg, sum) ← for_upto n (fun k '(result, avg, sum) =>
        x ← dp_get vals i j k;
        c ← dp_get cpay i j k;
        let avg := avg + x * c in
        let sum := sum + x in
        let x := if Qltb 0 x then 0 else x in
        Ok (result + BIG1 * x * x, avg, sum)) (result, 0, 0);
     result ← for_upto n (fun k result =>
        c ← dp_get cpay i j k;
        let x := c - avg in
        let x := if Qltb x 0 then 0 else x in
        Ok (result + x * x)) result;
     let x := sum - 1 in
     Ok (result + BIG2 * x * x))
    (fun r => r == result + infoset_penalty n prob cp).
Proof.
  intros Hprob Hcp.
  eapply returns_bind.
  - unfold for_upto.
    apply (for_seq_inv _ (fun done '(r, avg, sum) =>
             r == result + Qsum (map (fun k => negative_penalty (prob k)) done) /\
             avg == Qsum (map (fun k => prob k * cp k) done) /\
             sum == Qsum (map prob done))).
    + intros done k rest [[r avg] sum] Hidx (Hr & Havg & Hsum).
      apply split_in, in_seq1 in Hidx.
      unfold dp_get. rewrite (Hprob k Hidx), (Hcp k Hidx). simpl.
      apply returns_Ok. rewrite !Qsum_snoc, <- negative_term.
      repeat split; lra.
    + simpl. repeat split; lra.
  - intros [[r avg] sum] (Hr & Havg & Hsum).
    eapply returns_bind.
    + unfold for_upto.
      apply (for_seq_inv _ (fun done r' =>
               r' == r + Qsum (map (fun k => excess (cp k) avg * excess (cp k) avg) done))).
      * intros done k rest r' Hidx Hr'.
        apply split_in, in_seq1 in Hidx.
        unfold dp_get. rewrite (Hcp k Hidx). simpl.
        apply returns_Ok. rewrite Qsum_snoc, excess_term. lra.
      * simpl. lra.
    + intros r' Hr'. simpl. apply returns_Ok.
      unfold infoset_penalty, average, sum_upto, BIG2.
      rewrite Hr', Hr, Hsum.
      rewrite (Qsum_map_ext
                 (fun k => excess (cp k) avg * excess (cp k) avg)
                 (fun k => excess (cp k) (Qsum (map (fun k => prob k * cp k) (seq 1 n)))
                           * excess (cp k) (Qsum (map (fun k => prob k * cp k) (seq 1 n))))).
      * ring.
      * intros k _. rewrite (excess_compat (cp k) avg _ Havg). reflexivity.
Qed.

Lemma infosets_of_player (E : Efg) (i : nat) (pl : EFPlayer) :
  at1 (PlayerList E) i = Some pl -> infosets_of E i = NumInfosets pl.
Proof. intros H. unfold infosets_of. rewrite H. reflexivity. Qed.

(** *** Sign of the penalties *)









Section Objective.

Variable CondPayoff : BehavProfile -> nat -> nat -> nat -> Q.

(** [Value] returns on every vector of the right length: it counts the
    call, leaves the vector in the wrapped profile, and its result is the
    specified sum of penalties of that profile. *)
Lemma Value_returns (F : EFLiapFunc) (v : list Q) :
  for_game (_efg F) (_p F) ->
  length v = dp_Length (pvals (_p F)) ->
  returns (Value CondPayoff F v) (fun '(F', r) =>
    _nevals F' = (_nevals F + 1)%Z /\
    _efg F' = _efg F /\
    _p F' = with_pvals (_p F) (refill (pvals (_p F)) v) /\
    dp_shape (pvals (_p F')) = dp_shape (pvals (_p F)) /\
    dp_flatten (pvals (_p F')) = v /\
    r == Liapunov (_efg F) (entry (pvals (_p F'))) (CondPayoff (_p F'))).
Proof.
  intros Hgame Hlen. unfold Value.
  eapply returns_bind; [apply dp_assign_returns, Hlen|].
  intros vals (-> & Hshape & Hflat).
  set (p' := with_pvals (_p F) (refill (pvals (_p F)) v)).
  eapply returns_bind.
  - unfold for_upto.
    apply (for_seq_inv _ (fun done r =>
       r == Qsum (map (fun i => sum_upto (infosets_of (_efg F) i) (fun j =>
              infoset_penalty (actions_of (_efg F) i j)
                (entry (pvals p') i j) (CondPayoff p' i j))) done))).
    + intros done i rest result Hidx Hinv.
      apply split_in, in_seq1 in Hidx.
      destruct (proj2 (at1_is_Some (PlayerList (_efg F)) i) Hidx) as [pl Hpl].
      rewrite Hpl. simpl.
      eapply returns_weaken.
      * unfold for_upto.
        apply (for_seq_inv _ (fun done2 r =>
           r == result + Qsum (map (fun j =>
              infoset_penalty (actions_of (_efg F) i j)
                (entry (pvals p') i j) (CondPayoff p' i j)) done2))).
        -- intros done2 j rest2 result2 Hidx2 Hinv2.
           apply split_in, in_seq1 in Hidx2.
           destruct (proj2 (at1_is_Some (InfosetList pl) j) Hidx2) as [s Hs].
           rewrite Hs. simpl.
           pose proof (pv_at_Dimensionality _ _ _ _ _ Hpl Hs) as Hdim.
           eapply returns_weaken.
           ++ apply (infoset_block _ _ i j (NumActions s)
                       (entry (pvals p') i j) (CondPayoff p' i j)).
              ** intros k Hk. apply entry_Some.
                 apply (dp_at_in_shape _ i j k (NumActions s)); [|exact Hk].
                 simpl. rewrite Hshape, Hgame. exact Hdim.
              ** intros k Hk. apply (dp_at_tabulate _ _ i j k _ Hdim Hk).
           ++ intros r Hr. cbv beta in Hr |- *.
              assert (Hact : actions_of (_efg F) i j = NumActions s)
                by (unfold actions_of; rewrite Hdim; reflexivity).
              rewrite Qsum_snoc, Hr, Hinv2, Hact.
              unfold p', with_pvals; cbn [pvals]. ring.
        -- simpl. lra.
      * intros r Hr. cbv beta in Hr |- *. rewrite Qsum_snoc, Hr, Hinv.
        rewrite (infosets_of_player _ _ _ Hpl).
        unfold sum_upto, p', with_pvals; cbn [pvals]. ring.
    + simpl. reflexivity.
  - intros r Hr. apply returns_Ok. simpl.
    repeat split; try reflexivity; try assumption.
Qed.



End Objective.



(** *** Writing into a partitioned vector *)

Lemma seq_split (a n : nat) (done rest : list nat) (i : nat) :
  seq a n = done ++ i :: rest ->
  i = (a + length done)%nat /\ (length done < n)%nat /\
  forall x, x ∈ done -> x <> i.
Proof.
  intros Heq.
  assert (Hi : seq a n !! length done = Some i)
    by (rewrite Heq; apply list_lookup_middle; reflexivity).
  apply lookup_seq in Hi as [Hi Hlt]. split; [lia|]. split; [exact Hlt|].
  intros x Hx ->.
  pose proof (NoDup_seq a n) as Hnd. rewrite Heq in Hnd.
  apply NoDup_app in Hnd as (_ & Hnd & _).
  apply (Hnd i Hx). apply elem_of_cons. auto.
Qed.

Lemma pv_at_inv {T : Type} (v : gPVector T) (i j : nat) (x : T) :
  pv_at v i j = Some x ->
  exists i' j' row, i = S i' /\ j = S j' /\ v !! i' = Some row /\ row !! j' = Some x.
Proof.
  unfold pv_at. destruct i as [|i]; simpl; [intros; discriminate|].
  destruct (v !! i) as [row|] eqn:Hrow; [|intros; discriminate].
  destruct j as [|j]; simpl; [intros; discriminate|]. intros Hx.
  exists i, j, row. auto.
Qed.

Lemma dp_set_spec {T : Type} (v : gDPVector T) (i j k : nat) (x : T) (row : list T) :
  pv_at v i j = Some row -> (1 <= k <= length row)%nat ->
  exists v', dp_set v i j k x = Ok v' /\
    pv_at v' i j = Some (<[pred k := x]> row) /\
    (forall i' j', i' <> i \/ j' <> j -> pv_at v' i' j' = pv_at v i' j') /\
    dp_shape v' = dp_shape v.
Proof.
  intros Hrow Hk.
  destruct (pv_at_inv v i j row Hrow) as (i0 & j0 & pl & -> & -> & Hpl & Hj).
  assert (Hset : set1 row k x = Some (<[pred k := x]> row)).
  { unfold set1. destruct (proj2 (at1_is_Some row k) Hk) as [y ->]. reflexivity. }
  unfold dp_set. simpl. rewrite Hpl, Hj, Hset. simpl.
  eexists. split; [reflexivity|].
  pose proof (lookup_lt_Some _ _ _ Hpl) as Hi0.
  pose proof (lookup_lt_Some _ _ _ Hj) as Hj0.
  split; [|split].
  - unfold pv_at. simpl. rewrite list_lookup_insert_eq by exact Hi0. simpl.
    apply list_lookup_insert_eq. exact Hj0.
  - intros i' j' Hne. unfold pv_at.
    destruct i' as [|i']; simpl; [reflexivity|].
    destruct (decide (i' = i0)) as [->|Hi'].
    + rewrite list_lookup_insert_eq by exact Hi0. rewrite Hpl.
      destruct j' as [|j']; simpl; [reflexivity|].
      apply list_lookup_insert_ne. destruct Hne as [Hne|Hne]; congruence.
    + rewrite list_lookup_insert_ne by congruence. reflexivity.
  - unfold dp_shape. rewrite list_fmap_insert.
    apply list_insert_id. rewrite list_lookup_fmap, Hpl. simpl. f_equal.
    rewrite list_fmap_insert. symmetry. apply list_insert_id.
    rewrite list_lookup_fmap, Hj. simpl. rewrite length_insert. reflexivity.
Qed.

Lemma pv_at_of_shape {T : Type} (v : gDPVector T) (i j n : nat) :
  pv_at (dp_shape v) i j = Some n ->
  exists row, pv_at v i j = Some row /\ length row = n.
Proof.
  rewrite pv_at_shape. destruct (pv_at v i j) as [row|]; simpl; [|discriminate].
  intros [= <-]. eauto.
Qed.

Lemma insert_last {T : Type} (row : list T) (n : nat) (x : T) :
  length row = n -> (1 <= n)%nat -> <[pred n := x]> row = take (pred n) row ++ [x].
Proof.
  intros Hlen Hn. rewrite insert_take_drop by lia.
  replace (S (pred n)) with n by lia. rewrite drop_ge by lia. reflexivity.
Qed.

Lemma Qsum_member_le (l : list Q) (x : Q) :
  (forall y, y ∈ l -> 0 <= y) -> x ∈ l -> x <= Qsum l.
Proof.
  induction l as [|y l IH]; intros Hpos Hx; [inversion Hx|]. simpl.
  assert (0 <= y) by (apply Hpos, elem_of_cons; auto).
  assert (Hl : forall z, z ∈ l -> 0 <= z) by (intros z Hz; apply Hpos, elem_of_cons; auto).
  assert (0 <= Qsum l).
  { pose proof (Qsum_nonneg (fun z => z) l Hl) as Hs. rewrite map_id in Hs. exact Hs. }
  apply elem_of_cons in Hx as [->|Hx]; [lra|].
  specialize (IH Hl Hx). lra.
Qed.

(** *** [PickRandomProfile] *)

Lemma keeps_refl (p : BehavProfile) : keeps p p.
Proof. repeat split. Qed.

Section Sampler.

Context {rng : Type}.
Variable Uniform : rng -> Q * rng.
Hypothesis Hunit : in_unit_interval Uniform.

(** The rejection loop, when it ends, ends on a fitting draw. *)
Lemma draw_partial (fuel : nat) (sum : Q) (g : rng) :
  ends True (draw Uniform fuel sum g) (fitting Uniform sum).
Proof.
  revert g. induction fuel as [|fuel IH]; intros g; simpl; [exact I|].
  destruct (Uniform g) as [tmp g1] eqn:Hu.
  destruct (Qltb 1 (tmp + sum)) eqn:Hcmp; [apply IH|].
  apply Qltb_ge in Hcmp. simpl. unfold fitting. simpl.
  pose proof (Hunit g) as [Hlo _]. rewrite Hu in Hlo. simpl in Hlo.
  split; [exact Hlo|]. split; [exact Hcmp|]. exists g. rewrite Hu. reflexivity.
Qed.

(** The draw the rejection loop returns is the first one that fits: the
    draws before it were rejected for pushing the sum over 1. *)
Lemma draw_first_fit (fuel : nat) (sum : Q) (g : rng) (tmp : Q) (g' : rng) :
  draw Uniform fuel sum g = Ok (tmp, g') ->
  exists m, (m < fuel)%nat /\
    tmp = fst (Uniform (nth_state Uniform m g)) /\
    g' = snd (Uniform (nth_state Uniform m g)) /\
    tmp + sum <= 1 /\
    forall j, (j < m)%nat -> 1 < fst (Uniform (nth_state Uniform j g)) + sum.
Proof.
  revert g. induction fuel as [|fuel IH]; intros g H; simpl in H; [discriminate|].
  destruct (Uniform g) as [t g1] eqn:Hu.
  destruct (Qltb 1 (t + sum)) eqn:Hcmp.
  - destruct (IH g1 H) as (m & Hm & Htmp & Hg' & Hfit & Hrej).
    exists (S m). simpl. rewrite Hu. simpl.
    split; [lia|]. split; [exact Htmp|]. split; [exact Hg'|]. split; [exact Hfit|].
    intros j Hj. destruct j as [|j]; simpl.
    + rewrite Hu. simpl. apply Qltb_lt. exact Hcmp.
    + rewrite Hu. simpl. apply Hrej. lia.
  - injection H as <- <-. exists 0%nat. simpl. rewrite Hu. simpl.
    split; [lia|]. split; [reflexivity|]. split; [reflexivity|].
    split; [apply Qltb_ge; exact Hcmp|]. intros j Hj. lia.
Qed.

(** It ends within [m + 1] draws when the draw after [m] draws fits. *)
Lemma draw_within (m fuel : nat) (sum : Q) (g : rng) :
  (m < fuel)%nat ->
  fst (Uniform (nth_state Uniform m g)) + sum <= 1 ->
  ends False (draw Uniform fuel sum g) (fitting Uniform sum).
Proof.
  revert fuel g. induction m as [|m IH]; intros fuel g Hm Hfit;
    (destruct fuel as [|fuel]; [lia|]); simpl in *;
    destruct (Uniform g) as [tmp g1] eqn:Hu; simpl in *;
    destruct (Qltb 1 (tmp + sum)) eqn:Hcmp.
  - apply Qltb_lt in Hcmp. lra.
  - apply Qltb_ge in Hcmp. unfold fitting. simpl.
    pose proof (Hunit g) as [Hlo _]. rewrite Hu in Hlo. simpl in Hlo.
    split; [exact Hlo|]. split; [exact Hcmp|]. exists g. rewrite Hu. reflexivity.
  - apply IH; [lia | exact Hfit].
  - apply Qltb_ge in Hcmp. unfold fitting. simpl.
    pose proof (Hunit g) as [Hlo _]. rewrite Hu in Hlo. simpl in Hlo.
    split; [exact Hlo|]. split; [exact Hcmp|]. exists g. rewrite Hu. reflexivity.
Qed.

Lemma draw_total (B fuel : nat) (sum : Q) (g : rng) :
  accepts_within Uniform B -> (B <= fuel)%nat -> 0 <= sum -> sum <= 1 ->
  ends False (draw Uniform fuel sum g) (fitting Uniform sum).
Proof.
  intros Hacc HB Hlo Hhi. destruct (Hacc g sum Hlo Hhi) as (m & Hm & Hfit).
  apply (draw_within m); [lia | exact Hfit].
Qed.

Section Loops.

Variable div : Prop.
Variable fuel : nat.
Hypothesis Hdraw : forall sum g, 0 <= sum -> sum <= 1 ->
  ends div (draw Uniform fuel sum g) (fitting Uniform sum).

(** The loop over the actions but the last of the infoset [(pl, iset)]:
    the first positions of its block hold accepted draws, [sum] is their
    sum, and nothing else is touched. *)
Lemma sample_actions (p : BehavProfile) (g : rng) (pl iset n : nat) (row : list Q) :
  pv_at (pvals p) pl iset = Some row -> length row = n ->
  ends div
    (for_upto (n - 1) (fun act '(p, g, sum) =>
        '(tmp, g) ← draw Uniform fuel sum g;
        vals ← dp_set (pvals p) pl iset act tmp;
        Ok (with_pvals p vals, g, sum + tmp)) (p, g, 0))
    (fun '(p', g', sum) =>
       keeps p p' /\
       (forall i' j', i' <> pl \/ j' <> iset ->
          pv_at (pvals p') i' j' = pv_at (pvals p) i' j') /\
       exists row', pv_at (pvals p') pl iset = Some row' /\ length row' = n /\
         (forall x, x ∈ take (n - 1) row' ->
            0 <= x /\ exists g0, x = fst (Uniform g0)) /\
         sum == Qsum (take (n - 1) row') /\ 0 <= sum /\ sum <= 1).
Proof.
  intros Hrow Hlen. unfold for_upto.
  eapply ends_weaken.
  - apply (ends_for_seq div _ (fun done '(p', g', sum) =>
       keeps p p' /\
       (forall i' j', i' <> pl \/ j' <> iset ->
          pv_at (pvals p') i' j' = pv_at (pvals p) i' j') /\
       exists row', pv_at (pvals p') pl iset = Some row' /\ length row' = n /\
         (forall x, x ∈ take (length done) row' ->
            0 <= x /\ exists g0, x = fst (Uniform g0)) /\
         sum == Qsum (take (length done) row') /\ 0 <= sum /\ sum <= 1)).
    + intros done act rest [[p' g'] sum] Hidx
        (Hkeep & Hframe & row' & Hrow' & Hlen' & Hts & Hsum & Hlo & Hhi).
      destruct (seq_split _ _ _ _ _ Hidx) as (Hact & Hlt & _).
      eapply ends_bind; [apply (Hdraw sum g' Hlo Hhi)|].
      intros [tmp g''] (Htmp & Hfit & Hgen). simpl in Htmp, Hfit, Hgen.
      destruct (dp_set_spec (pvals p') pl iset act tmp row' Hrow')
        as (v' & Hset & Hnew & Hother & Hshape); [lia|].
      rewrite Hset. simpl.
      split; [|split].
      * destruct Hkeep as (K1 & K2 & K3). repeat split; simpl; congruence.
      * intros i' j' Hne. simpl. rewrite (Hother i' j' Hne). apply Hframe, Hne.
      * exists (<[pred act := tmp]> row'). simpl.
        split; [exact Hnew|]. split; [rewrite length_insert; exact Hlen'|].
        rewrite length_app. simpl.
        replace (length done + 1)%nat with (S (length done)) by lia.
        replace (pred act) with (length done) by lia.
        rewrite (take_S_r _ _ tmp)
          by (apply list_lookup_insert_eq; lia).
        rewrite take_insert_ge by lia.
        split; [|split; [|split]].
        -- intros x Hx. apply elem_of_app in Hx as [Hx|Hx]; [apply Hts, Hx|].
           apply elem_of_cons in Hx as [->|Hx]; [|inversion Hx].
           split; [exact Htmp | exact Hgen].
        -- rewrite Qsum_app, Hsum. simpl. ring.
        -- lra.
        -- lra.
    + split; [apply keeps_refl|]. split; [reflexivity|].
      exists row. split; [exact Hrow|]. split; [exact Hlen|]. simpl.
      split; [intros x Hx; inversion Hx|]. split; [reflexivity|]. split; lra.
  - intros [[p' g'] sum]. rewrite length_seq. tauto.
Qed.

Lemma keeps_trans (p p' p'' : BehavProfile) : keeps p p' -> keeps p' p'' -> keeps p p''.
Proof. intros (A1 & A2 & A3) (B1 & B2 & B3). repeat split; congruence. Qed.

(** The block of [PickRandomProfile] for one infoset leaves a sampled
    distribution in the block of that infoset and touches nothing else. *)
Lemma sample_infoset (p : BehavProfile) (g : rng) (pl iset n : nat) (row : list Q) :
  pv_at (pvals p) pl iset = Some row -> length row = n -> (1 <= n)%nat ->
  pv_at (GetEFSupport p) pl iset = Some n ->
  ends div
    (n ← SupportNumActions p pl iset;
     '(p, g, sum) ← for_upto (n - 1) (fun act '(p, g, sum) =>
        '(tmp, g) ← draw Uniform fuel sum g;
        vals ← dp_set (pvals p) pl iset act tmp;
        Ok (with_pvals p vals, g, sum + tmp)) (p, g, 0);
     let act := Nat.max 1 n in
     vals ← dp_set (pvals p) pl iset act (1 - sum);
     Ok (with_pvals p vals, g))
    (fun '(p', g') =>
       keeps p p' /\
       (forall i' j', i' <> pl \/ j' <> iset ->
          pv_at (pvals p') i' j' = pv_at (pvals p) i' j') /\
       exists row', pv_at (pvals p') pl iset = Some row' /\ length row' = n /\
         sampled_row Uniform row').
Proof.
  intros Hrow Hlen Hn Hsupp.
  unfold SupportNumActions. rewrite Hsupp. simpl.
  eapply ends_bind; [apply (sample_actions p g pl iset n row Hrow Hlen)|].
  intros [[p' g'] sum]
    (Hkeep & Hframe & row' & Hrow' & Hlen' & Hts & Hsum & Hlo & Hhi).
  replace (Nat.max 1 n) with n by lia.
  destruct (dp_set_spec (pvals p') pl iset n (1 - sum) row' Hrow')
    as (v' & Hset & Hnew & Hother & Hshape); [lia|].
  cbv zeta. rewrite Hset. simpl.
  split; [|split].
  - destruct Hkeep as (K1 & K2 & K3). repeat split; simpl; congruence.
  - intros i' j' Hne. rewrite (Hother i' j' Hne). apply Hframe, Hne.
  - exists (<[pred n := 1 - sum]> row').
    split; [exact Hnew|]. split; [rewrite length_insert; exact Hlen'|].
    rewrite (insert_last row' n (1 - sum) Hlen' Hn).
    replace (pred n) with (n - 1)%nat by lia.
    assert (Hpos : forall y, y ∈ take (n - 1) row' -> 0 <= y)
      by (intros y Hy; apply Hts, Hy).
    exists (take (n - 1) row'), (1 - sum).
    split; [reflexivity|]. split; [intros x Hx; apply Hts, Hx|].
    split; [rewrite Hsum; reflexivity|]. split.
    + intros x Hx. apply elem_of_app in Hx as [Hx|Hx].
      * split; [apply Hpos, Hx|].
        pose proof (Qsum_member_le _ x Hpos Hx). lra.
      * apply elem_of_cons in Hx as [->|Hx]; [|inversion Hx]. split; lra.
    + rewrite Qsum_app. simpl. lra.
Qed.

Lemma ready_block (p : BehavProfile) (pl iset : nat) (player : EFPlayer) :
  sampler_ready p ->
  at1 (PlayerList (BelongsTo p)) pl = Some player ->
  (1 <= iset <= NumInfosets player)%nat ->
  exists n, pv_at (dp_shape (pvals p)) pl iset = Some n /\ (1 <= n)%nat.
Proof.
  intros (Hdims & Hsupp & Hone) Hpl Hiset.
  assert (Hrows : at1 (map length (pvals p)) pl = Some (NumInfosets player)).
  { rewrite Hdims. unfold PureDimensionality. rewrite at1_map, Hpl. reflexivity. }
  rewrite at1_map in Hrows.
  destruct (at1 (pvals p) pl) as [rows|] eqn:Hat; [|discriminate].
  simpl in Hrows. injection Hrows as Hrows.
  destruct (proj2 (at1_is_Some rows iset)) as [row Hrow]; [lia|].
  assert (Hn : pv_at (dp_shape (pvals p)) pl iset = Some (length row)).
  { rewrite pv_at_shape. unfold pv_at. rewrite Hat, Hrow. reflexivity. }
  exists (length row). split; [exact Hn|].
  apply (Hone pl iset). rewrite Hsupp. exact Hn.
Qed.

(** [PickRandomProfile] leaves a sampled distribution at every infoset of
    every player. *)
Lemma PickRandomProfile_ends (p : BehavProfile) (g : rng) :
  sampler_ready p ->
  ends div (PickRandomProfile Uniform fuel p g) (fun '(p', g') =>
    keeps p p' /\
    forall pl iset, (1 <= pl <= NumPlayers (BelongsTo p))%nat ->
      (1 <= iset <= infosets_of (BelongsTo p) pl)%nat ->
      exists row, pv_at (pvals p') pl iset = Some row /\ sampled_row Uniform row).
Proof.
  intros Hready. unfold PickRandomProfile, for_upto.
  eapply ends_weaken.
  - apply (ends_for_seq div _ (fun done '(p', g') =>
      keeps p p' /\
      forall pl iset, pl ∈ done ->
        (1 <= iset <= infosets_of (BelongsTo p) pl)%nat ->
        exists row, pv_at (pvals p') pl iset = Some row /\ sampled_row Uniform row)).
    + intros done pl rest [p1 g1] Hidx (Hkeep1 & Hdone).
      destruct (seq_split _ _ _ _ _ Hidx) as (_ & _ & Hfresh).
      apply split_in, in_seq1 in Hidx.
      destruct (proj2 (at1_is_Some (PlayerList (BelongsTo p)) pl) Hidx) as [player Hpl].
      destruct Hkeep1 as (K1 & K2 & K3).
      rewrite K1, Hpl. simpl.
      eapply ends_weaken.
      * apply (ends_for_seq div _ (fun done2 '(p2, g2) =>
          keeps p p2 /\
          (forall pl' iset, pl' ∈ done ->
             (1 <= iset <= infosets_of (BelongsTo p) pl')%nat ->
             exists row, pv_at (pvals p2) pl' iset = Some row /\
                         sampled_row Uniform row) /\
          (forall iset, iset ∈ done2 ->
             exists row, pv_at (pvals p2) pl iset = Some row /\
                         sampled_row Uniform row))).
        -- intros done2 iset rest2 [p2 g2] Hidx2 (Hkeep2 & Hold & Hnew).
           destruct (seq_split _ _ _ _ _ Hidx2) as (_ & _ & Hfresh2).
           apply split_in, in_seq1 in Hidx2.
           destruct (ready_block p pl iset player Hready Hpl Hidx2) as (n & Hn & Hn1).
           assert (Hn2 : pv_at (dp_shape (pvals p2)) pl iset = Some n)
             by (destruct Hkeep2 as (_ & _ & ->); exact Hn).
           destruct (pv_at_of_shape _ _ _ _ Hn2) as (row & Hrow & Hlen).
           assert (Hsupp : pv_at (GetEFSupport p2) pl iset = Some n).
           { destruct Hkeep2 as (_ & -> & _). destruct Hready as (_ & -> & _). exact Hn. }
           eapply ends_weaken;
             [apply (sample_infoset p2 g2 pl iset n row Hrow Hlen Hn1 Hsupp)|].
           intros [p3 g3] (Hkeep3 & Hframe & row' & Hrow' & _ & Hsampled).
           split; [exact (keeps_trans _ _ _ Hkeep2 Hkeep3)|]. split.
           ++ intros pl' iset' Hpl' Hiset'.
              rewrite Hframe by (left; apply Hfresh, Hpl').
              apply Hold; assumption.
           ++ intros iset' Hiset'. apply elem_of_app in Hiset' as [Hiset'|Hiset'].
              ** rewrite Hframe by (right; apply Hfresh2, Hiset').
                 apply Hnew, Hiset'.
              ** apply elem_of_cons in Hiset' as [->|Hiset']; [|inversion Hiset'].
                 exists row'. split; [exact Hrow' | exact Hsampled].
        -- split; [repeat split; assumption|]. split; [exact Hdone|].
           intros iset Hiset. inversion Hiset.
      * intros [p2 g2] (Hkeep2 & Hold & Hnew).
        split; [exact Hkeep2|].
        intros pl' iset Hpl' Hiset. apply elem_of_app in Hpl' as [Hpl'|Hpl'].
        -- apply Hold; assumption.
        -- apply elem_of_cons in Hpl' as [->|Hpl']; [|inversion Hpl'].
           apply Hnew, in_seq1.
           rewrite (infosets_of_player _ _ _ Hpl) in Hiset. exact Hiset.
    + split; [apply keeps_refl|]. intros pl iset Hpl. inversion Hpl.
  - intros [p' g'] (Hkeep & Hall). split; [exact Hkeep|].
    intros pl iset Hpl Hiset. apply Hall; [apply in_seq1, Hpl | exact Hiset].
Qed.

End Loops.


End Sampler.

Lemma cycle_in_unit_interval : in_unit_interval cycle_Uniform.
Proof.
  intros n. unfold cycle_Uniform. simpl.
  assert (Hm : (n mod 4 < 4)%nat) by (apply Nat.mod_upper_bound; lia).
  assert (H0 : (0 <= Z.of_nat (n mod 4) < 4)%Z) by lia.
  destruct H0 as [Hlo Hhi].
  split.
  - apply Qle_shift_div_l; [reflexivity|]. rewrite Qmult_0_l.
    change 0 with (inject_Z 0). rewrite <- Zle_Qle. exact Hlo.
  - apply Qlt_shift_div_r; [reflexivity|]. rewrite Qmult_1_l.
    change 4 with (inject_Z 4). rewrite <- Zlt_Qlt. exact Hhi.
Qed.

(** Among any four draws of the cycle in a row one is 0, and a draw of 0
    fits whatever the partial sum is. *)
Lemma cycle_accepts_within : accepts_within cycle_Uniform 4.
Proof.
  intros g sum _ Hsum.
  assert (Hzero : exists m, (m < 4)%nat /\
            fst (cycle_Uniform (nth_state cycle_Uniform m g)) == 0);
    [|destruct Hzero as (m & Hm & H0); exists m; split; [exact Hm | lra]].
  revert g. clear sum Hsum.
  assert (Hstate : forall m n, nth_state cycle_Uniform m n = (m + n)%nat).
  { induction m as [|m IH]; intros n; simpl; [reflexivity|]. rewrite IH. lia. }
  assert (Hmul : forall a b, a = (b * 4)%nat ->
            fst (cycle_Uniform a) == 0).
  { intros a b ->. unfold cycle_Uniform. cbn [fst].
    rewrite Nat.Div0.mod_mul. reflexivity. }
  intros n.
  pose proof (Nat.div_mod_eq n 4) as Hn.
  assert (Hm : (n mod 4 < 4)%nat) by (apply Nat.mod_upper_bound; lia).
  destruct (n mod 4) as [|[|[|[|k]]]] eqn:Hk; [| | | |lia].
  - exists 0%nat. split; [lia|]. rewrite Hstate. apply (Hmul _ (n / 4)%nat). lia.
  - exists 3%nat. split; [lia|]. rewrite Hstate. apply (Hmul _ (n / 4 + 1)%nat). lia.
  - exists 2%nat. split; [lia|]. rewrite Hstate. apply (Hmul _ (n / 4 + 1)%nat). lia.
  - exists 1%nat. split; [lia|]. rewrite Hstate. apply (Hmul _ (n / 4 + 1)%nat). lia.
Qed.



(** *** The driver *)

Lemma map_length_shape {T : Type} (v : gDPVector T) :
  map length (dp_shape v) = map length v.
Proof.
  unfold dp_shape. rewrite map_map. apply map_ext. intros pl. apply length_map.
Qed.

Lemma length_concat_shape {T : Type} (rows rows' : list (list T)) :
  map length rows = map length rows' -> length (concat rows) = length (concat rows').
Proof.
  revert rows'. induction rows as [|r rows IH]; intros [|r' rows'] H;
    simpl in *; try discriminate; [reflexivity|].
  injection H as Hr Hrows. rewrite !length_app, Hr, (IH rows' Hrows). reflexivity.
Qed.

Lemma dp_Length_shape {T : Type} (v w : gDPVector T) :
  dp_shape v = dp_shape w -> dp_Length v = dp_Length w.
Proof.
  unfold dp_Length, dp_flatten, dp_shape.
  revert w. induction v as [|pl v IH]; intros [|pl' w] H;
    simpl in *; try discriminate; [reflexivity|].
  injection H as Hpl Hv.
  rewrite !concat_app, !length_app, (length_concat_shape pl pl' Hpl), (IH w Hv).
  reflexivity.
Qed.

Lemma sampler_ready_keeps (p p' : BehavProfile) :
  sampler_ready p -> keeps p p' -> sampler_ready p'.
Proof.
  intros (R1 & R2 & R3) (K1 & K2 & K3). split; [|split].
  - rewrite <- map_length_shape, K3, map_length_shape, K1. exact R1.
  - rewrite K2, K3. exact R2.
  - rewrite K2. exact R3.
Qed.

Lemma keeps_assign (p : BehavProfile) (vals : gDPVector Q) :
  dp_shape vals = dp_shape (pvals p) -> keeps p (with_pvals p vals).
Proof. intros H. repeat split. exact H. Qed.

Lemma evaluations_cons (a : attempt) (log : list attempt) :
  evaluations (a :: log) = (length (at_evals a) + evaluations log)%nat.
Proof. unfold evaluations. simpl. apply length_app. Qed.

Section Driver.

Context {rng : Type}.
Variable Uniform : rng -> Q * rng.
Variable CondPayoff : BehavProfile -> nat -> nat -> nat -> Q.
Variable Project : list Q -> list nat -> list Q.
Variable Powell : list Q -> list (list Q) -> EFLiapParams -> bool -> minimizer.

(** Every call of [Value] that returns has counted itself once. *)
Lemma Value_counts (F F' : EFLiapFunc) (v : list Q) (r : Q) :
  Value CondPayoff F v = Ok (F', r) ->
  _nevals F' = (_nevals F + 1)%Z /\ _efg F' = _efg F.
Proof.
  unfold Value. intros H.
  apply bind_Ok_inv in H as (vals & _ & H).
  apply bind_Ok_inv in H as (res & _ & H).
  injection H as <- _. split; reflexivity.
Qed.

(** A run of the minimizer that returns has raised the counter by the
    number of its calls of [Value]. *)
Lemma run_minimizer_counts (m : minimizer) (F F' : EFLiapFunc)
    (evals : list (list Q)) (res : powell_result) :
  run_minimizer CondPayoff F m = Ok (F', evals, res) ->
  _nevals F' = (_nevals F + Z.of_nat (length evals))%Z /\
  (_nevals F <= _nevals F')%Z.
Proof.
  revert F F' evals res. induction m as [found p fret iter st|v k IH];
    intros F F' evals res H; simpl in H.
  - injection H as <- <- _. simpl. lia.
  - apply bind_Ok_inv in H as ([F1 r] & HV & H).
    apply bind_Ok_inv in H as ([[F2 evals2] res2] & Hrun & H).
    injection H as <- <- _.
    apply Value_counts in HV as [HV _].
    apply IH in Hrun as [Hrun _]. simpl length. lia.
Qed.

(** A minimizer that respects the dimension of the profile runs to the
    end against the objective. *)
Lemma run_minimizer_returns (E : Efg) (n : nat) (m : minimizer) (F : EFLiapFunc) :
  respects_dim n m ->
  _efg F = E -> for_game E (_p F) -> dp_Length (pvals (_p F)) = n ->
  returns (run_minimizer CondPayoff F m) (fun '(F', evals, res) =>
    _efg F' = E /\ for_game E (_p F') /\ dp_Length (pvals (_p F')) = n /\
    _nevals F' = (_nevals F + Z.of_nat (length evals))%Z /\
    length (pw_point res) = n).
Proof.
  intros Hm. revert F. induction Hm as [found p fret iter st Hp|v k Hv Hk IH];
    intros F HE Hgame Hn; simpl.
  - apply returns_Ok. simpl. repeat split; try assumption. lia.
  - eapply returns_bind.
    + apply Value_returns; [rewrite HE; exact Hgame | congruence].
    + intros [F1 r] (Hcount & Hefg & Hp1 & Hshape & _ & _).
      eapply returns_bind.
      * apply (IH r F1); [congruence | |].
        -- unfold for_game in *. rewrite Hshape. exact Hgame.
        -- rewrite (dp_Length_shape _ _ Hshape). exact Hn.
      * intros [[F2 evals] res] (H1 & H2 & H3 & H4 & H5).
        apply returns_Ok. repeat split; try assumption.
        simpl length. lia.
Qed.

Lemma continues_true (params : EFLiapParams) (i : Z) (st : liap_state (rng := rng)) :
  continues params i st = true <->
  st_status st = false /\ (i <= nTries params)%Z /\
  (stopAfter params = 0%Z \/
   (Z.of_nat (length (st_solutions st)) < stopAfter params)%Z).
Proof.
  unfold continues.
  rewrite !andb_true_iff, orb_true_iff, negb_true_iff, Z.leb_le, Z.eqb_eq, Z.ltb_lt.
  tauto.
Qed.

Lemma extends_refl (params : EFLiapParams) (i : Z) (st : liap_state (rng := rng)) :
  continues params i st = false -> extends params st i st.
Proof.
  intros Hstop. exists []. simpl length. change (Z.of_nat 0) with 0%Z.
  split; [rewrite app_nil_r; reflexivity|]. split; [reflexivity|]. split; [lia|].
  split; [unfold evaluations; simpl; lia|].
  split; [exists []; rewrite app_nil_r; split; reflexivity|].
  split; [rewrite Z.add_0_r; exact Hstop|]. split; [reflexivity|]. split; [congruence|].
  split; [reflexivity|].
  intros l1 a l2 H. destruct l1; discriminate.
Qed.

(** One pass of the loop followed by the rest of the loop. *)
Lemma extends_step (params : EFLiapParams) (i : Z)
    (st st1 st' : liap_state (rng := rng)) (a : attempt) (s : BehavSolution) :
  continues params i st = true ->
  st_log st1 = st_log st ++ [a] ->
  at_index a = i ->
  _nevals (st_F st1) = (_nevals (st_F st) + Z.of_nat (length (at_evals a)))%Z ->
  st_solutions st1 = st_solutions st ++ (if at_found a then [s] else []) ->
  st_status st1 = false ->
  extends params st1 (i + 1) st' ->
  extends params st i st'.
Proof.
  intros Hgo Hlog Hidx Hev Hsol Hst
    (new & Elog & Eidx & Elen & Eev & (added & Esol & Eadd) & Estop & Enil & Econs & _ & Esplit).
  apply continues_true in Hgo as (Hflag & Htries & Hroom).
  exists (a :: new). simpl length.
  split; [rewrite Elog, Hlog, <- app_assoc; reflexivity|].
  split.
  { simpl map. rewrite Eidx, Hidx.
    rewrite (seqZ_cons i (Z.of_nat (S (length new)))) by lia.
    f_equal. f_equal; lia. }
  split; [lia|].
  split; [rewrite Eev, Hev, evaluations_cons; lia|].
  split.
  { exists ((if at_found a then [s] else []) ++ added).
    rewrite Esol, Hsol, <- app_assoc. split; [reflexivity|].
    rewrite length_app, Eadd. simpl. destruct (at_found a); reflexivity. }
  split; [rewrite <- Estop; f_equal; lia|].
  split; [discriminate|].
  split.
  { intros _. destruct new as [|b new]; [rewrite (Enil eq_refl); exact Hst|].
    apply Econs. discriminate. }
  split; [congruence|].
  intros l1 a0 l2 Hsplit. destruct l1 as [|b l1]; simpl in Hsplit.
  - simpl. rewrite Nat.add_0_r. exact Hroom.
  - injection Hsplit as <- Hsplit.
    destruct (Esplit l1 a0 l2 Hsplit) as [H0|Hlt]; [left; exact H0|].
    right. rewrite Hsol, length_app in Hlt. simpl successes.
    destruct (at_found a); simpl in *; lia.
Qed.

Variable div : Prop.
Variable draws : nat.
Hypothesis Hdraw : forall sum g, 0 <= sum -> sum <= 1 ->
  ends div (draw Uniform draws sum g) (fitting Uniform sum).
Hypothesis Hpowell : forall p xi params status,
  respects_dim (length p) (Powell p xi params status).

Variable E : Efg.
Variable params : EFLiapParams.
Variable start : BehavProfile.
Hypothesis Hstart : profile_of E start.

Lemma Liap_loop_unfold (fuel : nat) (i : Z) (st : liap_state) :
  Liap_loop Uniform CondPayoff Project Powell (S fuel) draws params i st =
  if continues params i st then
    '(p, g) ← (if (1 <? i)%Z
               then PickRandomProfile Uniform draws (st_p st) (st_gen st)
               else Ok (st_p st, st_gen st));
    let xi := InitMatrix Project (dp_Length (pvals p)) (dp_Lengths (pvals p)) in
    '(F, evals, res) ←
      run_minimizer CondPayoff (st_F st)
        (Powell (dp_flatten (pvals p)) xi params (st_status st));
    vals ← dp_assign (pvals p) (pw_point res);
    let p := with_pvals p vals in
    let solutions :=
      if pw_found res then AddSolution (st_solutions st) p (pw_value res)
      else st_solutions st in
    let status := if pw_status res then false else pw_status res in
    Liap_loop Uniform CondPayoff Project Powell fuel draws params (i + 1)%Z
      (mkState p F solutions status g
         (st_log st ++ [mkAttempt i evals (pw_found res) (pw_status res)]))
  else Ok st.
Proof. reflexivity. Qed.

(** The restart loop raises nothing, and the state it ends in extends
    the state it started from; with fuel for the passes that are left it
    does not run out of fuel on its own account. *)
Lemma Liap_loop_ends (fuel : nat) (i : Z) (st : liap_state) :
  div \/ (Z.to_nat (nTries params - i + 1) <= fuel)%nat ->
  keeps start (st_p st) -> _efg (st_F st) = E -> for_game E (_p (st_F st)) ->
  ends div (Liap_loop Uniform CondPayoff Project Powell fuel draws params i st)
    (fun st' => extends params st i st').
Proof.
  revert i st.
  destruct Hstart as (HE & Hgame & Hready).
  induction fuel as [|fuel IH]; intros i st Hfuel Hkeep HF HFgame.
  - simpl. destruct (continues params i st) eqn:Hgo.
    + destruct Hfuel as [Hd|Hfuel]; [exact Hd|].
      apply continues_true in Hgo as (_ & Htries & _). lia.
    + apply returns_ends, returns_Ok, extends_refl, Hgo.
  - rewrite Liap_loop_unfold. destruct (continues params i st) eqn:Hgo;
      [|apply returns_ends, returns_Ok, extends_refl, Hgo].
    pose proof (proj1 (continues_true _ _ _) Hgo) as (Hflag & Htries & Hroom).
    eapply ends_bind.
    { instantiate (1 := fun '(p1, g1) => keeps start p1).
      destruct (1 <? i)%Z.
      - eapply ends_weaken.
        + apply (PickRandomProfile_ends Uniform div draws Hdraw).
          apply (sampler_ready_keeps start); assumption.
        + intros [p1 g1] [Hk _]. exact (keeps_trans _ _ _ Hkeep Hk).
      - apply returns_ends, returns_Ok. exact Hkeep. }
    intros [p1 g1] Hkeep1. cbv zeta.
    assert (Hshape1 : dp_shape (pvals p1) = Dimensionality E).
    { destruct Hkeep1 as (_ & _ & ->). exact Hgame. }
    assert (Hlen1 : dp_Length (pvals (_p (st_F st))) = length (dp_flatten (pvals p1))).
    { apply dp_Length_shape. rewrite Hshape1. exact HFgame. }
    eapply ends_bind.
    { apply returns_ends.
      apply (run_minimizer_returns E (length (dp_flatten (pvals p1))));
        [apply Hpowell | exact HF | exact HFgame | exact Hlen1]. }
    intros [[F1 evals] res] (HF1 & HFgame1 & _ & Hcount & Hpoint).
    eapply ends_bind.
    { apply returns_ends, dp_assign_returns. exact Hpoint. }
    intros vals (_ & Hvals & _).
    eapply ends_weaken.
    { apply IH; [destruct Hfuel; [left; assumption | right; lia] | | exact HF1 | exact HFgame1].
      simpl. apply (keeps_trans _ _ _ Hkeep1), keeps_assign, Hvals. }
    intros st' Hext. cbv beta in Hext.
    refine (extends_step params i st _ st'
              (mkAttempt i evals (pw_found res) (pw_status res))
              (SetLiap (mkSolution (with_pvals p1 vals) EfgAlg_LIAP None) (pw_value res))
              Hgo _ _ _ _ _ Hext);
      [reflexivity | reflexivity | exact Hcount | | ].
    + simpl. destruct (pw_found res); [reflexivity | rewrite app_nil_r; reflexivity].
    + simpl. destruct (pw_status res); reflexivity.
Qed.

(** [Liap] raises nothing, and its result reports the run. *)
Lemma Liap_ends (solutions : list BehavSolution) (status : bool) (g : rng) :
  div \/ (Z.to_nat (nTries params) <= draws)%nat ->
  ends div
    (Liap Uniform CondPayoff Project Powell draws E params start solutions status g)
    (run_report params solutions status g).
Proof.
  intros Hfuel. unfold Liap.
  eapply ends_bind.
  - apply (Liap_loop_ends draws 1); simpl.
    + destruct Hfuel as [Hd|Hfuel]; [left; exact Hd|right].
      replace (nTries params - 1 + 1)%Z with (nTries params) by lia. exact Hfuel.
    + apply keeps_refl.
    + reflexivity.
    + destruct Hstart as (_ & Hgame & _). exact Hgame.
  - intros st' Hext. apply returns_ends, returns_Ok. unfold run_report. simpl.
    destruct Hext as (new & Elog & Eidx & Elen & Eev & Eadd & Estop & Enil & Econs & Eflag & Esplit).
    simpl in *. subst new.
    split; [exact Eidx|]. split; [clear - Elen; lia|].
    split; [unfold NumEvals; clear - Eev; lia|]. split; [reflexivity|].
    split; [exact Eadd|]. split; [reflexivity|].
    split; [intros H; rewrite (Enil H); split; reflexivity|].
    split; [exact Econs|]. split; [exact Eflag|]. split; [|exact Esplit].
    intros Hclear.
    assert (Hst : st_status st' = false).
    { destruct (st_log st') as [|a l] eqn:Hl; [rewrite (Enil eq_refl); exact Hclear|].
      apply Econs. discriminate. }
    unfold continues in Estop. rewrite Hst in Estop. simpl in Estop.
    apply andb_false_iff in Estop as [Htries|Hroom].
    + apply Z.leb_gt in Htries. left. lia.
    + apply orb_false_iff in Hroom as [H0 Hlt].
      apply Z.eqb_neq in H0. apply Z.ltb_ge in Hlt. right. split; assumption.
Qed.

End Driver.


Lemma successes_pos (log : list attempt) :
  (0 < successes log)%nat <-> exists a, a ∈ log /\ at_found a = true.
Proof.
  induction log as [|a log IH]; simpl.
  - split; [lia | intros (a & Ha & _); inversion Ha].
  - destruct (at_found a) eqn:Hf.
    + split; [intros _; exists a; split; [apply elem_of_cons; auto | exact Hf] | lia].
    + simpl. rewrite IH. split.
      * intros (b & Hb & Hfb). exists b. split; [apply elem_of_cons; auto | exact Hfb].
      * intros (b & Hb & Hfb). apply elem_of_cons in Hb as [->|Hb]; [congruence|].
        exists b. auto.
Qed.


Section Claims.

Context {rng : Type}.
Variable Uniform : rng -> Q * rng.
Variable CondPayoff : BehavProfile -> nat -> nat -> nat -> Q.
Variable Project : list Q -> list nat -> list Q.
Variable Powell : list Q -> list (list Q) -> EFLiapParams -> bool -> minimizer.
Variable E : Efg.
Variable params : EFLiapParams.
Variable start : BehavProfile.
Hypothesis Hsetting : search_setting Uniform Powell E start.

(** Whatever the fuel, [Liap] raises nothing and a result it returns
    reports the run. *)
Lemma Liap_partial (fuel : nat) (solutions : list BehavSolution)
    (status : bool) (g : rng) :
  ends True
    (Liap Uniform CondPayoff Project Powell fuel E params start solutions status g)
    (run_report params solutions status g).
Proof.
  destruct Hsetting as (Hunit & Hpowell & Hstart).
  apply (Liap_ends Uniform CondPayoff Project Powell True fuel
           (fun sum g _ _ => draw_partial Uniform Hunit fuel sum g)
           Hpowell E params start Hstart).
  left. exact I.
Qed.

(** With enough fuel [Liap] returns. *)
Lemma Liap_total (B fuel : nat) (solutions : list BehavSolution)
    (status : bool) (g : rng) :
  enough_fuel Uniform B fuel params ->
  returns
    (Liap Uniform CondPayoff Project Powell fuel E params start solutions status g)
    (run_report params solutions status g).
Proof.
  intros (Hacc & HB & Hfuel).
  destruct Hsetting as (Hunit & Hpowell & Hstart).
  apply ends_returns.
  apply (Liap_ends Uniform CondPayoff Project Powell False fuel
           (fun sum g Hlo Hhi => draw_total Uniform Hunit B fuel sum g Hacc HB Hlo Hhi)
           Hpowell E params start Hstart).
  right. exact Hfuel.
Qed.



(** C6.  [Liap] returns [true] exactly when the solution list is not
    empty at the end (on a list that was empty: when some attempt
    succeeded); each call of [Value] raises the counter by one, so that
    it never decreases during a run of the minimizer; and [Liap] reports
    the number of calls of [Value] in [nevals] and 0 in [niters].  The
    call raises nothing, and it returns when the fuel is enough. *)
Theorem Liap_reports (B fuel : nat) (solutions : list BehavSolution)
    (status : bool) (g : rng) :
  (forall F v F' x, Value CondPayoff F v = Ok (F', x) ->
     _nevals F' = (_nevals F + 1)%Z) /\
  (forall m F F' evals res, run_minimizer CondPayoff F m = Ok (F', evals, res) ->
     (_nevals F <= _nevals F')%Z /\
     _nevals F' = (_nevals F + Z.of_nat (length evals))%Z) /\
  ends True
    (Liap Uniform CondPayoff Project Powell fuel E params start solutions status g)
    (fun r =>
       (ret r = true <-> out_solutions r <> []) /\
       (solutions = [] ->
          (ret r = true <-> exists a, a ∈ out_log r /\ at_found a = true)) /\
       out_nevals r = Z.of_nat (evaluations (out_log r)) /\
       out_niters r = 0%Z) /\
  (enough_fuel Uniform B fuel params ->
   exists r,
     Liap Uniform CondPayoff Project Powell fuel E params start solutions status g = Ok r).
Proof.
  split; [intros F v F' x H; apply (Value_counts CondPayoff F F' v x H)|].
  split.
  { intros m F F' evals res H.
    destruct (run_minimizer_counts CondPayoff m F F' evals res H). auto. }
  split.
  - eapply ends_weaken; [apply Liap_partial|].
    intros r (_ & _ & Hev & Hit & (added & Hsol & Hadd) & Hret & _).
    assert (Hne : ret r = true <-> out_solutions r <> []).
    { rewrite Hret, Nat.ltb_lt. destruct (out_solutions r); simpl; split;
        intros H; try lia; try congruence. }
    split; [exact Hne|]. split; [|split; assumption].
    intros ->. rewrite <- successes_pos, Hret, Nat.ltb_lt, Hsol, length_app, Hadd.
    simpl. reflexivity.
  - intros Hfuel.
    destruct (Liap_total B fuel solutions status g Hfuel) as (r & Hr & _).
    exists r. exact Hr.
Qed.

End Claims.

Lemma probe_respects (p : list Q) (xi : list (list Q)) (params : EFLiapParams)
    (status : bool) :
  respects_dim (length p) (probe_Powell p xi params status).
Proof.
  unfold probe_Powell. apply respects_Evaluate; [reflexivity|].
  intros r. apply respects_Finished. reflexivity.
Qed.


Lemma half_half_profile : profile_of one_infoset_game half_half.
Proof.
  split; [reflexivity|]. split; [reflexivity|].
  split; [reflexivity|]. split; [reflexivity|].
  intros i j n. simpl.
  destruct i as [|[|i]]; try discriminate;
    destruct j as [|[|j]]; try discriminate; intros [= <-]; lia.
Qed.

Lemma probe_setting :
  search_setting cycle_Uniform probe_Powell one_infoset_game half_half.
Proof.
  split; [exact cycle_in_unit_interval|]. split; [exact probe_respects|].
  exact half_half_profile.
Qed.


Lemma cycle_fuel : enough_fuel cycle_Uniform 4 10 default_params.
Proof. split; [exact cycle_accepts_within|]. split; [lia | simpl; lia]. Qed.



Lemma Liap_reports_witness :
  exists r,
    Liap cycle_Uniform payoff_1_3 no_Project probe_Powell 10 one_infoset_game
      default_params half_half [] false 0%nat = Ok r.
Proof.
  exact (proj2 (proj2 (proj2 (Liap_reports cycle_Uniform payoff_1_3 no_Project
                                probe_Powell one_infoset_game default_params half_half
                                probe_setting 4 10 [] false 0%nat))) cycle_fuel).
Defined.


(** *** [EFLiapBySubgame::EFLiapBySubgame] *)

Lemma scan_roots_spec (root : NodePtr) (subroots : list NodePtr) (k : nat) :
  (k <= scan_roots root subroots k <= k + length subroots)%nat /\
  ((scan_roots root subroots k < k + length subroots)%nat ->
     subroots !! (scan_roots root subroots k - k)%nat = Some root) /\
  (forall j, (j < scan_roots root subroots k - k)%nat -> subroots !! j <> Some root) /\
  (scan_roots root subroots k = (k + length subroots)%nat -> root ∉ subroots).
Proof.
  revert k. induction subroots as [|r rest IH]; intros k; simpl.
  - split; [lia|]. split; [lia|]. split; [intros j Hj; lia|].
    intros _ H. inversion H.
  - destruct (Nat.eqb root r) eqn:Heq.
    + apply Nat.eqb_eq in Heq as ->. split; [lia|]. split.
      * intros _. rewrite Nat.sub_diag. reflexivity.
      * split; [intros j Hj; lia | lia].
    + apply Nat.eqb_neq in Heq.
      destruct (IH (S k)) as (Hrange & Hhit & Hmiss & Hnone).
      split; [lia|]. split; [|split].
      * intros Hlt.
        replace (scan_roots root rest (S k) - k)%nat
          with (S (scan_roots root rest (S k) - S k)) by lia.
        simpl. apply Hhit. lia.
      * intros j Hj. destruct j as [|j]; simpl; [congruence|].
        apply Hmiss. lia.
      * intros Hend H. apply elem_of_cons in H as [H|H]; [congruence|].
        apply Hnone; [lia | exact H].
Qed.

Lemma pv_set_spec {T : Type} (v : gPVector T) (i j : nat) (x y : T) :
  pv_at v i j = Some y ->
  exists v', pv_set v i j x = Ok v' /\
    pv_at v' i j = Some x /\
    (forall i' j', i' <> i \/ j' <> j -> pv_at v' i' j' = pv_at v i' j') /\
    map length v' = map length v.
Proof.
  intros Hy.
  destruct (pv_at_inv v i j y Hy) as (i0 & j0 & row & -> & -> & Hrow & Hj).
  pose proof (lookup_lt_Some _ _ _ Hrow) as Hi0.
  pose proof (lookup_lt_Some _ _ _ Hj) as Hj0.
  unfold pv_set, set1. simpl. rewrite Hrow. simpl. rewrite Hj. simpl.
  eexists. split; [reflexivity|]. split; [|split].
  - unfold pv_at. simpl. rewrite list_lookup_insert_eq by exact Hi0. simpl.
    apply list_lookup_insert_eq. exact Hj0.
  - intros i' j' Hne. unfold pv_at.
    destruct i' as [|i']; simpl; [reflexivity|].
    destruct (decide (i' = i0)) as [->|Hi'].
    + rewrite list_lookup_insert_eq by exact Hi0. rewrite Hrow.
      destruct j' as [|j']; simpl; [reflexivity|].
      apply list_lookup_insert_ne. destruct Hne as [Hne|Hne]; congruence.
    + rewrite list_lookup_insert_ne by congruence. reflexivity.
  - rewrite list_fmap_insert. apply list_insert_id.
    rewrite list_lookup_fmap, Hrow. simpl. rewrite length_insert. reflexivity.
Qed.

Lemma pv_at_in_dims {T : Type} (E : Efg) (v : gPVector T) (pl iset : nat)
    (player : EFPlayer) :
  map length v = PureDimensionality E ->
  at1 (PlayerList E) pl = Some player ->
  (1 <= iset <= NumInfosets player)%nat ->
  is_Some (pv_at v pl iset).
Proof.
  intros Hdims Hpl Hiset.
  assert (Hrows : at1 (map length v) pl = Some (NumInfosets player)).
  { rewrite Hdims. unfold PureDimensionality. rewrite at1_map, Hpl. reflexivity. }
  rewrite at1_map in Hrows.
  destruct (at1 v pl) as [row|] eqn:Hat; [|discriminate].
  simpl in Hrows. injection Hrows as Hrows.
  unfold pv_at. rewrite Hat. apply at1_is_Some. lia.
Qed.

Lemma first_member_root_inv (E : Efg) (pl iset : nat) (root : NodePtr) :
  first_member_root E pl iset = Some root ->
  exists player infoset member,
    at1 (PlayerList E) pl = Some player /\
    at1 (InfosetList player) iset = Some infoset /\
    at1 (Members infoset) 1 = Some member /\
    root = GetSubgameRoot E member.
Proof.
  unfold first_member_root. intros H.
  apply bind_Some in H as (player & Hp & H).
  apply bind_Some in H as (infoset & Hi & H).
  apply bind_Some in H as (member & Hm & H).
  injection H as <-. eauto 10.
Qed.

Lemma first_index_elem (root : NodePtr) (subroots : list NodePtr) (index : nat) :
  first_index root subroots index -> root ∈ subroots.
Proof. intros (_ & H & _). apply list_elem_of_lookup. eauto. Qed.

(** The constructor either fills the table with the first indices or
    fails its assertion, the latter only on a game that is not rooted. *)
Lemma new_EFLiapBySubgame_guarded (E : Efg) (p : EFLiapParams) (s : BehavProfile)
    (max : Z) :
  has_members E ->
  guarded False (fun e => e = AssertionFailure /\ ~ rooted E)
    (new_EFLiapBySubgame E p s max)
    (fun slv =>
       nevals slv = 0%Z /\ subgame_number slv = 0%nat /\
       params slv = p /\ start slv = s /\
       map length (infoset_subgames slv) = PureDimensionality E /\
       forall pl iset root, first_member_root E pl iset = Some root ->
         exists index, pv_at (infoset_subgames slv) pl iset = Some index /\
                       first_index root (MarkedSubgameRoots E) index).
Proof.
  intros Hmem. unfold new_EFLiapBySubgame.
  eapply guarded_bind.
  - unfold for_upto.
    apply (guarded_for_seq _ _ _ (fun done isg =>
      map length isg = PureDimensionality E /\
      forall pl iset root, pl ∈ done -> first_member_root E pl iset = Some root ->
        exists index, pv_at isg pl iset = Some index /\
                      first_index root (MarkedSubgameRoots E) index)).
    + intros done pl rest isg Hidx (Hdims & Hdone).
      destruct (seq_split _ _ _ _ _ Hidx) as (_ & _ & Hfresh).
      apply split_in, in_seq1 in Hidx.
      destruct (proj2 (at1_is_Some (PlayerList E) pl) Hidx) as [player Hpl].
      rewrite Hpl. simpl.
      eapply guarded_weaken.
      * apply (guarded_for_seq _ _ _ (fun done2 isg2 =>
          map length isg2 = PureDimensionality E /\
          (forall pl' iset root, pl' ∈ done ->
             first_member_root E pl' iset = Some root ->
             exists index, pv_at isg2 pl' iset = Some index /\
                           first_index root (MarkedSubgameRoots E) index) /\
          (forall iset root, iset ∈ done2 ->
             first_member_root E pl iset = Some root ->
             exists index, pv_at isg2 pl iset = Some index /\
                           first_index root (MarkedSubgameRoots E) index))).
        -- intros done2 iset rest2 isg2 Hidx2 (Hdims2 & Hold & Hnew).
           destruct (seq_split _ _ _ _ _ Hidx2) as (_ & _ & Hfresh2).
           apply split_in, in_seq1 in Hidx2.
           destruct (proj2 (at1_is_Some (InfosetList player) iset) Hidx2)
             as [infoset Hinf].
           rewrite Hinf. simpl.
           pose proof (Hmem pl iset player infoset Hpl Hinf) as Hne.
           unfold GetMember.
           destruct (Members infoset) as [|member others] eqn:Hmembers; [congruence|].
           simpl.
           assert (Hroot : first_member_root E pl iset = Some (GetSubgameRoot E member)).
           { unfold first_member_root. rewrite Hpl. simpl. rewrite Hinf. simpl.
             rewrite Hmembers. reflexivity. }
           destruct (scan_roots_spec (GetSubgameRoot E member) (MarkedSubgameRoots E) 1)
             as (Hrange & Hhit & Hmiss & Hnone).
           destruct (scan_roots (GetSubgameRoot E member) (MarkedSubgameRoots E) 1
                     <=? length (MarkedSubgameRoots E))%nat eqn:Hcmp.
           ++ apply Nat.leb_le in Hcmp.
              destruct (pv_at_in_dims E isg2 pl iset player Hdims2 Hpl Hidx2) as [y Hy].
              destruct (pv_set_spec isg2 pl iset
                          (scan_roots (GetSubgameRoot E member) (MarkedSubgameRoots E) 1)
                          y Hy) as (isg3 & Hset & Hat & Hother & Hlen3).
              rewrite Hset. simpl.
              split; [congruence|]. split.
              ** intros pl' iset' root Hpl' Hr.
                 rewrite Hother by (left; apply Hfresh, Hpl').
                 apply Hold; assumption.
              ** intros iset' root Hiset' Hr.
                 apply elem_of_app in Hiset' as [Hiset'|Hiset'].
                 --- rewrite Hother by (right; apply Hfresh2, Hiset').
                     apply Hnew; assumption.
                 --- apply elem_of_cons in Hiset' as [->|Hiset']; [|inversion Hiset'].
                     rewrite Hroot in Hr. injection Hr as <-.
                     eexists. split; [exact Hat|].
                     split; [lia|]. split; [apply Hhit; lia|].
                     intros j Hj. apply Hmiss. exact Hj.
           ++ apply Nat.leb_gt in Hcmp. simpl. split; [reflexivity|].
              intros Hrooted. apply Hnone; [lia|].
              apply (Hrooted pl iset). exact Hroot.
        -- split; [exact Hdims|]. split; [exact Hdone|].
           intros iset root Hiset. inversion Hiset.
      * intros isg2 (Hdims2 & Hold & Hnew). split; [exact Hdims2|].
        intros pl' iset root Hpl' Hr.
        apply elem_of_app in Hpl' as [Hpl'|Hpl']; [apply Hold; assumption|].
        apply elem_of_cons in Hpl' as [->|Hpl']; [|inversion Hpl'].
        apply Hnew; [|exact Hr].
        destruct (first_member_root_inv _ _ _ _ Hr) as (player' & infoset & _ & Hp & Hi & _).
        rewrite Hpl in Hp. injection Hp as <-.
        apply in_seq1, at1_is_Some. eauto.
    + split; [|intros pl iset root Hpl; inversion Hpl].
      rewrite map_map. rewrite <- (map_id (PureDimensionality E)) at 2.
      apply map_ext. intros n. apply length_replicate.
  - intros isg (Hdims & Hall). simpl.
    repeat split; try reflexivity; try exact Hdims.
    intros pl iset root Hr. apply Hall; [|exact Hr].
    destruct (first_member_root_inv _ _ _ _ Hr) as (player & _ & _ & Hp & _).
    apply in_seq1, at1_is_Some. eauto.
Qed.

(** C8.  On a game whose infosets all have a member, the constructor
    returns exactly when the subgame root of every infoset's first member
    occurs among the marked roots, and fails its assertion exactly when
    some does not; when it returns, every (player, infoset) is given the
    position, counted from 1, of the first marked root equal to that
    subgame root. *)
Theorem new_EFLiapBySubgame_assigns (E : Efg) (p : EFLiapParams) (s : BehavProfile)
    (max : Z) :
  has_members E ->
  (rooted E <-> exists slv, new_EFLiapBySubgame E p s max = Ok slv) /\
  (~ rooted E <-> new_EFLiapBySubgame E p s max = Raise AssertionFailure) /\
  (forall slv, new_EFLiapBySubgame E p s max = Ok slv ->
     nevals slv = 0%Z /\ subgame_number slv = 0%nat /\
     params slv = p /\ start slv = s /\
     map length (infoset_subgames slv) = PureDimensionality E /\
     forall pl iset root, first_member_root E pl iset = Some root ->
       exists index, pv_at (infoset_subgames slv) pl iset = Some index /\
                     first_index root (MarkedSubgameRoots E) index).
Proof.
  intros Hmem.
  pose proof (new_EFLiapBySubgame_guarded E p s max Hmem) as H.
  destruct (new_EFLiapBySubgame E p s max) as [slv|e|]; simpl in H.
  - assert (Hrooted : rooted E).
    { intros pl iset root Hr.
      destruct H as (_ & _ & _ & _ & _ & Hall).
      destruct (Hall pl iset root Hr) as (index & _ & Hfirst).
      exact (first_index_elem _ _ _ Hfirst). }
    split; [split; [eauto | intros _; exact Hrooted]|].
    split; [split; [tauto | discriminate]|].
    intros slv' [= <-]. exact H.
  - destruct H as [-> Hnot].
    split; [split; [tauto | intros (slv & Hslv); discriminate]|].
    split; [tauto|]. intros slv Hslv. discriminate.
  - destruct H.
Qed.

Lemma game_AB_has_members : has_members game_AB.
Proof.
  intros pl iset player infoset Hpl Hinf.
  destruct pl as [|[|pl]]; simpl in Hpl; try discriminate.
  injection Hpl as <-.
  destruct iset as [|[|[|iset]]]; simpl in Hinf; try discriminate;
    injection Hinf as <-; discriminate.
Qed.

Lemma new_EFLiapBySubgame_assigns_witness :
  has_members game_AB /\
  (rooted game_AB <->
   exists slv, new_EFLiapBySubgame game_AB default_params start_AB 5 = Ok slv).
Proof.
  split; [exact game_AB_has_members|].
  exact (proj1 (new_EFLiapBySubgame_assigns game_AB default_params start_AB 5
                  game_AB_has_members)).
Defined.

(** *** [EFLiapBySubgame::SolveSubgame] *)

Section Copy.

Variable slv : EFLiapBySubgame.

(** The loop over the actions copies the block of [(pl, iset)] of the
    starting profile into the block of [(pl, niset)]. *)
Lemma copy_actions (bp : BehavProfile) (pl iset niset na : nat) (row : list Q) :
  pv_at (pvals bp) pl niset = Some row -> length row = na ->
  (forall act, (1 <= act <= na)%nat ->
     is_Some (dp_at (pvals (start slv)) pl iset act)) ->
  returns
    (for_upto na (fun act bp =>
       x ← dp_get (pvals (start slv)) pl iset act;
       vals ← dp_set (pvals bp) pl niset act x;
       Ok (with_pvals bp vals)) bp)
    (fun bp' =>
       keeps bp bp' /\
       (forall i' j', i' <> pl \/ j' <> niset ->
          pv_at (pvals bp') i' j' = pv_at (pvals bp) i' j') /\
       exists row', pv_at (pvals bp') pl niset = Some row' /\ length row' = na /\
         forall act, (1 <= act <= na)%nat ->
           at1 row' act = dp_at (pvals (start slv)) pl iset act).
Proof.
  intros Hrow Hlen Hstart. unfold for_upto.
  eapply returns_weaken.
  - apply (for_seq_inv _ (fun done bp' =>
      keeps bp bp' /\
      (forall i' j', i' <> pl \/ j' <> niset ->
         pv_at (pvals bp') i' j' = pv_at (pvals bp) i' j') /\
      exists row', pv_at (pvals bp') pl niset = Some row' /\ length row' = na /\
        forall act, act ∈ done ->
          at1 row' act = dp_at (pvals (start slv)) pl iset act)).
    + intros done act rest bp' Hidx (Hkeep & Hframe & row' & Hrow' & Hlen' & Hdone).
      destruct (seq_split _ _ _ _ _ Hidx) as (_ & _ & Hfresh).
      apply split_in, in_seq1 in Hidx.
      destruct (Hstart act Hidx) as [x Hx].
      unfold dp_get. rewrite Hx. simpl.
      destruct (dp_set_spec (pvals bp') pl niset act x row' Hrow')
        as (v' & Hset & Hnew & Hother & Hshape); [lia|].
      rewrite Hset. simpl. apply returns_Ok.
      split; [|split].
      * destruct Hkeep as (K1 & K2 & K3). repeat split; simpl; congruence.
      * intros i' j' Hne. simpl. rewrite (Hother i' j' Hne). apply Hframe, Hne.
      * exists (<[pred act := x]> row'). simpl.
        split; [exact Hnew|]. split; [rewrite length_insert; exact Hlen'|].
        intros act' Hact'. apply elem_of_app in Hact' as [Hact'|Hact'].
        -- rewrite <- (Hdone act' Hact').
           pose proof (Hfresh act' Hact') as Hne.
           destruct act' as [|act']; [reflexivity|]. simpl.
           apply list_lookup_insert_ne. lia.
        -- apply elem_of_cons in Hact' as [->|Hact']; [|inversion Hact'].
           rewrite Hx. destruct act as [|act]; [lia|]. simpl.
           apply list_lookup_insert_eq. lia.
    + split; [apply keeps_refl|]. split; [reflexivity|].
      exists row. split; [exact Hrow|]. split; [exact Hlen|].
      intros act Hact. inversion Hact.
  - intros bp' (Hkeep & Hframe & row' & Hrow' & Hlen' & Hdone).
    split; [exact Hkeep|]. split; [exact Hframe|].
    exists row'. split; [exact Hrow'|]. split; [exact Hlen'|].
    intros act Hact. apply Hdone, in_seq1, Hact.
Qed.

Lemma at1_snoc {A : Type} (l : list A) (x y : A) (m : nat) :
  at1 (l ++ [x]) m = Some y ->
  at1 l m = Some y \/ (m = S (length l) /\ y = x).
Proof.
  destruct m as [|m]; simpl; [discriminate|].
  intros H. apply lookup_app_Some in H as [H|[Hge H]]; [left; exact H|].
  right. destruct (m - length l)%nat as [|k] eqn:Hk; simpl in H; [|destruct k; discriminate].
  injection H as <-. split; [lia | reflexivity].
Qed.

Lemma matched_eq (pl n : nat) :
  at1 (map length (infoset_subgames slv)) pl = Some n ->
  matched slv pl =
  filter (fun iset => pv_at (infoset_subgames slv) pl iset = Some (subgame_number slv))
         (seq 1 n).
Proof.
  intros H. unfold matched. rewrite at1_map in H. rewrite H. reflexivity.
Qed.

(** The loop over the infosets of player [pl]: the matched infosets are
    copied, in order, into the local infosets 1, 2, ... *)
Lemma copy_player (E : Efg) (bp0 bp1 : BehavProfile) (pl n : nat) :
  subgame_fits slv E bp0 -> keeps bp0 bp1 ->
  (1 <= pl <= NumPlayers E)%nat ->
  at1 (map length (infoset_subgames slv)) pl = Some n ->
  returns
    (for_upto n (fun iset '(bp, niset) =>
       sg ← or_raise BadAccess (pv_at (infoset_subgames slv) pl iset);
       if Nat.eqb sg (subgame_number slv) then
         na ← SupportNumActions bp pl niset;
         bp ← for_upto na (fun act bp =>
           x ← dp_get (pvals (start slv)) pl iset act;
           vals ← dp_set (pvals bp) pl niset act x;
           Ok (with_pvals bp vals)) bp;
         Ok (bp, S niset)
       else Ok (bp, niset)) (bp1, 1%nat))
    (fun '(bp2, niset) =>
       keeps bp1 bp2 /\
       (forall i' j', i' <> pl \/ ~ (1 <= j' <= length (matched slv pl))%nat ->
          pv_at (pvals bp2) i' j' = pv_at (pvals bp1) i' j') /\
       (forall m iset, at1 (matched slv pl) m = Some iset ->
          exists row', pv_at (pvals bp2) pl m = Some row' /\
            forall na act, pv_at (GetEFSupport bp0) pl m = Some na ->
              (1 <= act <= na)%nat ->
              at1 row' act = dp_at (pvals (start slv)) pl iset act)).
Proof.
  intros (Hplayers & Hsupp & Hfits) Hkeep1 Hpl Hn.
  rewrite (matched_eq pl n Hn).
  set (P := fun iset => pv_at (infoset_subgames slv) pl iset = Some (subgame_number slv)).
  unfold for_upto.
  eapply returns_weaken.
  - apply (for_seq_inv _ (fun done2 '(bp2, niset) =>
      keeps bp1 bp2 /\ niset = S (length (filter P done2)) /\
      (forall i' j', i' <> pl \/ ~ (1 <= j' <= length (filter P done2))%nat ->
         pv_at (pvals bp2) i' j' = pv_at (pvals bp1) i' j') /\
      (forall m iset, at1 (filter P done2) m = Some iset ->
         exists row', pv_at (pvals bp2) pl m = Some row' /\
           forall na act, pv_at (GetEFSupport bp0) pl m = Some na ->
             (1 <= act <= na)%nat ->
             at1 row' act = dp_at (pvals (start slv)) pl iset act))).
    + intros done2 iset rest2 [bp2 niset] Hidx (Hkeep2 & -> & Hframe & Hrows).
      pose proof Hidx as Hsplit. apply split_in, in_seq1 in Hidx.
      assert (Hsg : is_Some (pv_at (infoset_subgames slv) pl iset)).
      { rewrite at1_map in Hn. unfold pv_at.
        destruct (at1 (infoset_subgames slv) pl) as [rowpl|]; [|discriminate].
        simpl in Hn. injection Hn as <-. apply at1_is_Some. exact Hidx. }
      destruct Hsg as [sg Hsg]. rewrite Hsg. simpl.
      rewrite filter_app.
      destruct (Nat.eqb sg (subgame_number slv)) eqn:Heq.
      * apply Nat.eqb_eq in Heq. subst sg.
        rewrite (filter_cons_True P iset []) by exact Hsg. rewrite filter_nil.
        assert (Hm : at1 (matched slv pl) (S (length (filter P done2))) = Some iset).
        { rewrite (matched_eq pl n Hn), Hsplit, filter_app.
          rewrite (filter_cons_True P iset rest2) by exact Hsg.
          simpl. apply list_lookup_middle. reflexivity. }
        destruct (Hfits pl _ iset Hpl Hm) as (na & Hna & Hstart).
        assert (Hkeep02 : keeps bp0 bp2) by exact (keeps_trans _ _ _ Hkeep1 Hkeep2).
        unfold SupportNumActions.
        replace (GetEFSupport bp2) with (GetEFSupport bp0)
          by (destruct Hkeep02 as (_ & -> & _); reflexivity).
        rewrite Hna. simpl.
        assert (Hshape : pv_at (dp_shape (pvals bp2)) pl (S (length (filter P done2))) = Some na).
        { destruct Hkeep02 as (_ & _ & ->). rewrite <- Hsupp. exact Hna. }
        destruct (pv_at_of_shape _ _ _ _ Hshape) as (row & Hrow & Hlen).
        eapply returns_bind;
          [apply (copy_actions bp2 pl iset _ na row Hrow Hlen Hstart)|].
        intros bp3 (Hkeep3 & Hframe3 & row' & Hrow' & Hlen' & Hcopied).
        apply returns_Ok.
        split; [exact (keeps_trans _ _ _ Hkeep2 Hkeep3)|].
        split; [rewrite length_app; simpl; f_equal; lia|].
        rewrite length_app. simpl length. split.
        -- intros i' j' Hne. rewrite Hframe3 by (destruct Hne; [left; assumption | right; lia]).
           apply Hframe. destruct Hne; [left; assumption | right; lia].
        -- intros m iset' Hm'. apply at1_snoc in Hm' as [Hm'|[-> ->]].
           ++ rewrite Hframe3.
              ** apply Hrows, Hm'.
              ** right. apply mk_is_Some, at1_is_Some in Hm'. lia.
           ++ exists row'. split; [exact Hrow'|].
              intros na' act Hna' Hact. rewrite Hna in Hna'. injection Hna' as <-.
              apply Hcopied, Hact.
      * apply Nat.eqb_neq in Heq.
        rewrite (filter_cons_False P iset []) by (unfold P; rewrite Hsg; congruence).
        rewrite filter_nil, app_nil_r. apply returns_Ok.
        split; [exact Hkeep2|]. split; [reflexivity|]. split; [exact Hframe | exact Hrows].
    + split; [apply keeps_refl|]. split; [reflexivity|].
      split; [reflexivity|]. intros m iset Hm. destruct m; discriminate.
  - intros [bp2 niset] (Hkeep2 & _ & Hframe & Hrows).
    split; [exact Hkeep2|]. split; [exact Hframe | exact Hrows].
Qed.

(** The copy loop of [SolveSubgame]. *)
Lemma copy_start_returns (E : Efg) (bp : BehavProfile) :
  subgame_fits slv E bp -> returns (copy_start slv E bp) (copied slv E bp).
Proof.
  intros Hfits. pose proof Hfits as (Hplayers & Hsupp & _).
  unfold copy_start, for_upto.
  eapply returns_weaken.
  - apply (for_seq_inv _ (fun done bp1 =>
      keeps bp bp1 /\
      (forall pl m, pl ∉ done \/ ~ (1 <= m <= length (matched slv pl))%nat ->
         pv_at (pvals bp1) pl m = pv_at (pvals bp) pl m) /\
      (forall pl m iset, pl ∈ done -> at1 (matched slv pl) m = Some iset ->
         exists row', pv_at (pvals bp1) pl m = Some row' /\
           forall na act, pv_at (GetEFSupport bp) pl m = Some na ->
             (1 <= act <= na)%nat ->
             at1 row' act = dp_at (pvals (start slv)) pl iset act))).
    + intros done pl rest bp1 Hidx (Hkeep1 & Hframe & Hrows).
      destruct (seq_split _ _ _ _ _ Hidx) as (_ & _ & Hfresh).
      apply split_in, in_seq1 in Hidx.
      assert (Hn : is_Some (at1 (map length (infoset_subgames slv)) pl))
        by (apply at1_is_Some; rewrite length_map; lia).
      destruct Hn as [n Hn]. rewrite Hn. simpl.
      eapply returns_bind; [apply (copy_player E bp bp1 pl n Hfits Hkeep1 Hidx Hn)|].
      intros [bp2 niset] (Hkeep2 & Hframe2 & Hrows2). apply returns_Ok.
      split; [exact (keeps_trans _ _ _ Hkeep1 Hkeep2)|]. split.
      * intros pl' m Hne. destruct (decide (pl' = pl)) as [->|Hpl'].
        -- rewrite Hframe2.
           ++ apply Hframe. left. intros Hin. exact (Hfresh pl Hin eq_refl).
           ++ right. destruct Hne as [Hne|Hne]; [|exact Hne].
              exfalso. apply Hne, elem_of_app. right. apply elem_of_cons. auto.
        -- rewrite Hframe2 by (left; exact Hpl').
           apply Hframe. destruct Hne as [Hne|Hne]; [|right; exact Hne].
           left. intros Hin. apply Hne, elem_of_app. left. exact Hin.
      * intros pl' m iset Hpl' Hm. apply elem_of_app in Hpl' as [Hpl'|Hpl'].
        -- rewrite Hframe2 by (left; apply Hfresh, Hpl'). apply Hrows; assumption.
        -- apply elem_of_cons in Hpl' as [->|Hpl']; [|inversion Hpl'].
           apply Hrows2, Hm.
    + split; [apply keeps_refl|]. split; [reflexivity|].
      intros pl m iset Hpl. inversion Hpl.
  - intros bp' (Hkeep & Hframe & Hrows). split; [exact Hkeep|]. split.
    + intros pl m iset na act Hpl Hm Hna Hact.
      destruct (Hrows pl m iset (proj2 (in_seq1 _ _) Hpl) Hm) as (row' & Hrow' & Hcopied).
      unfold dp_at at 1. rewrite Hrow'. apply (Hcopied na act Hna Hact).
    + intros pl m Hne. apply Hframe.
      destruct (decide (1 <= pl <= NumPlayers E)%nat) as [Hpl|Hpl].
      * right. intros Hm. apply Hne. split; assumption.
      * left. rewrite in_seq1. exact Hpl.
Qed.

End Copy.

Lemma profile_of_keeps (E : Efg) (p p' : BehavProfile) :
  profile_of E p -> keeps p p' -> profile_of E p'.
Proof.
  intros (HE & Hgame & Hready) Hkeep. split; [|split].
  - destruct Hkeep as (-> & _ & _). exact HE.
  - unfold for_game in *. destruct Hkeep as (_ & _ & ->). exact Hgame.
  - exact (sampler_ready_keeps p p' Hready Hkeep).
Qed.

Section Subgame.

Context {rng : Type}.
Variable Uniform : rng -> Q * rng.
Variable CondPayoff : BehavProfile -> nat -> nat -> nat -> Q.
Variable Project : list Q -> list nat -> list Q.
Variable Powell : list Q -> list (list Q) -> EFLiapParams -> bool -> minimizer.
Variable new_BehavProfile : Efg -> BehavProfile.

(** C7.  A call of [SolveSubgame] adds 1 to the subgame counter and
    builds the new profile of the given game; for each player it matches
    the infosets that the table maps to the new counter value, in order
    of appearance, with the local infosets 1, 2, ... and copies their
    probabilities from the starting profile (nothing else in the new
    profile is written).  It then runs [Liap] on that profile, adds the
    evaluation count of the search to [nevals], and returns the value of
    the cancellation flag.  The search raises nothing, and the call
    returns when the fuel is enough. *)
Theorem SolveSubgame_solves_next (B fuel : nat) (slv : EFLiapBySubgame) (E : Efg)
    (solns : list BehavSolution) (status : bool) (g : rng) :
  subgame_fits (bump slv) E (new_BehavProfile E) ->
  search_setting Uniform Powell E (new_BehavProfile E) ->
  exists bp,
    copy_start (bump slv) E (new_BehavProfile E) = Ok bp /\
    copied (bump slv) E (new_BehavProfile E) bp /\
    subgame_number (bump slv) = S (subgame_number slv) /\
    SolveSubgame Uniform CondPayoff Project Powell new_BehavProfile fuel slv E
      solns status g =
    (r ← Liap Uniform CondPayoff Project Powell fuel E (params slv) bp solns status g;
     Ok (mkBySubgame (nevals slv + out_nevals r) (S (subgame_number slv))
           (infoset_subgames slv) (params slv) (start slv),
         Z.b2z (out_status r), r)) /\
    ends True
      (Liap Uniform CondPayoff Project Powell fuel E (params slv) bp solns status g)
      (fun r => out_nevals r = Z.of_nat (evaluations (out_log r))) /\
    (enough_fuel Uniform B fuel (params slv) ->
     exists r,
       Liap Uniform CondPayoff Project Powell fuel E (params slv) bp solns status g
         = Ok r /\
       SolveSubgame Uniform CondPayoff Project Powell new_BehavProfile fuel slv E
         solns status g =
       Ok (mkBySubgame (nevals slv + out_nevals r) (S (subgame_number slv))
             (infoset_subgames slv) (params slv) (start slv),
           Z.b2z (out_status r), r)).
Proof.
  intros Hfits (Hunit & Hpowell & Hstart).
  destruct (copy_start_returns (bump slv) E (new_BehavProfile E) Hfits)
    as (bp & Hcopy & Hcopied).
  assert (Hbp : search_setting Uniform Powell E bp).
  { split; [exact Hunit|]. split; [exact Hpowell|].
    destruct Hcopied as (Hkeep & _). exact (profile_of_keeps E _ bp Hstart Hkeep). }
  assert (Hsolve :
    SolveSubgame Uniform CondPayoff Project Powell new_BehavProfile fuel slv E
      solns status g =
    (r ← Liap Uniform CondPayoff Project Powell fuel E (params slv) bp solns status g;
     Ok (mkBySubgame (nevals slv + out_nevals r) (S (subgame_number slv))
           (infoset_subgames slv) (params slv) (start slv),
         Z.b2z (out_status r), r))).
  { unfold SolveSubgame. rewrite Hcopy. reflexivity. }
  exists bp. split; [exact Hcopy|]. split; [exact Hcopied|].
  split; [reflexivity|]. split; [exact Hsolve|]. split.
  - eapply ends_weaken;
      [apply (Liap_partial Uniform CondPayoff Project Powell E (params slv) bp Hbp)|].
    intros r (_ & _ & Hev & _). exact Hev.
  - intros Hfuel.
    destruct (Liap_total Uniform CondPayoff Project Powell E (params slv) bp Hbp
                B fuel solns status g Hfuel) as (r & Hr & _).
    exists r. split; [exact Hr|]. rewrite Hsolve, Hr. reflexivity.
Qed.

End Subgame.

Lemma zero_B_profile : profile_of game_B (zero_profile game_B).
Proof.
  split; [reflexivity|]. split; [reflexivity|].
  split; [reflexivity|]. split; [reflexivity|].
  intros i j n. simpl.
  destruct i as [|[|i]]; try discriminate;
    destruct j as [|[|j]]; try discriminate; intros [= <-]; lia.
Qed.

Lemma solver_AB_fits : subgame_fits (bump solver_AB) game_B (zero_profile game_B).
Proof.
  split; [unfold NumPlayers; simpl; lia|]. split; [reflexivity|].
  intros pl m iset Hpl Hm. unfold NumPlayers in Hpl. simpl in Hpl.
  assert (pl = 1%nat) by lia. subst pl.
  change (matched (bump solver_AB) 1) with [2%nat] in Hm.
  destruct m as [|[|m]]; simpl in Hm; try discriminate. injection Hm as <-.
  exists 2%nat. split; [reflexivity|].
  intros act Hact.
  destruct act as [|[|[|act]]]; try lia; eexists; reflexivity.
Qed.

Lemma subgame_setting :
  search_setting cycle_Uniform probe_Powell game_B (zero_profile game_B).
Proof.
  split; [exact cycle_in_unit_interval|]. split; [exact probe_respects|].
  exact zero_B_profile.
Qed.

Lemma SolveSubgame_solves_next_witness :
  exists bp,
    copy_start (bump solver_AB) game_B (zero_profile game_B) = Ok bp /\
    copied (bump solver_AB) game_B (zero_profile game_B) bp /\
    exists r,
      SolveSubgame cycle_Uniform payoff_1_3 no_Project probe_Powell zero_profile
        10 solver_AB game_B [] false 0%nat =
      Ok (mkBySubgame (nevals solver_AB + out_nevals r) (S (subgame_number solver_AB))
            (infoset_subgames solver_AB) (params solver_AB) (start solver_AB),
          Z.b2z (out_status r), r).
Proof.
  destruct (SolveSubgame_solves_next cycle_Uniform payoff_1_3 no_Project probe_Powell
              zero_profile 4 10 solver_AB game_B [] false 0%nat
              solver_AB_fits subgame_setting)
    as (bp & Hcopy & Hcopied & _ & _ & _ & Htotal).
  exists bp. split; [exact Hcopy|]. split; [exact Hcopied|].
  destruct (Htotal cycle_fuel) as (r & _ & Hsolve).
  exists r. exact Hsolve.
Defined.

(** *** The small instance, run *)

Example Value_at_half_half :
  match Value payoff_1_3 (new_EFLiapFunc one_infoset_game half_half) [1 # 2; 1 # 2] with
  | Ok (F', r) => _nevals F' = 1%Z /\ r == 1
  | _ => False
  end.
Proof. split; reflexivity. Qed.

Example Value_at_best_response :
  match Value payoff_1_3 (new_EFLiapFunc one_infoset_game half_half) [0; 1] with
  | Ok (F', r) => r == 0
  | _ => False
  end.
Proof. reflexivity. Qed.

Example Value_at_negative_probability :
  match Value payoff_1_3 (new_EFLiapFunc one_infoset_game half_half) [- (1 # 2); 3 # 2] with
  | Ok (F', r) => r == 2500
  | _ => False
  end.
Proof. reflexivity. Qed.

Example Value_wrong_length :
  Value payoff_1_3 (new_EFLiapFunc one_infoset_game half_half) [1] =
  Raise gbtDimensionException.
Proof. reflexivity. Qed.

(** The first attempt starts from (1/2, 1/2) and fails, the second draws
    0 for the first action, reaches (0, 1) and succeeds; the loop stops. *)
Example Liap_probe_run :
  (r ← Liap cycle_Uniform payoff_1_3 no_Project probe_Powell 10 one_infoset_game
         default_params half_half [] false 0%nat; Ok (summary r)) =
  Ok (true, 1%nat, 2%Z, 0%Z, false, [false; true], [false; false]).
Proof. reflexivity. Qed.

(** A minimizer interrupted on every run: all ten attempts are made and
    the flag is clear at the end. *)
Example Liap_rude_run :
  (r ← Liap cycle_Uniform payoff_1_3 no_Project rude_Powell 10 one_infoset_game
         default_params half_half [] false 0%nat; Ok (summary r)) =
  Ok (false, 0%nat, 10%Z, 0%Z, false, replicate 10 false, replicate 10 true).
Proof. vm_compute. reflexivity. Qed.

Example constructor_on_game_AB :
  infoset_subgames <$> new_EFLiapBySubgame game_AB default_params start_AB 5 =
  Ok [[2%nat; 1%nat]].
Proof. reflexivity. Qed.

Example constructor_on_unmarked_root :
  new_EFLiapBySubgame game_AB_unmarked default_params start_AB 5 =
  Raise AssertionFailure.
Proof. reflexivity. Qed.

(** The first subgame solved is the one of root 2: the block of infoset
    [B] of the starting profile goes to the local infoset 1. *)
Example copy_start_on_game_B :
  pvals <$> copy_start (bump solver_AB) game_B (zero_profile game_B) =
  Ok [[[0; 1]]].
Proof. reflexivity. Qed.

(** *** The objective as a function of the point *)

Lemma refill_rows_shape {T : Type} (rows rows' : list (list T)) (flat : list T) :
  map length rows = map length rows' -> refill_rows rows flat = refill_rows rows' flat.
Proof.
  revert rows' flat. induction rows as [|r rows IH]; intros [|r' rows'] flat H;
    simpl in *; try discriminate; [reflexivity|].
  injection H as Hr Hrows. rewrite Hr, (IH rows' _ Hrows). reflexivity.
Qed.

Lemma refill_shape {T : Type} (v v' : gDPVector T) (flat : list T) :
  dp_shape v = dp_shape v' -> refill v flat = refill v' flat.
Proof.
  unfold dp_shape. revert v' flat. induction v as [|pl v IH]; intros [|pl' v'] flat H;
    simpl in *; try discriminate; [reflexivity|].
  injection H as Hpl Hv.
  rewrite (length_concat_shape pl pl' Hpl), (refill_rows_shape pl pl' _ Hpl),
    (IH v' _ Hv).
  reflexivity.
Qed.

(** X27.
    The value at a point does not depend on the points evaluated before:
    a call of [Value] overwrites the profile and the conditional payoffs
    of the function, so after any evaluation the next one returns (or
    raises) what it would have without it; only the counter tells the
    two apart. *)
Theorem Value_forgets_history (CondPayoff : BehavProfile -> nat -> nat -> nat -> Q)
    (F F1 : EFLiapFunc) (w v : list Q) (r1 : Q) :
  Value CondPayoff F w = Ok (F1, r1) ->
  observed <$> Value CondPayoff F1 v = observed <$> Value CondPayoff F v /\
  NumEvals F1 = (NumEvals F + 1)%Z.
Proof.
  intros H. unfold Value in H.
  unfold dp_assign in H.
  destruct (decide (length w = dp_Length (pvals (_p F)))) as [Hw|Hw];
    [|discriminate].
  apply bind_Ok_inv in H as (vals & [= <-] & H).
  apply bind_Ok_inv in H as (res & _ & [= <- <-]).
  split; [|reflexivity].
  destruct (refill_spec (pvals (_p F)) w Hw) as [Hshape _].
  unfold Value, with_pvals. cbn [_p _efg _nevals pvals BelongsTo GetEFSupport].
  unfold dp_assign.
  rewrite (dp_Length_shape _ _ Hshape), (refill_shape _ _ v Hshape).
  destruct (decide (length v = dp_Length (pvals (_p F)))) as [Hv|Hv];
    [|reflexivity].
  cbn [mbind outcome_bind].
  match goal with
  | |- context [for_upto ?n ?body ?s] => destruct (for_upto n body s)
  end; reflexivity.
Qed.

Lemma Value_forgets_history_witness :
  Value payoff_1_3 (new_EFLiapFunc one_infoset_game half_half) [1; 0]
    = Ok (mkFunc 1 one_infoset_game
            (with_pvals half_half [[[1; 0]]]) [[[1; 3]]], 4) /\
  observed <$> Value payoff_1_3
                 (mkFunc 1 one_infoset_game
                    (with_pvals half_half [[[1; 0]]]) [[[1; 3]]]) [0; 1]
  = observed <$> Value payoff_1_3 (new_EFLiapFunc one_infoset_game half_half) [0; 1].
Proof.
  assert (H : Value payoff_1_3 (new_EFLiapFunc one_infoset_game half_half) [1; 0]
              = Ok (mkFunc 1 one_infoset_game
                      (with_pvals half_half [[[1; 0]]]) [[[1; 3]]], 4))
    by reflexivity.
  split; [exact H|].
  apply (proj1 (Value_forgets_history payoff_1_3 _ _ [1; 0] [0; 1] 4 H)).
Defined.

(** *** Searches that have nothing to do, or one attempt *)

(** X28.
    A call with [nTries] below 1, or with [stopAfter] solutions already
    in the list, makes no attempt: no evaluation, no draw, the list and
    the flag are left as they are, and the result is whether the list is
    non-empty.  No fuel is needed and nothing is asked of the minimizer
    or of the starting profile. *)
Theorem Liap_nothing_to_do {rng : Type} (Uniform : rng -> Q * rng)
    (CondPayoff : BehavProfile -> nat -> nat -> nat -> Q)
    (Project : list Q -> list nat -> list Q)
    (Powell : list Q -> list (list Q) -> EFLiapParams -> bool -> minimizer)
    (fuel : nat) (E : Efg) (params : EFLiapParams) (start : BehavProfile)
    (solutions : list BehavSolution) (status : bool) (g : rng) :
  (nTries params < 1)%Z \/
  (stopAfter params <> 0%Z /\ (stopAfter params <= Z.of_nat (length solutions))%Z) ->
  Liap Uniform CondPayoff Project Powell fuel E params start solutions status g =
  Ok (mkResult (0 <? length solutions)%nat solutions 0%Z 0%Z status g []).
Proof.
  intros Hidle. unfold Liap.
  assert (Hstop : forall st, st_solutions st = solutions ->
            continues params 1 (st : liap_state (rng := rng)) = false).
  { intros st Hst. unfold continues. rewrite Hst.
    destruct Hidle as [Hn | [Hs Hlen]].
    - replace (1 <=? nTries params)%Z with false by (symmetry; apply Z.leb_gt; lia).
      rewrite andb_false_r. reflexivity.
    - replace (stopAfter params =? 0)%Z with false by (symmetry; apply Z.eqb_neq; lia).
      replace (Z.of_nat (length solutions) <? stopAfter params)%Z with false
        by (symmetry; apply Z.ltb_ge; lia).
      rewrite andb_false_r. reflexivity. }
  destruct fuel; cbn [Liap_loop]; rewrite Hstop by reflexivity; reflexivity.
Qed.

Lemma Liap_nothing_to_do_witness :
  ((nTries default_params < 1)%Z \/
   (stopAfter default_params <> 0%Z /\
    (stopAfter default_params
     <= Z.of_nat (length [mkSolution half_half EfgAlg_USER None]))%Z)) /\
  Liap cycle_Uniform payoff_1_3 no_Project probe_Powell 0 one_infoset_game
    default_params half_half [mkSolution half_half EfgAlg_USER None] false 0%nat =
  Ok (mkResult true [mkSolution half_half EfgAlg_USER None] 0%Z 0%Z false 0%nat []).
Proof.
  assert (H : (nTries default_params < 1)%Z \/
              (stopAfter default_params <> 0%Z /\
               (stopAfter default_params
                <= Z.of_nat (length [mkSolution half_half EfgAlg_USER None]))%Z)).
  { right. simpl. split; [discriminate | lia]. }
  split; [exact H|].
  apply (Liap_nothing_to_do cycle_Uniform payoff_1_3 no_Project probe_Powell 0
           one_infoset_game default_params half_half
           [mkSolution half_half EfgAlg_USER None] false 0%nat H).
Defined.





(** *** The table of the constructor, as [SolveSubgame] reads it *)

Lemma first_index_unique (root : NodePtr) (subroots : list NodePtr) (i j : nat) :
  first_index root subroots i -> first_index root subroots j -> i = j.
Proof.
  intros (Hi1 & Hi2 & Hi3) (Hj1 & Hj2 & Hj3).
  destruct (Nat.lt_trichotomy i j) as [Hlt | [Heq | Hgt]]; [|exact Heq|].
  - exfalso. apply (Hj3 (i - 1)%nat); [lia | exact Hi2].
  - exfalso. apply (Hi3 (j - 1)%nat); [lia | exact Hj2].
Qed.

(** X30.
    The constructor and [SolveSubgame] fit together: with the table the
    constructor has built, the infosets of a player that a call of
    [SolveSubgame] matches with the infosets of its subgame, when the
    counter stands at [k], are those whose first member lies in the
    subgame of the [k]-th marked root (counted by first occurrence). *)
Theorem table_selects_subgame (E : Efg) (p : EFLiapParams) (s : BehavProfile)
    (max : Z) (slv slv' : EFLiapBySubgame) (pl iset : nat) :
  has_members E ->
  new_EFLiapBySubgame E p s max = Ok slv ->
  infoset_subgames slv' = infoset_subgames slv ->
  (iset ∈ matched slv' pl <->
   exists root, first_member_root E pl iset = Some root /\
     first_index root (MarkedSubgameRoots E) (subgame_number slv')).
Proof.
  intros Hmem Hnew Htab.
  pose proof (new_EFLiapBySubgame_guarded E p s max Hmem) as H.
  rewrite Hnew in H. simpl in H.
  destruct H as (_ & _ & _ & _ & Hdims & Hall).
  unfold matched. rewrite list_elem_of_filter, Htab. split.
  - intros [Hk Hin].
    unfold pv_at in Hk.
    destruct (at1 (infoset_subgames slv) pl) as [row|] eqn:Hrow; [|discriminate].
    assert (Hpl : is_Some (at1 (PlayerList E) pl)).
    { apply at1_is_Some.
      assert (Hs : is_Some (at1 (infoset_subgames slv) pl)) by (rewrite Hrow; eauto).
      apply at1_is_Some in Hs.
      assert (Hl : length (infoset_subgames slv) = length (PureDimensionality E))
        by (rewrite <- Hdims, length_map; reflexivity).
      unfold PureDimensionality in Hl. rewrite length_map in Hl. lia. }
    destruct Hpl as [player Hplayer].
    assert (Hlen : length row = NumInfosets player).
    { assert (Hr : at1 (map length (infoset_subgames slv)) pl = Some (length row))
        by (rewrite at1_map, Hrow; reflexivity).
      rewrite Hdims in Hr. unfold PureDimensionality in Hr.
      rewrite at1_map, Hplayer in Hr. simpl in Hr. congruence. }
    assert (Hiset : is_Some (at1 (InfosetList player) iset)).
    { apply at1_is_Some.
      assert (Hs : is_Some (at1 row iset)) by (rewrite Hk; eauto).
      apply at1_is_Some in Hs. unfold NumInfosets in Hlen. lia. }
    destruct Hiset as [infoset Hinfoset].
    pose proof (Hmem pl iset player infoset Hplayer Hinfoset) as Hne.
    destruct (Members infoset) as [|member rest] eqn:Hmembers; [congruence|].
    assert (Hroot : first_member_root E pl iset = Some (GetSubgameRoot E member)).
    { unfold first_member_root. rewrite Hplayer. simpl. rewrite Hinfoset. simpl.
      rewrite Hmembers. reflexivity. }
    exists (GetSubgameRoot E member). split; [exact Hroot|].
    destruct (Hall pl iset _ Hroot) as (index & Hat & Hfirst).
    unfold pv_at in Hat. rewrite Hrow, Hk in Hat. injection Hat as <-. exact Hfirst.
  - intros (root & Hroot & Hfirst).
    destruct (Hall pl iset root Hroot) as (index & Hat & Hfirst').
    rewrite (first_index_unique _ _ _ _ Hfirst Hfirst'). split; [exact Hat|].
    unfold pv_at in Hat.
    destruct (at1 (infoset_subgames slv) pl) as [row|] eqn:Hrow; [|discriminate].
    simpl. apply in_seq1. apply at1_is_Some. rewrite Hat. eauto.
Qed.

Lemma table_selects_subgame_witness :
  (has_members game_AB /\
   new_EFLiapBySubgame game_AB default_params start_AB 0 = Ok solver_AB /\
   infoset_subgames (bump solver_AB) = infoset_subgames solver_AB) /\
  (2%nat ∈ matched (bump solver_AB) 1 <->
   exists root, first_member_root game_AB 1 2 = Some root /\
     first_index root (MarkedSubgameRoots game_AB) (subgame_number (bump solver_AB))).
Proof.
  assert (H : new_EFLiapBySubgame game_AB default_params start_AB 0 = Ok solver_AB)
    by reflexivity.
  split; [split; [exact game_AB_has_members | split; [exact H | reflexivity]]|].
  apply (table_selects_subgame game_AB default_params start_AB 0 solver_AB
           (bump solver_AB) 1 2 game_AB_has_members H eq_refl).
Defined.

End EFLiapFacts.

(** ** Complex numbers *)

Module ComplexFacts.
Import Complex.

Local Open Scope Q_scope.

Lemma ceq_refl (x : gComplex) : ceq x x.
Proof. split; reflexivity. Qed.

Lemma ceq_sym (x y : gComplex) : ceq x y -> ceq y x.
Proof. intros [H1 H2]. split; symmetry; assumption. Qed.

Lemma ceq_trans (x y z : gComplex) : ceq x y -> ceq y z -> ceq x z.
Proof. intros [H1 H2] [H3 H4]. split; etransitivity; eassumption. Qed.

#[local] Instance ceq_equivalence : Equivalence ceq.
Proof.
  split; [intros x; apply ceq_refl | intros x y; apply ceq_sym |
          intros x y z; apply ceq_trans].
Qed.


Lemma mul_comm (x y : gComplex) : ceq (mul x y) (mul y x).
Proof. unfold ceq, mul. simpl. split; ring. Qed.










(** *** [pow] *)











(** The powers of [i], and a division. *)
Example powers_of_i :
  pow (mkComplex 0 1) 2 = Ok (mkComplex (-1) 0) /\
  pow (mkComplex 0 1) 3 = Ok (mkComplex 0 (-1)) /\
  pow (mkComplex 0 1) 0 = Ok (of_int 1) /\
  (exists r, pow (mkComplex 0 2) (-2) = Ok r /\ ceq r (mkComplex (-1 # 4) 0)) /\
  (exists q, div (mkComplex 1 0) (mkComplex 0 1) = Ok q /\ ceq q (mkComplex 0 (-1))) /\
  div (mkComplex 1 2) (of_int 0) = Raise AssertionFailure.
Proof.
  split; [reflexivity|]. split; [reflexivity|]. split; [reflexivity|].
  split; [eexists; split; [reflexivity | split; reflexivity]|].
  split; [eexists; split; [reflexivity | split; reflexivity] | reflexivity].
Qed.

End ComplexFacts.
